(** * CellularAutomatonLighting2D: the grid, the double-buffered diffusion
    automaton and the light collision step of [Main.cpp], embedded in Rocq.

    Conventions of the embedding.
    - [int] and [size_t] values are [Z]; every grid used here is far smaller
      than [2^31], so no wrap-around occurs and none is modelled.
    - [double] is an abstract type [F] with the operations the program applies
      to it (class [Double]); the theorems that need order or monotonicity
      facts about these operations take them as the laws of [ChannelLaws].
    - A read or write outside a [std::vector], and an integer division by
      zero, are undefined behaviour in C++: the embedding returns [None].
    - What [draw] hands to the renderer is the list of its calls, in order
      ([Field.Drawing]); a run of [Main] is determined by the inputs of its
      frames, one [Input] per frame that [System::Update()] grants. *)

From Stdlib Require Import ZArith Lia String.
From stdpp Require Import prelude.

Local Open Scope Z_scope.

(** ** Arithmetic of [double] *)

Class Double (F : Type) : Type := {
  (** the literal [num/den] written in decimal in the source *)
  lit : Z → Z → F;
  (** conversion [int → double] *)
  of_int : Z → F;
  (** [static_cast<int>]: truncation towards zero *)
  to_int : F → Z;
  fadd : F → F → F;
  fsub : F → F → F;
  fmul : F → F → F;
  fdiv : F → F → F;
  fneg : F → F;
  (** [operator<] *)
  flt : F → F → bool;
  (** [pow] of the C library *)
  pow : F → F → F;
  (** [Sqrt] and [Floor] of Siv3D *)
  Sqrt : F → F;
  Floor : F → F;
}.

Declare Scope double_scope.
Delimit Scope double_scope with D.
Notation "x + y" := (fadd x y) : double_scope.
Notation "x - y" := (fsub x y) : double_scope.
Notation "x * y" := (fmul x y) : double_scope.
Notation "x / y" := (fdiv x y) : double_scope.
Notation "- x" := (fneg x) : double_scope.
Notation "x <? y" := (flt x y) : double_scope.

(** [Max] of Siv3D, with the definition of [std::max]. *)
Definition Max `{Double F} (a b : F) : F := if (a <? b)%D then b else a.

(** ** Geometry and colour types of Siv3D *)

Module Point.
Record t : Type := mk { x : Z; y : Z }.

Definition add (p q : t) : t := mk (x p + x q) (y p + y q).
End Point.

Global Instance Point_eq_dec : EqDecision Point.t.
Proof. solve_decision. Defined.

Module Rect.
Record t : Type := mk { x : Z; y : Z; w : Z; h : Z }.
End Rect.

Module Vec2.
Record t (F : Type) : Type := mk { x : F; y : F }.
Global Arguments mk {F}.
Global Arguments x {F}.
Global Arguments y {F}.

Section Ops.
Context `{Double F}.

Definition add (u v : t F) : t F := mk (x u + x v)%D (y u + y v)%D.
Definition sub (u v : t F) : t F := mk (x u - x v)%D (y u - y v)%D.
Definition mul (u : t F) (s : F) : t F := mk (x u * s)%D (y u * s)%D.
Definition div (u : t F) (s : F) : t F := mk (x u / s)%D (y u / s)%D.
Definition neg (u : t F) : t F := mk (- x u)%D (- y u)%D.
Definition lengthSq (u : t F) : F := (x u * x u + y u * y u)%D.
Definition asPoint (u : t F) : Point.t := Point.mk (to_int (x u)) (to_int (y u)).
End Ops.
End Vec2.

Module Circle.
Record t (F : Type) : Type := mk { center : Vec2.t F; r : F }.
Global Arguments mk {F}.
Global Arguments center {F}.
Global Arguments r {F}.
End Circle.

Module Line.
Record t (F : Type) : Type := mk { begin_ : Vec2.t F; end_ : Vec2.t F }.
Global Arguments mk {F}.
Global Arguments begin_ {F}.
Global Arguments end_ {F}.
End Line.

Module RectF.
Record t (F : Type) : Type := mk { x : F; y : F; w : F; h : F }.
Global Arguments mk {F}.
Global Arguments x {F}.
Global Arguments y {F}.
Global Arguments w {F}.
Global Arguments h {F}.

(** [RectF(const Rect&)] *)
Definition of_Rect `{Double F} (q : Rect.t) : t F :=
  mk (of_int (Rect.x q)) (of_int (Rect.y q)) (of_int (Rect.w q)) (of_int (Rect.h q)).
End RectF.

Module ColorF.
Record t (F : Type) : Type := mk { r : F; g : F; b : F; a : F }.
Global Arguments mk {F}.
Global Arguments r {F}.
Global Arguments g {F}.
Global Arguments b {F}.
Global Arguments a {F}.

(** assignments to one member, [c.r = v] and the like *)
Definition set_r {F} (v : F) (c : t F) : t F := mk v (g c) (b c) (a c).
Definition set_g {F} (v : F) (c : t F) : t F := mk (r c) v (b c) (a c).
Definition set_b {F} (v : F) (c : t F) : t F := mk (r c) (g c) v (a c).
End ColorF.

(** [Palette::Black] converted to [ColorF]: opaque black. *)
Definition Black `{Double F} : ColorF.t F := ColorF.mk (lit 0 1) (lit 0 1) (lit 0 1) (lit 1 1).

(** What the program takes from Siv3D besides arithmetic. *)
Record Siv3D (F : Type) : Type := {
  Window_Size : Point.t;
  (** [HSV(h, s, v)] converted to [ColorF] *)
  HSV : F → F → F → ColorF.t F;
  (** [RectF::stretched(double)] *)
  stretched : RectF.t F → F → RectF.t F;
  (** [RectF::intersects(const Line&)] *)
  intersects : RectF.t F → Line.t F → bool;
  (** the [i]-th value [RandomVec2(const RectF&)] returns *)
  RandomVec2_in : RectF.t F → nat → Vec2.t F;
}.
Global Arguments Window_Size {F}.
Global Arguments HSV {F}.
Global Arguments stretched {F}.
Global Arguments intersects {F}.
Global Arguments RandomVec2_in {F}.

(** ** [std::vector] and [std::array<T, 2>] indexed by a C++ integer *)

Definition vec_at {T : Type} (v : list T) (i : Z) : option T :=
  if decide (0 ≤ i) then v !! Z.to_nat i else None.

Definition vec_put {T : Type} (v : list T) (i : Z) (x : T) : option (list T) :=
  if decide (0 ≤ i < Z.of_nat (length v)) then Some (<[Z.to_nat i := x]> v) else None.

Definition array2_at {T : Type} (arr : T * T) (i : Z) : option T :=
  if decide (i = 0) then Some arr.1 else if decide (i = 1) then Some arr.2 else None.

Definition array2_put {T : Type} (arr : T * T) (i : Z) (x : T) : option (T * T) :=
  if decide (i = 0) then Some (x, arr.2) else if decide (i = 1) then Some (arr.1, x) else None.

(** ** [DoubleBuffer<T>] *)

Module DoubleBuffer.
Section Defs.
Context {T : Type}.

Record t : Type := mk { m_buffer : T * T; m_currentWriteBuffer : Z }.

(** [DoubleBuffer(const T& initial)] *)
Definition make (initial : T) : t := mk (initial, initial) 0.

Definition size : Z := 2.

Definition flip (d : t) : t :=
  mk (m_buffer d) ((m_currentWriteBuffer d + 1) mod size).

Definition writeIndex (d : t) : Z := m_currentWriteBuffer d.
Definition readIndex (d : t) : Z := (m_currentWriteBuffer d + 1) mod size.

(** [write()] and [read()]: the instance the returned reference denotes. *)
Definition write (d : t) : option T := array2_at (m_buffer d) (writeIndex d).
Definition read (d : t) : option T := array2_at (m_buffer d) (readIndex d).

(** an assignment through the reference [write()] returns *)
Definition write_put (d : t) (x : T) : option t :=
  arr ← array2_put (m_buffer d) (writeIndex d) x;
  Some (mk arr (m_currentWriteBuffer d)).

(** the invariant of the index: it is [0] or [1] *)
Definition wf (d : t) : Prop := m_currentWriteBuffer d = 0 ∨ m_currentWriteBuffer d = 1.
End Defs.
Global Arguments t : clear implicits.
End DoubleBuffer.

(** ** [Grid2D<T>] *)

Module Grid2D.
(** [m_grid]: the rows *)
Abbreviation t T := (list (list T)) (only parsing).

Section Defs.
Context {T : Type}.
Implicit Types grid : list (list T).

(** [Grid2D(size_t x, size_t y, const T& value)] *)
Definition make (x y : Z) (value : T) : t T :=
  replicate (Z.to_nat y) (replicate (Z.to_nat x) value).

Definition reset grid (value : T) : t T :=
  (λ line : list T, (λ _ : T, value) <$> line) <$> grid.

(** [resize(size_t x, size_t y, const T& value)]: the rows that
    [m_grid.resize(y)] appends are empty until the loop resizes them; the
    overload without [value] is this one at [T()] *)
Definition resize grid (x y : Z) (value : T) : t T :=
  (λ line : list T, list.resize (Z.to_nat x) value line)
    <$> list.resize (Z.to_nat y) [] grid.

(** [operator[](const Point&)], unchecked in C++ *)
Definition at_ grid (p : Point.t) : option T :=
  line ← vec_at grid (Point.y p); vec_at line (Point.x p).

(** [m_grid[p.y][p.x] = value] *)
Definition put grid (p : Point.t) (value : T) : option (t T) :=
  line ← vec_at grid (Point.y p);
  line' ← vec_put line (Point.x p) value;
  vec_put grid (Point.y p) line'.

Definition isValid grid (p : Point.t) : bool :=
  bool_decide (0 ≤ Point.y p) && bool_decide (Point.y p < Z.of_nat (length grid))
  && bool_decide (0 ≤ Point.x p)
  && match vec_at grid (Point.y p) with
     | Some line => bool_decide (Point.x p < Z.of_nat (length line))
     | None => false
     end.

Definition width grid : Z :=
  match grid with [] => 0 | front :: _ => Z.of_nat (length front) end.

Definition height grid : Z := Z.of_nat (length grid).

(** every row has [w] cells and there are [h] rows *)
Definition rect (w h : Z) grid : Prop :=
  Z.of_nat (length grid) = h ∧ Forall (λ line, Z.of_nat (length line) = w) grid.
End Defs.
End Grid2D.

(** the lengths of the rows of a grid *)
Definition shape {T : Type} (grid : list (list T)) : list nat := length <$> grid.

(** ** Loops *)

(** [for (a : l) s = body(a, s)], stopping at the first undefined step *)
Fixpoint forM {A S : Type} (body : A → S → option S) (l : list A) (s : S) : option S :=
  match l with
  | [] => Some s
  | a :: l' => s' ← body a s; forM body l' s'
  end.

(** [for (int i = 0; i < n; ++i) s = body(s)] *)
Fixpoint repeatM {S : Type} (body : S → option S) (n : nat) (s : S) : option S :=
  match n with
  | O => Some s
  | S n' => s' ← body s; repeatM body n' s'
  end.

(** ** [Field] *)

(** [Image]: only its pixel dimensions are used *)
Record Image : Type := { image_width : Z; image_height : Z }.

(** what one frame reads from [Mouse], [Input] and the random source *)
Record Input (F : Type) : Type := {
  Mouse_Pos : Point.t;
  Mouse_PosF : Vec2.t F;
  MouseL_pressed : bool;
  MouseR_pressed : bool;
  MouseM_pressed : bool;
  KeySpace_pressed : bool;
  (** the value [RandomVec2(1000.0)] returns in the iteration of light [i] *)
  RandomVec2_len : nat → Vec2.t F;
}.
Global Arguments Mouse_Pos {F}.
Global Arguments Mouse_PosF {F}.
Global Arguments MouseL_pressed {F}.
Global Arguments MouseR_pressed {F}.
Global Arguments MouseM_pressed {F}.
Global Arguments KeySpace_pressed {F}.
Global Arguments RandomVec2_len {F}.

Module Field.
(** [static_cast<char>(true)] and [static_cast<char>(false)] *)
Definition FieldWall : Z := 1.
Definition FieldSpace : Z := 0.

Record t (F : Type) : Type := mk {
  m_field : Image;
  m_isWall : Grid2D.t Z;
  m_brightness : DoubleBuffer.t (Grid2D.t (ColorF.t F));
  m_lightPos : list (Circle.t F);
  m_lightColor : list (ColorF.t F);
  m_velocity : list (Vec2.t F);
}.
Global Arguments mk {F}.
Global Arguments m_field {F}.
Global Arguments m_isWall {F}.
Global Arguments m_brightness {F}.
Global Arguments m_lightPos {F}.
Global Arguments m_lightColor {F}.
Global Arguments m_velocity {F}.

Definition with_isWall {F} (f : t F) (walls : Grid2D.t Z) : t F :=
  mk (m_field f) walls (m_brightness f) (m_lightPos f) (m_lightColor f) (m_velocity f).

Definition with_brightness {F} (f : t F) (br : DoubleBuffer.t (Grid2D.t (ColorF.t F))) : t F :=
  mk (m_field f) (m_isWall f) br (m_lightPos f) (m_lightColor f) (m_velocity f).

(** the outcome of the constructor *)
Inductive construction (F : Type) : Type :=
| Constructed (f : t F)
| AssertFailed (logged : string)
| Crashed.
Global Arguments Constructed {F}.
Global Arguments AssertFailed {F}.
Global Arguments Crashed {F}.

(** what [draw] hands to the renderer: [rect.draw(color)],
    [m_texture.uv(rect).draw(pos, color)] and [circle.draw(color)] *)
Inductive Drawing (F : Type) : Type :=
| RectDraw (rect : Rect.t) (color : ColorF.t F)
| TextureDraw (uv : Rect.t) (pos : Point.t) (color : ColorF.t F)
| CircleDraw (circle : Circle.t F) (color : ColorF.t F).
Global Arguments RectDraw {F}.
Global Arguments TextureDraw {F}.
Global Arguments CircleDraw {F}.

Section Defs.
Context `{Double F} (siv : Siv3D F).

(** [m_field.height / m_isWall.height()] *)
Definition gridUnitPixel (f : t F) : option Z :=
  if decide (Grid2D.height (m_isWall f) = 0) then None
  else Some (image_height (m_field f) `quot` Grid2D.height (m_isWall f)).

Definition gridRect (f : t F) (p : Point.t) : option Rect.t :=
  unitWidth ← gridUnitPixel f;
  Some (Rect.mk (unitWidth * Point.x p) (unitWidth * Point.y p) unitWidth unitWidth).

Definition isWall (f : t F) (p : Point.t) : option bool :=
  c ← Grid2D.at_ (m_isWall f) p; Some (bool_decide (c = FieldWall)).

Definition resetBrightness (f : t F) : option (t F) :=
  w1 ← DoubleBuffer.write (m_brightness f);
  b1 ← DoubleBuffer.write_put (m_brightness f) (Grid2D.reset w1 Black);
  let b2 := DoubleBuffer.flip b1 in
  w2 ← DoubleBuffer.write b2;
  b3 ← DoubleBuffer.write_put b2 (Grid2D.reset w2 Black);
  Some (with_brightness f b3).

(** [Point(p.x / gridUnitPixel(), p.y / gridUnitPixel())] on [int]s *)
Definition mouseGridPos (f : t F) (p : Point.t) : option Point.t :=
  u ← gridUnitPixel f;
  if decide (u = 0) then None
  else Some (Point.mk (Point.x p `quot` u) (Point.y p `quot` u)).

Definition gridPos (f : t F) (p : Point.t) : option Point.t :=
  u ← gridUnitPixel f;
  Some (Point.mk (to_int (Floor (lit 1 1 * of_int (Point.x p) / of_int u)%D))
                 (to_int (Floor (lit 1 1 * of_int (Point.y p) / of_int u)%D))).

(** lines 159-170 of [update]: the wall edit under the pointer *)
Definition editWalls (f : t F) (inp : Input F) : option (t F) :=
  mousePos ← mouseGridPos f (Mouse_Pos inp);
  if Grid2D.isValid (m_isWall f) mousePos then
    (w1 ← (if MouseL_pressed inp then Grid2D.put (m_isWall f) mousePos FieldWall
           else Some (m_isWall f));
     w2 ← (if MouseR_pressed inp then Grid2D.put w1 mousePos FieldSpace
           else Some w1);
     Some (with_isWall f w2))
  else Some f.

(** *** The motion and collision of one light (lines 176-258) *)

Definition dt : F := (lit 1 1 / lit 60 1)%D.
Definition restitution : F := lit 1 2.

Definition neighbors : list Point.t :=
  [ Point.mk 0 (-1); Point.mk (-1) 0; Point.mk 1 0; Point.mk 0 1;
    Point.mk (-1) (-1); Point.mk 1 (-1); Point.mk (-1) 1; Point.mk 1 1 ].

Definition reflectDirection : list (Vec2.t F) :=
  [ Vec2.mk (of_int 1) (- restitution)%D; Vec2.mk (- restitution)%D (of_int 1);
    Vec2.mk (- restitution)%D (of_int 1); Vec2.mk (of_int 1) (- restitution)%D;
    Vec2.mk (- restitution)%D (- restitution)%D; Vec2.mk (- restitution)%D (- restitution)%D;
    Vec2.mk (- restitution)%D (- restitution)%D; Vec2.mk (- restitution)%D (- restitution)%D ].

(** the condition of line 241 for the neighbour at [q] *)
Definition collides (f : t F) (moveSegment : Line.t F) (q : Point.t) : option bool :=
  if Grid2D.isValid (m_isWall f) q then
    (w ← isWall f q;
     if (w : bool) then
       (cell ← gridRect f q;
        Some (intersects siv (stretched siv (RectF.of_Rect cell) (lit 2 1)) moveSegment))
     else Some false)
  else Some false.

(** the loop of lines 232-248 from index [j] on; [js] are the indices
    still to visit *)
Fixpoint reflectLoop (f : t F) (moveSegment : Line.t F) (gridA : Point.t)
    (js : list nat) (reflects : bool) (v : Vec2.t F) : option (Vec2.t F) :=
  match js with
  | [] => Some v
  | j :: js' =>
    if reflects && bool_decide (4 ≤ j)%nat then Some v
    else
      offset ← neighbors !! j;
      hit ← collides f moveSegment (Point.add gridA offset);
      if (hit : bool) then
        (scale ← reflectDirection !! j;
         reflectLoop f moveSegment gridA js' true
           (Vec2.mk (Vec2.x v * Vec2.x scale)%D (Vec2.y v * Vec2.y scale)%D))
      else reflectLoop f moveSegment gridA js' reflects v
  end.

(** the condition of lines 217-229 *)
Definition collisionEvaluated (f : t F) (gridA gridB : Point.t) : option bool :=
  if Grid2D.isValid (m_isWall f) gridA && Grid2D.isValid (m_isWall f) gridB
     && bool_decide (gridA ≠ gridB)
  then (w ← isWall f gridA; Some (negb w))
  else Some false.

(** lines 217-249: the velocity after the collision step *)
Definition resolveCollision (f : t F) (moveSegment : Line.t F) (gridA gridB : Point.t)
    (v : Vec2.t F) : option (Vec2.t F) :=
  evaluated ← collisionEvaluated f gridA gridB;
  if (evaluated : bool) then
    reflectLoop f moveSegment gridA (seq 0 (length neighbors)) false v
  else Some v.

(** lines 190-209: the velocity after damping and force *)
Definition applyForce (inp : Input F) (i : nat) (c : Circle.t F) (v : Vec2.t F) : Vec2.t F :=
  let v := Vec2.mul v (lit 999 1000) in
  let toMouse := Vec2.sub (Mouse_PosF inp) (Circle.center c) in
  if KeySpace_pressed inp then
    if MouseM_pressed inp then
      Vec2.add v (Vec2.mul (Vec2.mul toMouse (lit 1 2)) dt)
    else if (lit 1 1 <? Vec2.lengthSq toMouse)%D then
      Vec2.add v (Vec2.mul (Vec2.mul (Vec2.div (Vec2.neg toMouse) (Vec2.lengthSq toMouse))
                                     (lit 10000 1)) dt)
    else v
  else Vec2.add v (Vec2.mul (RandomVec2_len inp i) dt).

(** lines 190-251: the circle and the velocity of light [i] after damping,
    force, collision and move *)
Definition moveLight (inp : Input F) (i : nat) (f : t F)
    : option (Circle.t F * Vec2.t F) :=
  v ← m_velocity f !! i;
  c ← m_lightPos f !! i;
  let v := applyForce inp i c v in
  let target := Vec2.add (Circle.center c) (Vec2.mul v dt) in
  let moveSegment := Line.mk (Circle.center c) target in
  gridA ← gridPos f (Vec2.asPoint (Circle.center c));
  gridB ← gridPos f (Vec2.asPoint target);
  v ← resolveCollision f moveSegment gridA gridB v;
  Some (Circle.mk (Vec2.add (Circle.center c) (Vec2.mul v dt)) (Circle.r c), v).

(** the stamp of lines 253-257 for light [i] at the cell [pos] *)
Definition stamp (f : t F) (pos : Point.t) (i : nat)
    : option (DoubleBuffer.t (Grid2D.t (ColorF.t F))) :=
  rd ← DoubleBuffer.read (m_brightness f);
  if Grid2D.isValid rd pos then
    (wr ← DoubleBuffer.write (m_brightness f);
     color ← m_lightColor f !! i;
     wr' ← Grid2D.put wr pos color;
     DoubleBuffer.write_put (m_brightness f) wr')
  else Some (m_brightness f).

(** one iteration of the loop of lines 188-258 *)
Definition lightStep (inp : Input F) (i : nat) (f : t F) : option (t F) :=
  moved ← moveLight inp i f;
  pos ← gridPos f (Vec2.asPoint (Circle.center moved.1));
  br ← stamp f pos i;
  Some (mk (m_field f) (m_isWall f) br (<[i := moved.1]> (m_lightPos f)) (m_lightColor f)
           (<[i := moved.2]> (m_velocity f))).

(** *** [stepLightDiffusion] *)

Definition sqrt2 : F := Sqrt (lit 2 1).

Definition diffusion_neighbors : list Point.t :=
  [ Point.mk (-1) (-1); Point.mk 0 (-1); Point.mk 1 (-1);
    Point.mk (-1) 0;                      Point.mk 1 0;
    Point.mk (-1) 1;    Point.mk 0 1;    Point.mk 1 1 ].

Definition attenuationAdjacent : F := lit 9 10.
Definition attenuationDiagonal : F := pow attenuationAdjacent sqrt2.
Definition attenuations : list F :=
  [ attenuationDiagonal; attenuationAdjacent; attenuationDiagonal;
    attenuationAdjacent;                      attenuationAdjacent;
    attenuationDiagonal; attenuationAdjacent; attenuationDiagonal ].

(** the condition of lines 421-425; its two calls of [isWall] are
    unchecked, and the second is made only when the first returns true *)
Definition cornerBlocked (f : t F) (x y : Z) (i : nat) (side : Point.t) : option bool :=
  if bool_decide (i = 0 ∨ i = 2 ∨ i = 5 ∨ i = 7)%nat then
    (w1 ← isWall f (Point.mk (x + Point.x side) y);
     if (w1 : bool) then isWall f (Point.mk x (y + Point.y side)) else Some false)
  else Some false.

(** one iteration of the loop of lines 417-439 *)
Definition neighbourStep (f : t F) (rd : Grid2D.t (ColorF.t F)) (x y : Z)
    (i : nat) (maxBrightness : ColorF.t F) : option (ColorF.t F) :=
  side ← diffusion_neighbors !! i;
  blocked ← cornerBlocked f x y i side;
  if (blocked : bool) then Some maxBrightness
  else
    att ← attenuations !! i;
    let sideCell := Point.add (Point.mk x y) side in
    if Grid2D.isValid rd sideCell then
      (c ← Grid2D.at_ rd sideCell;
       Some (ColorF.set_b (Max (ColorF.b maxBrightness) (ColorF.b c * att)%D)
            (ColorF.set_g (Max (ColorF.g maxBrightness) (ColorF.g c * att)%D)
            (ColorF.set_r (Max (ColorF.r maxBrightness) (ColorF.r c * att)%D)
               maxBrightness))))
    else Some maxBrightness.

(** the loop of lines 416-439: [maxBrightness] after it *)
Definition neighbourMax (f : t F) (rd : Grid2D.t (ColorF.t F)) (x y : Z)
    : option (ColorF.t F) :=
  forM (neighbourStep f rd x y) (seq 0 (length diffusion_neighbors)) Black.

(** the body of the loops of lines 406-445 at the cell [(x, y)] *)
Definition diffuseCell (f : t F) (rd : Grid2D.t (ColorF.t F)) (x y : Z)
    (wr : Grid2D.t (ColorF.t F)) : option (Grid2D.t (ColorF.t F)) :=
  w ← isWall f (Point.mk x y);
  if (w : bool) then Grid2D.put wr (Point.mk x y) Black
  else
    maxBrightness ← neighbourMax f rd x y;
    own ← Grid2D.at_ rd (Point.mk x y);
    old ← Grid2D.at_ wr (Point.mk x y);
    Grid2D.put wr (Point.mk x y)
      (ColorF.set_b (Max (ColorF.b own) (ColorF.b maxBrightness))
      (ColorF.set_g (Max (ColorF.g own) (ColorF.g maxBrightness))
      (ColorF.set_r (Max (ColorF.r own) (ColorF.r maxBrightness)) old))).

(** the loops of lines 406-445: the new write-side grid *)
Definition diffusePass (f : t F) (rd wr : Grid2D.t (ColorF.t F))
    : option (Grid2D.t (ColorF.t F)) :=
  forM (λ y wr, forM (λ x wr, diffuseCell f rd x y wr) (seqZ 0 (Grid2D.width rd)) wr)
       (seqZ 0 (Grid2D.height rd)) wr.

Definition stepLightDiffusion (f : t F) : option (t F) :=
  rd ← DoubleBuffer.read (m_brightness f);
  wr ← DoubleBuffer.write (m_brightness f);
  wr' ← diffusePass f rd wr;
  br ← DoubleBuffer.write_put (m_brightness f) wr';
  Some (with_brightness f (DoubleBuffer.flip br)).

(** *** [update] *)

(** lines 157-260: reset, wall edit, the lights, and the flip that makes
    the stamped grid the read side *)
Definition seedFrame (f : t F) (inp : Input F) : option (t F) :=
  f ← resetBrightness f;
  f ← editWalls f inp;
  f ← forM (lightStep inp) (seq 0 (length (m_lightPos f))) f;
  Some (with_brightness f (DoubleBuffer.flip (m_brightness f))).

Definition update (f : t F) (inp : Input F) : option (t F) :=
  f ← seedFrame f inp;
  repeatM stepLightDiffusion 30 f.

(** *** [draw] *)

Definition fieldRect (f : t F) : Rect.t :=
  Rect.mk 0 0 (image_width (m_field f)) (image_height (m_field f)).

(** the body of the loops of lines 270-287 at the cell [(x, y)] *)
Definition drawCell (f : t F) (x y : Z) : option (Drawing F) :=
  rd ← DoubleBuffer.read (m_brightness f);
  color ← Grid2D.at_ rd (Point.mk x y);
  rect ← gridRect f (Point.mk x y);
  w ← isWall f (Point.mk x y);
  Some (if (w : bool) then RectDraw rect Black
        else TextureDraw rect (Point.mk (Rect.x rect) (Rect.y rect)) color).

(** the body of the loop of lines 289-292 for light [i] *)
Definition drawLight (f : t F) (i : nat) : option (Drawing F) :=
  circle ← m_lightPos f !! i;
  color ← m_lightColor f !! i;
  Some (CircleDraw circle color).

(** the cells row by row, then the lights *)
Definition draw (f : t F) : option (list (Drawing F)) :=
  cells ← mapM (λ y, mapM (λ x, drawCell f x y) (seqZ 0 (Grid2D.width (m_isWall f))))
               (seqZ 0 (Grid2D.height (m_isWall f)));
  lights ← mapM (drawLight f) (seq 0 (length (m_lightPos f)));
  Some (concat cells ++ lights).

(** *** Construction *)

(** the [condition] of [checkInitialValidness] *)
Definition checkInitialValidness (f : t F) (gridUnitPixel : Z) : bool :=
  bool_decide (image_width (m_field f) `rem` gridUnitPixel = 0)
  && bool_decide (image_height (m_field f) `rem` gridUnitPixel = 0).

Definition initFailure : string :=
  "Field Class Initialization Failed : Field Resolution Cannot Be Divided By Cell Unit Size.".

(** the body of the loops of lines 319-333 *)
Definition initCell (width height x y : Z) (walls : Grid2D.t Z) : option (Grid2D.t Z) :=
  walls ← Grid2D.put walls (Point.mk x y) FieldSpace;
  if bool_decide (x = 0 ∨ y = 0 ∨ x + 1 = width ∨ y + 1 = height)
  then Grid2D.put walls (Point.mk x y) FieldWall
  else Some walls.

Definition initWalls (walls : Grid2D.t Z) : option (Grid2D.t Z) :=
  forM (λ y walls,
          forM (λ x walls, initCell (Grid2D.width walls) (Grid2D.height walls) x y walls)
               (seqZ 0 (Grid2D.width walls)) walls)
       (seqZ 0 (Grid2D.height walls)) walls.

(** the light that the loop of lines 339-344 stores at index [i] *)
Definition spawnLight (f : t F) (i : nat)
    : option (Circle.t F * ColorF.t F * Vec2.t F) :=
  u ← gridUnitPixel f;
  let window := RectF.mk (of_int 0) (of_int 0) (of_int (Point.x (Window_Size siv)))
                         (of_int (Point.y (Window_Size siv))) in
  Some (Circle.mk (RandomVec2_in siv (stretched siv window (of_int (- u))) i)
                  (of_int u * lit 1 2)%D,
        HSV siv (lit 120 1 + lit 30 1 * of_int (Z.of_nat i))%D (lit 7 10) (lit 1 1),
        Vec2.mk (of_int 0) (of_int 0)).

Definition init (f : t F) : option (t F) :=
  walls ← initWalls (m_isWall f);
  let f := with_isWall f walls in
  let num := 8%nat in
  lights ← mapM (spawnLight f) (seq 0 num);
  Some (mk (m_field f) (m_isWall f) (m_brightness f)
           (lights.*1.*1) (lights.*1.*2) (lights.*2)).

(** [Field(const Image& image, int gridUnitPixel)], for a positive
    [gridUnitPixel]; [assert] is taken as enabled *)
Definition construct (image : Image) (gridUnitPixel : Z) : construction F :=
  if decide (gridUnitPixel = 0) then Crashed
  else
    let width := image_width image `quot` gridUnitPixel in
    let height := image_height image `quot` gridUnitPixel in
    let f := mk image (Grid2D.make width height FieldSpace)
                (DoubleBuffer.make (Grid2D.make width height Black)) [] [] [] in
    if checkInitialValidness f gridUnitPixel then
      match init f with
      | Some f => Constructed f
      | None => Crashed
      end
    else AssertFailed initFailure.

(** the loop of [Main] over the frames [System::Update()] grants: one
    [update] and one [draw] per frame; what the frames draw *)
Fixpoint mainLoop (f : t F) (inps : list (Input F)) : option (list (list (Drawing F))) :=
  match inps with
  | [] => Some []
  | inp :: inps' =>
    f ← update f inp;
    out ← draw f;
    outs ← mainLoop f inps';
    Some (out :: outs)
  end.
End Defs.

(** [Window::Resize(w, h)] *)
Definition Window_Resize {F} (siv : Siv3D F) (w h : Z) : Siv3D F := {|
  Window_Size := Point.mk w h;
  HSV := HSV siv;
  stretched := stretched siv;
  intersects := intersects siv;
  RandomVec2_in := RandomVec2_in siv;
|}.

(** [Main]: undefined when the constructor fails or a frame is undefined *)
Definition Main `{Double F} (siv : Siv3D F) (inps : list (Input F))
    : option (list (list (Drawing F))) :=
  let siv := Window_Resize siv 1280 736 in
  let size := Window_Size siv in
  match construct siv {| image_width := Point.x size; image_height := Point.y size |} 32 with
  | Constructed f => mainLoop siv f inps
  | _ => None
  end.
End Field.

(** ** A fixed-point instance: thousandths as integers

    It runs the definitions above and satisfies the laws the theorems on
    brightness values assume. *)

Module Milli.
Definition one : Z := 1000.

(** [x^y] for [y >= 0], linear between the integer powers *)
Definition power (x y : Z) : Z :=
  let p := Z.iter (y `div` one) (λ acc, (acc * x) `div` one) one in
  let q := (p * x) `div` one in
  p + ((q - p) * (y `mod` one)) `div` one.

Global Instance double : Double Z := {|
  lit n d := (one * n) `div` d;
  of_int z := one * z;
  to_int x := x `quot` one;
  fadd := Z.add;
  fsub := Z.sub;
  fmul x y := (x * y) `div` one;
  fdiv x y := (one * x) `div` y;
  fneg := Z.opp;
  flt := Z.ltb;
  pow := power;
  Sqrt x := Z.sqrt (one * x);
  Floor x := one * (x `div` one);
|}.

(** a segment meets an axis-parallel rectangle iff their bounding boxes
    overlap and the corners of the rectangle are not strictly on one side
    of the line through the segment *)
Definition segment_meets (q : RectF.t Z) (l : Line.t Z) : bool :=
  let '(x0, y0, x1, y1) := (RectF.x q, RectF.y q, RectF.x q + RectF.w q, RectF.y q + RectF.h q) in
  let '(ax, ay, bx, by_) := (Vec2.x (Line.begin_ l), Vec2.y (Line.begin_ l),
                             Vec2.x (Line.end_ l), Vec2.y (Line.end_ l)) in
  let side cx cy := (bx - ax) * (cy - ay) - (by_ - ay) * (cx - ax) in
  let sides := [side x0 y0; side x1 y0; side x0 y1; side x1 y1] in
  bool_decide (Z.min ax bx ≤ x1) && bool_decide (x0 ≤ Z.max ax bx)
  && bool_decide (Z.min ay by_ ≤ y1) && bool_decide (y0 ≤ Z.max ay by_)
  && negb (forallb (Z.ltb 0) sides) && negb (forallb (λ s, s <? 0) sides).

Definition siv3d : Siv3D Z := {|
  Window_Size := Point.mk 320 320;
  HSV h s v := ColorF.mk ((v * (one - s)) `div` one) v ((v * (one - s)) `div` one) one;
  stretched q s := RectF.mk (RectF.x q - s) (RectF.y q - s) (RectF.w q + 2 * s) (RectF.h q + 2 * s);
  intersects := segment_meets;
  RandomVec2_in q i :=
    Vec2.mk (RectF.x q + RectF.w q `div` 2) (RectF.y q + RectF.h q `div` 2);
|}.

(** the values on which the laws of the channels hold *)
Definition ok (x : Z) : Prop := 0 ≤ x.

(** a field of one open cell, without a ring *)
Definition bare : Field.t Z :=
  Field.mk {| image_width := 32; image_height := 32 |} [[Field.FieldSpace]]
           (DoubleBuffer.make [[Black]]) [] [] [].

(** the field the constructor builds for a [w] by [h] grid of 32-pixel cells *)
Definition built (w h : Z) : Field.t Z :=
  match Field.construct siv3d {| image_width := 32 * w; image_height := 32 * h |} 32 with
  | Field.Constructed f => f
  | _ => bare
  end.

Definition cell_centre (cx cy : Z) : Vec2.t Z :=
  Vec2.mk (one * (32 * cx + 16)) (one * (32 * cy + 16)).

(** [f] with a single light at rest on the centre of the cell [(cx, cy)] *)
Definition with_light (f : Field.t Z) (cx cy : Z) (color : ColorF.t Z) : Field.t Z :=
  Field.mk (Field.m_field f) (Field.m_isWall f) (Field.m_brightness f)
           [Circle.mk (cell_centre cx cy) (16 * one)] [color] [Vec2.mk 0 0].

(** a frame in which the pointer rests on the centre of the cell
    [(cx, cy)] with the space key held, so that no force acts on a light
    at that point *)
Definition pointer_at (cx cy : Z) (left right : bool) : Input Z := {|
  Mouse_Pos := Point.mk (32 * cx + 16) (32 * cy + 16);
  Mouse_PosF := cell_centre cx cy;
  MouseL_pressed := left;
  MouseR_pressed := right;
  MouseM_pressed := false;
  KeySpace_pressed := true;
  RandomVec2_len := λ _, Vec2.mk 0 0;
|}.

Definition amber : ColorF.t Z := ColorF.mk 1000 700 300 1000.

(** a 5 by 5 field after the seeding phase of a frame, with one light at
    rest on its centre cell *)
Definition seeded : Field.t Z :=
  default bare (Field.seedFrame siv3d (with_light (built 5 5) 2 2 amber)
                                (pointer_at 2 2 false false)).

(** the same, with the left button held: the frame makes the cell of
    the light a wall *)
Definition seeded_in_wall : Field.t Z :=
  default bare (Field.seedFrame siv3d (with_light (built 5 5) 2 2 amber)
                                (pointer_at 2 2 true false)).

(** the 10 by 10 field the constructor builds, after the seeding phase of
    a frame in which the pointer is on the ring cell [(0, 0)] with the
    right button held *)
Definition ring_edit : Field.t Z :=
  default bare (Field.seedFrame siv3d (built 10 10) (pointer_at 0 0 false true)).

(** a 5 by 5 field with solid cells above-left and above-right of its
    centre cell [(2, 2)], and a light in the upper left corner of that cell
    that moves to the right and slightly upwards *)
Definition corner_room : Field.t Z :=
  Field.mk (Field.m_field (built 5 5))
           [ [1; 1; 1; 1; 1];
             [1; 1; 0; 1; 1];
             [1; 0; 0; 0; 1];
             [1; 0; 0; 0; 1];
             [1; 1; 1; 1; 1] ]
           (Field.m_brightness (built 5 5))
           [Circle.mk (Vec2.mk 65000 65000) (16 * one)] [amber]
           [Vec2.mk 1876877 (-125125)].

(** a frame in which the pointer rests on that light, with the space key
    held *)
Definition corner_input : Input Z := {|
  Mouse_Pos := Point.mk 65 65;
  Mouse_PosF := Vec2.mk 65000 65000;
  MouseL_pressed := false;
  MouseR_pressed := false;
  MouseM_pressed := false;
  KeySpace_pressed := true;
  RandomVec2_len := λ _, Vec2.mk 0 0;
|}.

(** the movement of that light in that frame *)
Definition corner_move : Line.t Z := Line.mk (Vec2.mk 65000 65000) (Vec2.mk 95000 63000).

(** a sub-step, for a field on which it is defined *)
Definition step (f : Field.t Z) : Field.t Z := default f (Field.stepLightDiffusion f).

(** a frame, for a field and an input on which it is defined *)
Definition frame (f : Field.t Z) (inp : Input Z) : Field.t Z :=
  default f (Field.update siv3d f inp).

(** the read-side grid, for a field whose buffer index is valid *)
Definition read_side (f : Field.t Z) : Grid2D.t (ColorF.t Z) :=
  default [] (DoubleBuffer.read (Field.m_brightness f)).
(** a 5 by 5 field whose cell [(1, 1)] is walled in, with one light at
    rest on the cell [(3, 3)] *)
Definition vault : Field.t Z :=
  Field.mk (Field.m_field (built 5 5))
           [ [1; 1; 1; 1; 1];
             [1; 0; 1; 0; 1];
             [1; 1; 1; 0; 1];
             [1; 0; 0; 0; 1];
             [1; 1; 1; 1; 1] ]
           (Field.m_brightness (built 5 5))
           [Circle.mk (cell_centre 3 3) (16 * one)] [amber] [Vec2.mk 0 0].

(** that field after the seeding phase of a frame *)
Definition vault_seeded : Field.t Z :=
  default bare (Field.seedFrame siv3d vault (pointer_at 3 3 false false)).

(** the cells of the first three columns and rows: the walled-in cell and
    the walls around it *)
Definition vault_region (p : Point.t) : Prop := Point.x p ≤ 2 ∧ Point.y p ≤ 2.

(** the 10 by 10 field of the constructor with a single light at rest on
    the left edge of its centre cell [(5, 5)], at the pixel [(160, 176)] *)
Definition edge_light : Field.t Z :=
  Field.mk (Field.m_field (built 10 10)) (Field.m_isWall (built 10 10))
           (Field.m_brightness (built 10 10))
           [Circle.mk (Vec2.mk (one * 160) (one * 176)) (16 * one)] [amber] [Vec2.mk 0 0].

(** a frame without a button or key held, in which [RandomVec2(1000.0)]
    returns the vector [(-1000, 0)] *)
Definition push_left : Input Z := {|
  Mouse_Pos := Point.mk 176 176;
  Mouse_PosF := cell_centre 5 5;
  MouseL_pressed := false;
  MouseR_pressed := false;
  MouseM_pressed := false;
  KeySpace_pressed := false;
  RandomVec2_len := λ _, Vec2.mk (one * -1000) 0;
|}.
End Milli.

(** ** Vocabulary of the statements *)

Section Vocabulary.
Context `{Double F}.

(** the cells the loops over a grid visit *)
Definition inGrid {T : Type} (grid : list (list T)) (x y : Z) : Prop :=
  0 ≤ x < Grid2D.width grid ∧ 0 ≤ y < Grid2D.height grid.

(** the three grids of the field are [w] by [h] and the double buffer is
    in a valid state *)
Definition Field_wf (w h : Z) (f : Field.t F) : Prop :=
  Grid2D.rect w h (Field.m_isWall f)
  ∧ DoubleBuffer.wf (Field.m_brightness f)
  ∧ Grid2D.rect w h (DoubleBuffer.m_buffer (Field.m_brightness f)).1
  ∧ Grid2D.rect w h (DoubleBuffer.m_buffer (Field.m_brightness f)).2.

(** the outer ring of a [w] by [h] grid, and the fields whose ring is solid *)
Definition onRing (w h x y : Z) : Prop := x = 0 ∨ y = 0 ∨ x = w - 1 ∨ y = h - 1.

Definition ringSolid (w h : Z) (f : Field.t F) : Prop :=
  ∀ x y, 0 ≤ x < w → 0 ≤ y < h → onRing w h x y →
         Field.isWall f (Point.mk x y) = Some true.

(** [f'] has the walls and the image of [f] *)
Definition same_ground (f f' : Field.t F) : Prop :=
  Field.m_isWall f' = Field.m_isWall f ∧ Field.m_field f' = Field.m_field f.

(** the value [init] stores at the cell [(x, y)] of a [w] by [h] grid *)
Definition ringValue (w h x y : Z) : Z :=
  if bool_decide (x = 0 ∨ y = 0 ∨ x + 1 = w ∨ y + 1 = h)
  then Field.FieldWall else Field.FieldSpace.

(** the value [stepLightDiffusion] stores at [(x, y)], where [old] is the
    write-side cell before the store *)
Definition diffused (f : Field.t F) (rd : Grid2D.t (ColorF.t F)) (x y : Z)
    (old new : ColorF.t F) : Prop :=
  Field.isWall f (Point.mk x y) = Some true ∧ new = Black
  ∨ Field.isWall f (Point.mk x y) = Some false
    ∧ ∃ maxBrightness own,
        Field.neighbourMax f rd x y = Some maxBrightness
        ∧ Grid2D.at_ rd (Point.mk x y) = Some own
        ∧ new = ColorF.set_b (Max (ColorF.b own) (ColorF.b maxBrightness))
               (ColorF.set_g (Max (ColorF.g own) (ColorF.g maxBrightness))
               (ColorF.set_r (Max (ColorF.r own) (ColorF.r maxBrightness)) old)).

(** [P] holds of the two grids of a double buffer *)
Definition both {T : Type} (P : T → Prop) (d : DoubleBuffer.t T) : Prop :=
  P (DoubleBuffer.m_buffer d).1 ∧ P (DoubleBuffer.m_buffer d).2.

(** [a] is not above [b]: equal, or less by [operator<] *)
Definition chan_le (a b : F) : Prop := a = b ∨ (a <? b)%D = true.
End Vocabulary.

(** ** The diffusion rule in the words of the specification (section 4.5) *)

Module Spec.
Section Rule.
Context `{Double F}.

(** the 8 neighbour offsets, row by row *)
Definition offsets : list Point.t :=
  filter (λ o, o ≠ Point.mk 0 0) (dy ← [-1; 0; 1]; dx ← [-1; 0; 1]; [Point.mk dx dy]).

Definition diagonal (o : Point.t) : bool :=
  bool_decide (Point.x o ≠ 0 ∧ Point.y o ≠ 0).

(** one constant for the orthogonal offsets, that constant to the power
    [sqrt 2] for the diagonal ones *)
Definition attenuation (orthogonal : F) (o : Point.t) : F :=
  if diagonal o then pow orthogonal (Sqrt (lit 2 1)) else orthogonal.

Definition wall (f : Field.t F) (p : Point.t) : bool :=
  bool_decide (Field.isWall f p = Some true).

(** a diagonal neighbour is skipped when the cell sharing its column with
    it and the cell sharing its row with it are both walls *)
Definition skipped (f : Field.t F) (x y : Z) (o : Point.t) : bool :=
  diagonal o && wall f (Point.mk (x + Point.x o) y) && wall f (Point.mk x (y + Point.y o)).

Definition rgb (c : ColorF.t F) : F * F * F := (ColorF.r c, ColorF.g c, ColorF.b c).

Definition max3 (u v : F * F * F) : F * F * F :=
  (Max u.1.1 v.1.1, Max u.1.2 v.1.2, Max u.2 v.2).

(** what the neighbour at offset [o] contributes: nothing when it is
    skipped or outside the grid, its attenuated brightness otherwise *)
Definition contribution (orthogonal : F) (f : Field.t F) (rd : Grid2D.t (ColorF.t F))
    (x y : Z) (o : Point.t) : option (F * F * F) :=
  if skipped f x y o then None
  else
    c ← Grid2D.at_ rd (Point.add (Point.mk x y) o);
    let k := attenuation orthogonal o in
    Some ((ColorF.r c * k)%D, (ColorF.g c * k)%D, (ColorF.b c * k)%D).

(** the channel-wise maximum over the neighbours, from the darkest value *)
Definition neighbourMax (orthogonal : F) (f : Field.t F) (rd : Grid2D.t (ColorF.t F))
    (x y : Z) : F * F * F :=
  foldl max3 (rgb Black) (omap (contribution orthogonal f rd x y) offsets).

Definition newBrightness (orthogonal : F) (f : Field.t F) (rd : Grid2D.t (ColorF.t F))
    (x y : Z) (own : ColorF.t F) : F * F * F :=
  max3 (rgb own) (neighbourMax orthogonal f rd x y).
End Rule.
End Spec.

(** ** Order and bounds of brightness values *)

Section Order.
Context `{Double F}.

(** [a <= b] on channels, through [operator<] *)
Definition fle (a b : F) : Prop := (b <? a)%D = false.

(** What the theorems on brightness values along a chain of sub-steps
    assume of [double]. The laws hold for the values [ok] singles out, as
    the finite doubles of sign [+], [+0.0] included: on those, [<] is a
    strict total order of which [0.0] is the least element, and the
    product with an attenuation constant is monotone, does not exceed its
    argument, and does not exceed the product with the orthogonal constant
    (the diagonal constant being the smaller). *)
Class ChannelLaws (ok : F → Prop) : Prop := {
  ok_zero : ok (lit 0 1);
  ok_adjacent x : ok x → ok (x * Field.attenuationAdjacent)%D;
  ok_diagonal x : ok x → ok (x * Field.attenuationDiagonal)%D;
  lt_irrefl x : ok x → (x <? x)%D = false;
  lt_trans x y z :
    ok x → ok y → ok z → (x <? y)%D = true → (y <? z)%D = true → (x <? z)%D = true;
  lt_total x y : ok x → ok y → (x <? y)%D = false → (y <? x)%D = false → x = y;
  zero_least x : ok x → fle (lit 0 1) x;
  mul_mono x y :
    ok x → ok y → fle x y →
    fle (x * Field.attenuationAdjacent)%D (y * Field.attenuationAdjacent)%D;
  mul_le_self x : ok x → fle (x * Field.attenuationAdjacent)%D x;
  diagonal_le_adjacent x :
    ok x → fle (x * Field.attenuationDiagonal)%D (x * Field.attenuationAdjacent)%D;
}.

(** the same on the three colour channels *)
Definition ok3 (ok : F → Prop) (u : F * F * F) : Prop := ok u.1.1 ∧ ok u.1.2 ∧ ok u.2.

Definition le3 (u v : F * F * F) : Prop := fle u.1.1 v.1.1 ∧ fle u.1.2 v.1.2 ∧ fle u.2 v.2.

Definition scale3 (u : F * F * F) (k : F) : F * F * F :=
  ((u.1.1 * k)%D, (u.1.2 * k)%D, (u.2 * k)%D).

(** the distance in king's moves *)
Definition cheb (p q : Point.t) : Z :=
  Z.abs (Point.x p - Point.x q) `max` Z.abs (Point.y p - Point.y q).

(** the bound on the brightness at distance [n] of a light of colour [c]:
    the colour, the colour attenuated once, the colour attenuated twice *)
Definition bound (c : F * F * F) (n : Z) : F * F * F :=
  if decide (n ≤ 0) then c
  else if decide (n = 1) then scale3 c Field.attenuationAdjacent
  else scale3 (scale3 c Field.attenuationAdjacent) Field.attenuationAdjacent.
End Order.

(** ** A light in a room whose only walls are the ring *)

Section Room.
Context `{Double F}.

Definition ringOnly (w h : Z) (f : Field.t F) : Prop :=
  ∀ x y, 0 ≤ x < w → 0 ≤ y < h →
         Field.isWall f (Point.mk x y) = Some (bool_decide (onRing w h x y)).

(** the orthogonal unit steps *)
Definition orthogonal_steps : list Point.t :=
  [Point.mk 0 (-1); Point.mk (-1) 0; Point.mk 1 0; Point.mk 0 1].

(** the read side [rd] of [f] after [k] sub-steps from the seed of a light
    of colour [c] stamped at the cell [light]: every cell is within the
    bound of its distance to the light; the cell of the light holds the
    colour; from the first sub-step on the open cells one orthogonal step
    away hold the colour attenuated once and the wall cells are black; from
    the second sub-step on the open cells two orthogonal steps away hold
    the colour attenuated twice *)
Definition spread (ok : F → Prop) (light : Point.t) (c : F * F * F) (f : Field.t F)
    (k : nat) (rd : Grid2D.t (ColorF.t F)) : Prop :=
  (∀ q v, Grid2D.at_ rd q = Some v →
          ok3 ok (Spec.rgb v) ∧ le3 (Spec.rgb v) (bound c (cheb q light)))
  ∧ (∃ v, Grid2D.at_ rd light = Some v ∧ Spec.rgb v = c)
  ∧ ((1 ≤ k)%nat → ∀ e, e ∈ orthogonal_steps →
       Field.isWall f (Point.add light e) = Some false →
       ∃ v, Grid2D.at_ rd (Point.add light e) = Some v
            ∧ Spec.rgb v = scale3 c Field.attenuationAdjacent)
  ∧ ((2 ≤ k)%nat → ∀ e, e ∈ orthogonal_steps →
       Field.isWall f (Point.add (Point.add light e) e) = Some false →
       ∃ v, Grid2D.at_ rd (Point.add (Point.add light e) e) = Some v
            ∧ Spec.rgb v = scale3 (scale3 c Field.attenuationAdjacent)
                                  Field.attenuationAdjacent)
  ∧ ((1 ≤ k)%nat → ∀ q, Field.isWall f q = Some true → Grid2D.at_ rd q = Some Black).

(** a well-formed [w] by [h] field with ring walls only, [k] sub-steps
    after the seed of a light at the open cell [light] *)
Definition lit_room (ok : F → Prop) (w h : Z) (light : Point.t) (c : F * F * F)
    (k : nat) (f : Field.t F) : Prop :=
  Field_wf w h f ∧ ringOnly w h f
  ∧ Field.isWall f light = Some false
  ∧ ∃ rd, DoubleBuffer.read (Field.m_brightness f) = Some rd ∧ spread ok light c f k rd.
End Room.

(** ** A running field *)

Section Running.
Context `{Double F}.

(** the invariant of the frames: well-formed [w] by [h] grids, a solid
    ring, cells of [u] pixels, and one colour and one velocity per light *)
Definition Field_inv (w h u : Z) (f : Field.t F) : Prop :=
  Field_wf w h f ∧ ringSolid w h f
  ∧ Field.gridUnitPixel f = Some u ∧ u ≠ 0
  ∧ length (Field.m_lightColor f) = length (Field.m_lightPos f)
  ∧ length (Field.m_velocity f) = length (Field.m_lightPos f).

(** the right button is held with the pointer on a cell of the ring *)
Definition erasesRing (w h u : Z) (inp : Input F) : Prop :=
  MouseR_pressed inp = true
  ∧ 0 ≤ Point.x (Mouse_Pos inp) `quot` u < w
  ∧ 0 ≤ Point.y (Mouse_Pos inp) `quot` u < h
  ∧ onRing w h (Point.x (Mouse_Pos inp) `quot` u) (Point.y (Mouse_Pos inp) `quot` u).

(** the pixel [p] is in the rectangle [r] *)
Definition inRect (r : Rect.t) (p : Point.t) : Prop :=
  Rect.x r ≤ Point.x p < Rect.x r + Rect.w r ∧ Rect.y r ≤ Point.y p < Rect.y r + Rect.h r.

(** every cell of [grid] has channels in [ok] that do not exceed [top] *)
Definition below (ok : F → Prop) (top : F * F * F) (grid : Grid2D.t (ColorF.t F)) : Prop :=
  ∀ q v, Grid2D.at_ grid q = Some v → ok3 ok (Spec.rgb v) ∧ le3 (Spec.rgb v) top.

(** what [draw] issues for the cell [(x, y)] whose read-side brightness is
    [color] *)
Definition cellDrawing (f : Field.t F) (u x y : Z) (color : ColorF.t F) : Field.Drawing F :=
  let rect := Rect.mk (u * x) (u * y) u u in
  if bool_decide (Field.isWall f (Point.mk x y) = Some true)
  then Field.RectDraw rect Black
  else Field.TextureDraw rect (Point.mk (u * x) (u * y)) color.
(** [S] is a set of cells that light cannot enter: from an open cell of
    [S], every neighbour in the grid that the diffusion does not skip is in
    [S] *)
Definition enclosed (w h : Z) (f : Field.t F) (S : Point.t → Prop) : Prop :=
  ∀ p o, S p → Field.isWall f p = Some false → o ∈ Spec.offsets →
         Spec.skipped f (Point.x p) (Point.y p) o = false →
         0 ≤ Point.x p + Point.x o < w → 0 ≤ Point.y p + Point.y o < h →
         S (Point.add p o).

(** the colour channels of every cell of [S] are those of black *)
Definition dark (S : Point.t → Prop) (grid : Grid2D.t (ColorF.t F)) : Prop :=
  ∀ p v, S p → Grid2D.at_ grid p = Some v → Spec.rgb v = Spec.rgb Black.

(** the collision table of the neighbours of [gridA]: the outcome of the
    test of line 241 for the neighbour of index [j] *)
Definition hits (siv : Siv3D F) (f : Field.t F) (moveSegment : Line.t F) (gridA : Point.t)
    (j : nat) : bool :=
  match Field.neighbors !! j with
  | Some o => default false (Field.collides siv f moveSegment (Point.add gridA o))
  | None => false
  end.
End Running.

(** ** The reflections of one light in one frame *)

Module Reflection.
Section Rule.
Context `{Double F}.

(** the scaling for the neighbour at offset [o]: the axes along which the
    neighbour is displaced are inverted and damped, the other axis is
    multiplied by 1 *)
Definition scaleOf (restitution : F) (o : Point.t) : Vec2.t F :=
  Vec2.mk (if decide (Point.x o = 0) then of_int 1 else (- restitution)%D)
          (if decide (Point.y o = 0) then of_int 1 else (- restitution)%D).

Definition scaleBy (v s : Vec2.t F) : Vec2.t F :=
  Vec2.mk (Vec2.x v * Vec2.x s)%D (Vec2.y v * Vec2.y s)%D.

(** the velocity after the reflections at the neighbours [js], in order *)
Definition reflectAll (v : Vec2.t F) (js : list nat) : Vec2.t F :=
  foldl (λ v j, match Field.neighbors !! j with
                | Some o => scaleBy v (scaleOf Field.restitution o)
                | None => v
                end) v js.

(** the indices of the cardinal and of the diagonal neighbours *)
Definition cardinals : list nat := [0; 1; 2; 3]%nat.
Definition diagonals : list nat := [4; 5; 6; 7]%nat.

(** the neighbours whose reflection the code applies, given which
    neighbours collide: every colliding cardinal one, and, when no cardinal
    one collides, the first colliding diagonal one *)
Definition applied (hit : nat → bool) : list nat :=
  List.filter hit cardinals
  ++ (if existsb hit cardinals then [] else take 1 (List.filter hit diagonals)).

(** the same in the words of the specification: every colliding neighbour,
    the diagonal ones only when no cardinal one collides *)
Definition applied_as_stated (hit : nat → bool) : list nat :=
  List.filter hit cardinals
  ++ (if existsb hit cardinals then [] else List.filter hit diagonals).

(** the loop of lines 232-248 over a known collision table *)
Fixpoint loop (hit : nat → bool) (js : list nat) (reflects : bool) (v : Vec2.t F)
    : Vec2.t F :=
  match js with
  | [] => v
  | j :: js' =>
    if reflects && bool_decide (4 ≤ j)%nat then v
    else if hit j then loop hit js' true (reflectAll v [j])
    else loop hit js' reflects v
  end.
End Rule.
End Reflection.

(** * Properties *)

(** ** The option monad *)

Lemma bind_Some_inv {A B : Type} (m : option A) (k : A → option B) (y : B) :
  m ≫= k = Some y → ∃ x, m = Some x ∧ k x = Some y.
Proof. destruct m as [x|]; simpl; [eauto | discriminate]. Qed.

(** [option_inv H] splits a successful computation [H] into its steps. *)
Ltac option_inv H :=
  repeat match type of H with
  | _ ≫= _ = Some _ =>
      let x := fresh "x" in let E := fresh "E" in
      apply bind_Some_inv in H as (x & E & H)
  end.

(** ** Vectors *)

Section Vectors.
Context {T : Type}.
Implicit Types (v : list T) (i j : Z) (x : T).

Lemma vec_at_Some v i x :
  vec_at v i = Some x ↔ 0 ≤ i ∧ v !! Z.to_nat i = Some x.
Proof. unfold vec_at. case_decide; naive_solver. Qed.

Lemma vec_at_is_Some v i :
  is_Some (vec_at v i) ↔ 0 ≤ i < Z.of_nat (length v).
Proof.
  unfold vec_at. case_decide.
  - rewrite lookup_lt_is_Some. lia.
  - split; [intros [? [=]] | lia].
Qed.

Lemma vec_put_Some v i x v' :
  vec_put v i x = Some v' ↔ 0 ≤ i < Z.of_nat (length v) ∧ v' = <[Z.to_nat i := x]> v.
Proof. unfold vec_put. case_decide; naive_solver. Qed.

Lemma vec_put_is_Some v i x :
  is_Some (vec_put v i x) ↔ 0 ≤ i < Z.of_nat (length v).
Proof.
  unfold vec_put. case_decide; [by eauto |].
  split; [intros [? [=]] | done].
Qed.

Lemma vec_put_length v i x v' : vec_put v i x = Some v' → length v' = length v.
Proof. intros [_ ->]%vec_put_Some. apply length_insert. Qed.

Lemma vec_at_put_eq v i x v' : vec_put v i x = Some v' → vec_at v' i = Some x.
Proof.
  intros [Hi ->]%vec_put_Some. apply vec_at_Some. split; [lia |].
  apply list_lookup_insert_eq. lia.
Qed.

Lemma vec_at_put_ne v i j x v' : vec_put v i x = Some v' → i ≠ j → vec_at v' j = vec_at v j.
Proof.
  intros [Hi ->]%vec_put_Some Hne. unfold vec_at. case_decide; [| done].
  apply list_lookup_insert_ne. lia.
Qed.
End Vectors.

(** ** Grids *)

Section Grids.
Implicit Types (p q : Point.t).

Lemma shape_length {U} (grid : list (list U)) : length (shape grid) = length grid.
Proof. apply length_fmap. Qed.

Lemma shape_height {U V} (g1 : list (list U)) (g2 : list (list V)) :
  shape g1 = shape g2 → Grid2D.height g1 = Grid2D.height g2.
Proof.
  intros E. unfold Grid2D.height. by rewrite <- (shape_length g1), E, shape_length.
Qed.

Lemma shape_width {U V} (g1 : list (list U)) (g2 : list (list V)) :
  shape g1 = shape g2 → Grid2D.width g1 = Grid2D.width g2.
Proof. destruct g1, g2; simpl; intros [=]; congruence. Qed.

Lemma at_Some {T} (grid : list (list T)) p (x : T) :
  Grid2D.at_ grid p = Some x ↔
  ∃ line, 0 ≤ Point.y p ∧ grid !! Z.to_nat (Point.y p) = Some line
          ∧ 0 ≤ Point.x p ∧ line !! Z.to_nat (Point.x p) = Some x.
Proof.
  unfold Grid2D.at_. split.
  - intros (line & [? ?]%vec_at_Some & [? ?]%vec_at_Some)%bind_Some_inv. eauto 10.
  - intros (line & ? & E1 & ? & E2).
    assert (vec_at grid (Point.y p) = Some line) as -> by (apply vec_at_Some; eauto).
    simpl. apply vec_at_Some; eauto.
Qed.

Lemma at_is_Some_shape {T U} (grid : list (list T)) (g2 : list (list U)) p :
  shape grid = shape g2 → is_Some (Grid2D.at_ grid p) → is_Some (Grid2D.at_ g2 p).
Proof.
  intros E [x (line & Hy & E1 & Hx & E2)%at_Some].
  assert (shape grid !! Z.to_nat (Point.y p) = Some (length line)) as E3
    by (unfold shape; rewrite list_lookup_fmap, E1; done).
  rewrite E in E3. unfold shape in E3. rewrite list_lookup_fmap in E3.
  destruct (g2 !! Z.to_nat (Point.y p)) as [line2|] eqn:E4; [| done].
  simpl in E3. injection E3 as E3.
  assert (is_Some (line2 !! Z.to_nat (Point.x p))) as [x2 E5].
  { apply lookup_lt_is_Some. rewrite E3. eapply lookup_lt_Some, E2. }
  exists x2. apply at_Some. eauto 10.
Qed.

Lemma isValid_is_Some {T} (grid : list (list T)) p :
  Grid2D.isValid grid p = true ↔ is_Some (Grid2D.at_ grid p).
Proof.
  unfold Grid2D.isValid, Grid2D.at_. split.
  - intros H. repeat (apply andb_prop in H as [H ?]).
    destruct (vec_at grid (Point.y p)) as [line|]; [| done]. simpl.
    apply vec_at_is_Some.
    repeat match goal with H : bool_decide _ = true |- _ => apply bool_decide_eq_true in H end.
    lia.
  - intros [x (line & E1 & E2)%bind_Some_inv]. rewrite E1.
    assert (is_Some (vec_at grid (Point.y p))) as ?%vec_at_is_Some by eauto.
    assert (is_Some (vec_at line (Point.x p))) as ?%vec_at_is_Some by eauto.
    repeat (apply andb_true_intro; split); apply bool_decide_eq_true; lia.
Qed.

Lemma isValid_shape {T U} (grid : list (list T)) (g2 : list (list U)) p :
  shape grid = shape g2 → Grid2D.isValid grid p = Grid2D.isValid g2 p.
Proof.
  intros E. apply eq_true_iff_eq. rewrite !isValid_is_Some.
  split; apply at_is_Some_shape; done.
Qed.

Lemma put_Some {T} (grid : list (list T)) p (x : T) grid' :
  Grid2D.put grid p x = Some grid' →
  shape grid' = shape grid
  ∧ Grid2D.at_ grid' p = Some x
  ∧ ∀ q, q ≠ p → Grid2D.at_ grid' q = Grid2D.at_ grid q.
Proof.
  unfold Grid2D.put. intros H. option_inv H. rename x0 into line, x1 into line'.
  pose proof E as [Hy Ey]%vec_at_Some.
  pose proof H as [Hy' ->]%vec_put_Some.
  split; [| split].
  - unfold shape. rewrite list_fmap_insert.
    apply list_insert_id. rewrite list_lookup_fmap, Ey. simpl.
    by rewrite (vec_put_length _ _ _ _ E0).
  - unfold Grid2D.at_. rewrite (vec_at_put_eq _ _ _ _ H). simpl.
    by apply vec_at_put_eq in E0.
  - intros [qx qy] Hne. unfold Grid2D.at_. simpl.
    destruct (decide (qy = Point.y p)) as [-> | Hy2].
    + rewrite (vec_at_put_eq _ _ _ _ H), E. simpl.
      eapply vec_at_put_ne; [done |]. destruct p; simpl in *; congruence.
    + by rewrite (vec_at_put_ne _ _ _ _ _ H).
Qed.

Lemma put_is_Some {T} (grid : list (list T)) p (x : T) :
  is_Some (Grid2D.put grid p x) ↔ is_Some (Grid2D.at_ grid p).
Proof.
  unfold Grid2D.put, Grid2D.at_. destruct (vec_at grid (Point.y p)) as [line|] eqn:E; simpl.
  - rewrite vec_at_is_Some. split.
    + intros [g' H]. option_inv H. apply vec_put_Some in E0. lia.
    + intros Hx. destruct (vec_put_is_Some line (Point.x p) x) as [_ [line' ->]]; [done |].
      simpl. apply vec_put_is_Some. apply vec_at_is_Some. eauto.
  - split; intros [? [=]].
Qed.

Lemma rect_at {T} w h (grid : list (list T)) p :
  Grid2D.rect w h grid →
  is_Some (Grid2D.at_ grid p) ↔ 0 ≤ Point.x p < w ∧ 0 ≤ Point.y p < h.
Proof.
  intros [<- Hrows]. split.
  - intros [x (line & Hy & E1 & Hx & E2)%at_Some].
    rewrite Forall_forall in Hrows.
    specialize (Hrows line (list_elem_of_lookup_2 _ _ _ E1)).
    apply lookup_lt_Some in E1, E2. lia.
  - intros [Hx Hy].
    destruct (lookup_lt_is_Some_2 grid (Z.to_nat (Point.y p))) as [line E1]; [lia |].
    rewrite Forall_forall in Hrows.
    specialize (Hrows line (list_elem_of_lookup_2 _ _ _ E1)).
    destruct (lookup_lt_is_Some_2 line (Z.to_nat (Point.x p))) as [x E2]; [lia |].
    exists x. apply at_Some. exists line. repeat split; (lia || done).
Qed.

Lemma rect_height {T} w h (grid : list (list T)) : Grid2D.rect w h grid → Grid2D.height grid = h.
Proof. by intros [? _]. Qed.

Lemma rect_width {T} w h (grid : list (list T)) : Grid2D.rect w h grid → 0 < h → Grid2D.width grid = w.
Proof.
  intros [Hh Hrows] Hpos. destruct grid as [| front grid]; [simpl in Hh; lia |].
  simpl. by inversion Hrows.
Qed.

Lemma rect_of_shape {T U} w h (grid : list (list T)) (g2 : list (list U)) :
  shape grid = shape g2 → Grid2D.rect w h grid → Grid2D.rect w h g2.
Proof.
  intros E [Hh Hrows]. split.
  - by rewrite <- (shape_length g2), <- E, shape_length.
  - apply Forall_forall. intros line Hin.
    assert (length line ∈ shape g2) as Hin2 by (apply list_elem_of_fmap; eauto).
    rewrite <- E in Hin2. apply list_elem_of_fmap in Hin2 as (line1 & -> & Hin1).
    rewrite Forall_forall in Hrows. by apply Hrows.
Qed.

Lemma make_rect {T} (w h : Z) (x : T) : 0 ≤ w → 0 ≤ h → Grid2D.rect w h (Grid2D.make w h x).
Proof.
  intros Hw Hh. unfold Grid2D.make. split.
  - rewrite length_replicate. lia.
  - apply Forall_forall. intros line ->%elem_of_replicate_inv.
    rewrite length_replicate. lia.
Qed.

Lemma make_at {T} (w h : Z) (x : T) p :
  0 ≤ Point.x p < w → 0 ≤ Point.y p < h → Grid2D.at_ (Grid2D.make w h x) p = Some x.
Proof.
  intros Hx Hy. apply at_Some. exists (replicate (Z.to_nat w) x).
  repeat split; try lia; apply lookup_replicate_2; lia.
Qed.

Lemma reset_shape {T} (grid : list (list T)) (x : T) : shape (Grid2D.reset grid x) = shape grid.
Proof.
  unfold shape, Grid2D.reset. rewrite <- list_fmap_compose.
  apply list_fmap_ext. intros _ line _. simpl. apply length_fmap.
Qed.

Lemma reset_at {T} (grid : list (list T)) (x : T) p :
  is_Some (Grid2D.at_ grid p) → Grid2D.at_ (Grid2D.reset grid x) p = Some x.
Proof.
  intros [x0 (line & Hy & E1 & Hx & E2)%at_Some]. apply at_Some.
  exists ((λ _, x) <$> line). unfold Grid2D.reset.
  repeat split; [done | | done |].
  - by rewrite list_lookup_fmap, E1.
  - by rewrite list_lookup_fmap, E2.
Qed.
End Grids.

(** ** Loops over the cells of a grid whose body changes one cell *)

Section GridLoop.
Context {T : Type}.
Variable body : Z → Z → list (list T) → option (list (list T)).
Variable Post : Z → Z → T → T → Prop.
Variable sh : list nat.
Hypothesis body_local : ∀ x y grid grid', shape grid = sh → body x y grid = Some grid' →
  shape grid' = shape grid
  ∧ (∀ q, q ≠ Point.mk x y → Grid2D.at_ grid' q = Grid2D.at_ grid q)
  ∧ ∃ old new, Grid2D.at_ grid (Point.mk x y) = Some old
               ∧ Grid2D.at_ grid' (Point.mk x y) = Some new ∧ Post x y old new.

Lemma row_loop y xs grid grid' :
  NoDup xs → shape grid = sh →
  forM (λ x grid, body x y grid) xs grid = Some grid' →
  shape grid' = shape grid
  ∧ (∀ q, ¬ (Point.y q = y ∧ Point.x q ∈ xs) → Grid2D.at_ grid' q = Grid2D.at_ grid q)
  ∧ (∀ x, x ∈ xs → ∃ old new, Grid2D.at_ grid (Point.mk x y) = Some old
                               ∧ Grid2D.at_ grid' (Point.mk x y) = Some new ∧ Post x y old new).
Proof.
  intros Hnd. revert grid. induction Hnd as [| x xs Hx Hnd IH]; intros grid Hsh H; simpl in H.
  - injection H as <-. split; [done |]. split; [done |]. intros x []%elem_of_nil.
  - option_inv H. rename x0 into g1.
    destruct (body_local _ _ _ _ Hsh E) as (Hs1 & Hother1 & old & new & Eold & Enew & HP).
    destruct (IH g1) as (Hs2 & Hother2 & Hin2); [congruence | done |].
    split; [congruence |]. split.
    + intros q Hq. rewrite Hother2, Hother1; [done | |].
      * intros ->. apply Hq. simpl. rewrite elem_of_cons. auto.
      * intros [? ?]. apply Hq. rewrite elem_of_cons. auto.
    + intros x' [-> | Hin]%elem_of_cons.
      * exists old, new. split; [done |]. split; [| done].
        rewrite Hother2; [done |]. simpl. intros [_ ?]. done.
      * destruct (Hin2 _ Hin) as (old' & new' & Eold' & Enew' & HP').
        exists old', new'. split; [| done].
        rewrite <- Hother1; [done |]. intros [= ->]. done.
Qed.

(** the columns visited in a row depend on the shape of the grid only *)
Variable xs : list (list T) → list Z.
Hypothesis xs_shape : ∀ g1 g2 : list (list T), shape g1 = shape g2 → xs g1 = xs g2.
Hypothesis xs_NoDup : ∀ grid, NoDup (xs grid).

Lemma grid_loop ys grid grid' :
  NoDup ys → shape grid = sh →
  forM (λ y grid, forM (λ x grid, body x y grid) (xs grid) grid) ys grid = Some grid' →
  shape grid' = shape grid
  ∧ (∀ q, ¬ (Point.y q ∈ ys ∧ Point.x q ∈ xs grid) → Grid2D.at_ grid' q = Grid2D.at_ grid q)
  ∧ (∀ x y, x ∈ xs grid → y ∈ ys →
       ∃ old new, Grid2D.at_ grid (Point.mk x y) = Some old
                  ∧ Grid2D.at_ grid' (Point.mk x y) = Some new ∧ Post x y old new).
Proof.
  intros Hnd. revert grid. induction Hnd as [| y ys Hy Hnd IH]; intros grid Hsh H; simpl in H.
  - injection H as <-. split; [done |]. split; [done |]. intros x y _ []%elem_of_nil.
  - option_inv H. rename x into g1.
    destruct (row_loop _ _ _ _ (xs_NoDup grid) Hsh E) as (Hs1 & Hother1 & Hin1).
    destruct (IH g1) as (Hs2 & Hother2 & Hin2); [congruence | done |].
    rewrite (xs_shape _ _ Hs1) in Hother2, Hin2.
    split; [congruence |]. split.
    + intros q Hq. rewrite Hother2, Hother1; [done | |].
      * intros [? ?]. apply Hq. rewrite elem_of_cons. auto.
      * intros [? ?]. apply Hq. rewrite elem_of_cons. auto.
    + intros x y' Hx' [-> | Hin]%elem_of_cons.
      * destruct (Hin1 _ Hx') as (old & new & Eold & Enew & HP).
        exists old, new. split; [done |]. split; [| done].
        rewrite Hother2; [done |]. simpl. intros [? _]. done.
      * destruct (Hin2 _ _ Hx' Hin) as (old & new & Eold & Enew & HP).
        exists old, new. split; [| done].
        rewrite <- Hother1; [done |]. simpl. intros [-> _]. done.
Qed.

(** the loops succeed when the body does on every grid of that shape *)
Lemma row_loop_total y xs0 grid :
  shape grid = sh →
  (∀ x g1, x ∈ xs0 → shape g1 = sh → is_Some (body x y g1)) →
  is_Some (forM (λ x grid, body x y grid) xs0 grid).
Proof.
  revert grid. induction xs0 as [| x xs0 IH]; intros grid Hsh Hb; simpl; [by eauto |].
  destruct (Hb x grid) as [g1 E]; [by left | done |]. rewrite E. simpl.
  destruct (body_local _ _ _ _ Hsh E) as (Hs1 & _).
  apply IH; [congruence |]. intros x' g2 Hin Hs. apply Hb; [by right | done].
Qed.

Lemma grid_loop_total ys grid :
  shape grid = sh →
  (∀ x y g1, x ∈ xs grid → y ∈ ys → shape g1 = sh → is_Some (body x y g1)) →
  is_Some (forM (λ y grid, forM (λ x grid, body x y grid) (xs grid) grid) ys grid).
Proof.
  revert grid. induction ys as [| y ys IH]; intros grid Hsh Hb; simpl; [by eauto |].
  destruct (row_loop_total y (xs grid) grid Hsh) as [g1 E].
  { intros x g1 Hin Hs. apply Hb; [done | by left | done]. }
  rewrite E. simpl.
  destruct (row_loop _ _ _ _ (xs_NoDup grid) Hsh E) as (Hs1 & _).
  apply IH; [congruence |]. intros x y' g2 Hin Hin' Hs.
  rewrite (xs_shape _ _ Hs1) in Hin. apply Hb; [done | by right | done].
Qed.
End GridLoop.

(** ** The double buffer *)

Section DoubleBufferFacts.
Context {T : Type}.
Implicit Types (d : DoubleBuffer.t T) (x : T).

Lemma wf_cases d :
  DoubleBuffer.wf d →
  DoubleBuffer.writeIndex d = 0 ∧ DoubleBuffer.readIndex d = 1
  ∨ DoubleBuffer.writeIndex d = 1 ∧ DoubleBuffer.readIndex d = 0.
Proof.
  unfold DoubleBuffer.wf, DoubleBuffer.writeIndex, DoubleBuffer.readIndex, DoubleBuffer.size.
  intros [-> | ->]; [left | right]; done.
Qed.

Lemma write_is_Some d : is_Some (DoubleBuffer.write d) ↔ DoubleBuffer.wf d.
Proof.
  unfold DoubleBuffer.write, DoubleBuffer.wf, DoubleBuffer.writeIndex, array2_at.
  repeat case_decide; split; intros Hd; eauto; try lia. by destruct Hd.
Qed.

Lemma read_is_Some d : DoubleBuffer.wf d → is_Some (DoubleBuffer.read d).
Proof.
  intros [[_ E] | [_ E]]%wf_cases; unfold DoubleBuffer.read; rewrite E; by eauto.
Qed.

Lemma flip_wf d : DoubleBuffer.wf d → DoubleBuffer.wf (DoubleBuffer.flip d).
Proof. unfold DoubleBuffer.wf, DoubleBuffer.flip. simpl. intros [-> | ->]; [right | left]; done. Qed.

Lemma flip_flip d : DoubleBuffer.wf d → DoubleBuffer.flip (DoubleBuffer.flip d) = d.
Proof.
  destruct d as [arr cur]. unfold DoubleBuffer.wf, DoubleBuffer.flip. simpl.
  intros [-> | ->]; done.
Qed.

Lemma read_flip d : DoubleBuffer.wf d → DoubleBuffer.read (DoubleBuffer.flip d) = DoubleBuffer.write d.
Proof.
  destruct d as [arr cur]. unfold DoubleBuffer.wf, DoubleBuffer.read, DoubleBuffer.write. simpl.
  intros [-> | ->]; done.
Qed.

Lemma write_flip d : DoubleBuffer.wf d → DoubleBuffer.write (DoubleBuffer.flip d) = DoubleBuffer.read d.
Proof.
  destruct d as [arr cur]. unfold DoubleBuffer.wf, DoubleBuffer.read, DoubleBuffer.write. simpl.
  intros [-> | ->]; done.
Qed.

Lemma write_put_Some d x d' :
  DoubleBuffer.write_put d x = Some d' →
  DoubleBuffer.wf d ∧ DoubleBuffer.wf d'
  ∧ DoubleBuffer.m_currentWriteBuffer d' = DoubleBuffer.m_currentWriteBuffer d
  ∧ DoubleBuffer.write d' = Some x ∧ DoubleBuffer.read d' = DoubleBuffer.read d.
Proof.
  destruct d as [[b0 b1] cur]. intros H.
  assert (cur = 0 ∨ cur = 1) as Hcur.
  { unfold DoubleBuffer.write_put, DoubleBuffer.writeIndex, array2_put in H. simpl in H.
    repeat case_decide; auto. discriminate. }
  destruct Hcur as [-> | ->]; injection H as <-; unfold DoubleBuffer.wf; simpl; auto 10.
Qed.

Lemma write_put_is_Some d x : DoubleBuffer.wf d → is_Some (DoubleBuffer.write_put d x).
Proof.
  unfold DoubleBuffer.write_put, DoubleBuffer.wf, DoubleBuffer.writeIndex, array2_put.
  intros [-> | ->]; simpl; eauto.
Qed.
End DoubleBufferFacts.

(** C9. In every state of a [DoubleBuffer] (the write index is 0 or 1, as it
    is after construction and after every [flip] and every assignment through
    [write()]): [read()] and [write()] denote the two different elements of
    [m_buffer]; after construction from [initial] both elements are
    [initial]; [flip] leaves [m_buffer] untouched and exchanges the two
    indices, so that [read()] after the flip is what [write()] was before it;
    two flips restore the state; and an assignment through [write()] is
    not seen by [read()] before the next flip. *)
Theorem DoubleBuffer_contract {T : Type} (d : DoubleBuffer.t T) (initial x : T) :
  DoubleBuffer.wf d →
  (DoubleBuffer.readIndex d ≠ DoubleBuffer.writeIndex d
   ∧ 0 ≤ DoubleBuffer.readIndex d < 2 ∧ 0 ≤ DoubleBuffer.writeIndex d < 2)
  ∧ (DoubleBuffer.m_buffer (DoubleBuffer.make initial) = (initial, initial)
     ∧ DoubleBuffer.read (DoubleBuffer.make initial) = Some initial
     ∧ DoubleBuffer.write (DoubleBuffer.make initial) = Some initial
     ∧ DoubleBuffer.wf (DoubleBuffer.make initial))
  ∧ (DoubleBuffer.m_buffer (DoubleBuffer.flip d) = DoubleBuffer.m_buffer d
     ∧ DoubleBuffer.readIndex (DoubleBuffer.flip d) = DoubleBuffer.writeIndex d
     ∧ DoubleBuffer.writeIndex (DoubleBuffer.flip d) = DoubleBuffer.readIndex d
     ∧ DoubleBuffer.read (DoubleBuffer.flip d) = DoubleBuffer.write d
     ∧ DoubleBuffer.write (DoubleBuffer.flip d) = DoubleBuffer.read d
     ∧ DoubleBuffer.wf (DoubleBuffer.flip d))
  ∧ DoubleBuffer.flip (DoubleBuffer.flip d) = d
  ∧ (∃ d', DoubleBuffer.write_put d x = Some d'
           ∧ DoubleBuffer.wf d'
           ∧ DoubleBuffer.write d' = Some x
           ∧ DoubleBuffer.read d' = DoubleBuffer.read d
           ∧ DoubleBuffer.read (DoubleBuffer.flip d') = Some x).
Proof.
  intros Hwf. split; [| split; [| split; [| split]]].
  - destruct (wf_cases d Hwf) as [[-> ->] | [-> ->]]; lia.
  - repeat split. by left.
  - split; [done |]. split; [| split; [| split; [| split]]].
    + destruct d as [arr cur]. destruct Hwf as [E | E]; simpl in E; subst; done.
    + done.
    + by apply read_flip.
    + by apply write_flip.
    + by apply flip_wf.
  - by apply flip_flip.
  - destruct (write_put_is_Some d x Hwf) as [d' E]. exists d'.
    destruct (write_put_Some _ _ _ E) as (_ & Hwf' & _ & Ew & Er).
    repeat split; try done. by rewrite read_flip.
Qed.

Lemma DoubleBuffer_contract_witness :
  DoubleBuffer.wf (DoubleBuffer.mk (3%nat, 5%nat) 1)
  ∧ DoubleBuffer.read (DoubleBuffer.flip (DoubleBuffer.mk (3%nat, 5%nat) 1)) = Some 5%nat.
Proof.
  assert (DoubleBuffer.wf (DoubleBuffer.mk (3%nat, 5%nat) 1)) as Hwf by (by right).
  split; [exact Hwf |].
  destruct (DoubleBuffer_contract (DoubleBuffer.mk (3%nat, 5%nat) 1) 0%nat 7%nat Hwf)
    as (_ & _ & (_ & _ & _ & -> & _) & _).
  reflexivity.
Defined.

(** ** The diffusion pass *)

Section Diffusion.
Context `{Double F}.
Implicit Types (f : Field.t F) (rd wr : list (list (ColorF.t F))).

Lemma diffuseCell_local f rd x y wr wr' :
  Field.diffuseCell f rd x y wr = Some wr' →
  shape wr' = shape wr
  ∧ (∀ q, q ≠ Point.mk x y → Grid2D.at_ wr' q = Grid2D.at_ wr q)
  ∧ ∃ old new, Grid2D.at_ wr (Point.mk x y) = Some old
               ∧ Grid2D.at_ wr' (Point.mk x y) = Some new ∧ diffused f rd x y old new.
Proof.
  unfold Field.diffuseCell. intros Hc. option_inv Hc. destruct x0.
  - destruct (put_Some _ _ _ _ Hc) as (Hs & Eat & Hother).
    split; [done |]. split; [done |].
    destruct (proj1 (put_is_Some wr (Point.mk x y) Black)) as [old Eold]; [by eauto |].
    exists old, Black. split; [done |]. split; [done |]. by left.
  - option_inv Hc. destruct (put_Some _ _ _ _ Hc) as (Hs & Eat & Hother).
    split; [done |]. split; [done |].
    eexists _, _. split; [done |]. split; [done |]. right. split; [done |].
    eexists _, _. split; [done |]. split; done.
Qed.

Lemma diffusePass_Some f rd wr wr' :
  Field.diffusePass f rd wr = Some wr' →
  shape wr' = shape wr
  ∧ ∀ x y, inGrid rd x y →
      ∃ old new, Grid2D.at_ wr (Point.mk x y) = Some old
                 ∧ Grid2D.at_ wr' (Point.mk x y) = Some new ∧ diffused f rd x y old new.
Proof.
  intros Hp.
  destruct (grid_loop (Field.diffuseCell f rd) (diffused f rd) (shape wr)
              (λ x y g g' _, diffuseCell_local f rd x y g g')
              (λ _, seqZ 0 (Grid2D.width rd)) (λ _ _ _, eq_refl) (λ _, NoDup_seqZ _ _)
              _ _ _ (NoDup_seqZ _ _) eq_refl Hp) as (Hs & _ & Hin).
  split; [done |]. intros x y [Hx Hy]. apply Hin; apply elem_of_seqZ; lia.
Qed.

Lemma stepLightDiffusion_Some f f' :
  Field.stepLightDiffusion f = Some f' →
  ∃ rd wr wr',
    DoubleBuffer.read (Field.m_brightness f) = Some rd
    ∧ DoubleBuffer.write (Field.m_brightness f) = Some wr
    ∧ Field.diffusePass f rd wr = Some wr'
    ∧ DoubleBuffer.read (Field.m_brightness f') = Some wr'
    ∧ DoubleBuffer.write (Field.m_brightness f') = Some rd
    ∧ DoubleBuffer.wf (Field.m_brightness f')
    ∧ f' = Field.with_brightness f (Field.m_brightness f').
Proof.
  unfold Field.stepLightDiffusion. intros Hs. option_inv Hs. injection Hs as <-.
  destruct (write_put_Some _ _ _ E2) as (Hwf & Hwf' & _ & Ew & Er).
  eexists _, _, _. split; [done |]. split; [done |]. split; [done |]. simpl.
  rewrite read_flip, write_flip by done. rewrite Ew, Er.
  split; [done |]. split; [done |]. split; [by apply flip_wf | done].
Qed.
End Diffusion.

(** ** The rule of one cell against the specification *)

Lemma forM_seq_foldl {St A B : Type} (body : nat → St → option St) (R : St → B)
    (g : B → A → B) (l : list A) (n : nat) (s s' : St) :
  (∀ i a s s', l !! i = Some a → body (n + i)%nat s = Some s' → R s' = g (R s) a) →
  forM body (seq n (length l)) s = Some s' → R s' = foldl g (R s) l.
Proof.
  revert n s. induction l as [| a l IH]; intros n s Hb Hf; simpl in Hf.
  - by injection Hf as <-.
  - option_inv Hf. simpl.
    rewrite <- (Hb 0%nat a s x); [| done | by rewrite Nat.add_0_r].
    apply (IH (S n)); [| done].
    intros i a' s1 s2 Hi Hs. apply (Hb (S i)); [done |].
    by rewrite Nat.add_succ_r.
Qed.

Lemma foldl_omap {A B C : Type} (g : B → C → B) (k : A → option C) (l : list A) (acc : B) :
  foldl g acc (omap k l)
  = foldl (λ acc a, match k a with Some c => g acc c | None => acc end) acc l.
Proof.
  revert acc. induction l as [| a l IH]; intros acc; simpl; [done |].
  destruct (k a); simpl; apply IH.
Qed.

Section DiffusionRule.
Context `{Double F}.
Implicit Types (f : Field.t F) (rd wr : list (list (ColorF.t F))).

Lemma cornerBlocked_skipped f x y i o b :
  Field.diffusion_neighbors !! i = Some o →
  Field.cornerBlocked f x y i o = Some b → b = Spec.skipped f x y o.
Proof.
  intros Hi Hb. unfold Field.cornerBlocked in Hb. unfold Spec.skipped, Spec.wall.
  destruct i as [|[|[|[|[|[|[|[|i]]]]]]]]; simpl in Hi; [.. | done];
    injection Hi as <-; simpl in *;
    repeat match type of Hb with
    | (if bool_decide ?P then _ else _) = _ =>
        first [ rewrite (bool_decide_eq_true_2 P) in Hb by lia
              | rewrite (bool_decide_eq_false_2 P) in Hb by lia ]
    end;
    try (by injection Hb as <-);
    option_inv Hb; rewrite E; destruct x0; simpl.
  all: try (by injection Hb as <-).
  all: rewrite Hb; by destruct b.
Qed.

Lemma neighbourStep_contribution f rd x y i o acc acc' :
  Spec.offsets !! i = Some o →
  Field.neighbourStep f rd x y i acc = Some acc' →
  Spec.rgb acc' = match Spec.contribution Field.attenuationAdjacent f rd x y o with
                  | Some c => Spec.max3 (Spec.rgb acc) c
                  | None => Spec.rgb acc
                  end.
Proof.
  intros Hi Hs. unfold Field.neighbourStep in Hs. option_inv Hs. rename x0 into side, x1 into blocked.
  assert (side = o ∧ Field.attenuations !! i = Some (Spec.attenuation Field.attenuationAdjacent o))
    as [-> Eatt].
  { destruct i as [|[|[|[|[|[|[|[|i]]]]]]]]; simpl in E; [.. | done];
      injection Hi as <-; injection E as <-; done. }
  apply (cornerBlocked_skipped _ _ _ _ _ _ E) in E0 as ->.
  unfold Spec.contribution. destruct (Spec.skipped f x y o); [by injection Hs as <- |].
  option_inv Hs. rewrite Eatt in E0. injection E0 as <-.
  destruct (Grid2D.isValid rd _) eqn:Ev.
  - option_inv Hs. injection Hs as <-. rewrite E0. done.
  - injection Hs as <-.
    destruct (Grid2D.at_ rd _) eqn:Eat; [| done].
    assert (Grid2D.isValid rd (Point.add (Point.mk x y) o) = true) by (apply isValid_is_Some; eauto).
    congruence.
Qed.

Lemma neighbourMax_spec f rd x y maxBrightness :
  Field.neighbourMax f rd x y = Some maxBrightness →
  Spec.rgb maxBrightness = Spec.neighbourMax Field.attenuationAdjacent f rd x y.
Proof.
  unfold Field.neighbourMax, Spec.neighbourMax. intros Hm. rewrite foldl_omap.
  change (length Field.diffusion_neighbors) with (length Spec.offsets) in Hm.
  apply (forM_seq_foldl _ Spec.rgb
           (λ acc o, match Spec.contribution Field.attenuationAdjacent f rd x y o with
                     | Some c => Spec.max3 acc c
                     | None => acc
                     end) Spec.offsets 0 _ _) in Hm; [done |].
  intros i o s s' Hi Hs. by apply (neighbourStep_contribution f rd x y i).
Qed.
End DiffusionRule.

(** ** One sub-step of the diffusion *)

Section DiffusionStep.
Context `{Double F}.
Implicit Types (f : Field.t F) (rd wr : list (list (ColorF.t F))).

Lemma Max_chan_le (u v : F) : chan_le u (Max u v).
Proof. unfold chan_le, Max. destruct (u <? v)%D eqn:E; auto. Qed.

(** what a sub-step leaves at a visited cell *)
Lemma stepLightDiffusion_cell f f' rd x y :
  Field.stepLightDiffusion f = Some f' →
  DoubleBuffer.read (Field.m_brightness f) = Some rd →
  inGrid rd x y →
  ∃ wr rd' old new,
    DoubleBuffer.write (Field.m_brightness f) = Some wr
    ∧ Field.diffusePass f rd wr = Some rd'
    ∧ DoubleBuffer.read (Field.m_brightness f') = Some rd'
    ∧ Grid2D.at_ wr (Point.mk x y) = Some old
    ∧ Grid2D.at_ rd' (Point.mk x y) = Some new
    ∧ diffused f rd x y old new.
Proof.
  intros (rd0 & wr & wr' & Er & Ew & Ep & Er' & _)%stepLightDiffusion_Some Erd Hin.
  assert (rd0 = rd) as -> by congruence.
  destruct (diffusePass_Some _ _ _ _ Ep) as (_ & Hcells).
  destruct (Hcells x y Hin) as (old & new & Eold & Enew & Hd).
  by exists wr, wr', old, new.
Qed.

Lemma stepLightDiffusion_isWall f f' :
  Field.stepLightDiffusion f = Some f' → Field.m_isWall f' = Field.m_isWall f.
Proof. intros (? & ? & ? & _ & _ & _ & _ & _ & _ & ->)%stepLightDiffusion_Some. done. Qed.

Lemma chain_isWall (n : nat) f0 f :
  repeatM Field.stepLightDiffusion n f0 = Some f → Field.m_isWall f = Field.m_isWall f0.
Proof.
  revert f0. induction n as [| n IH]; intros f0 Hn; simpl in Hn.
  - by injection Hn as <-.
  - option_inv Hn. rewrite (IH _ Hn). by apply stepLightDiffusion_isWall.
Qed.

(** C1. In a diffusion sub-step, at every cell [(x, y)] of the grid that
    is not a wall, the colour channels the loops store in the write side,
    which the flip makes the read side, are the channel-wise maximum of the
    cell's own read-side channels and, over the 8 neighbour offsets, of the
    neighbour's read-side channels times the attenuation of the offset
    (0.9 for an orthogonal offset, [pow(0.9, Sqrt(2))] for a diagonal one);
    a neighbour outside the grid contributes nothing and a diagonal
    neighbour is left out exactly when its two orthogonal companions are
    walls. The alpha member of the write-side cell is left as it was. *)
Theorem diffusion_rule f f' rd x y :
  Field.stepLightDiffusion f = Some f' →
  DoubleBuffer.read (Field.m_brightness f) = Some rd →
  inGrid rd x y →
  Field.isWall f (Point.mk x y) = Some false →
  ∃ wr rd' own old new,
    DoubleBuffer.write (Field.m_brightness f) = Some wr
    ∧ Field.diffusePass f rd wr = Some rd'
    ∧ DoubleBuffer.read (Field.m_brightness f') = Some rd'
    ∧ Grid2D.at_ rd (Point.mk x y) = Some own
    ∧ Grid2D.at_ wr (Point.mk x y) = Some old
    ∧ Grid2D.at_ rd' (Point.mk x y) = Some new
    ∧ Spec.rgb new = Spec.newBrightness Field.attenuationAdjacent f rd x y own
    ∧ ColorF.a new = ColorF.a old.
Proof.
  intros Hs Er Hin Hw.
  destruct (stepLightDiffusion_cell _ _ _ _ _ Hs Er Hin)
    as (wr & rd' & old & new & Ew & Ep & Er' & Eold & Enew & [[Hw' _] | (_ & Hd)]);
    [congruence |].
  destruct Hd as (maxB & own & Em & Eown & ->).
  exists wr, rd', own, old. eexists. repeat (split; [done |]).
  split; [| done].
  unfold Spec.newBrightness. rewrite <- (neighbourMax_spec _ _ _ _ _ Em). done.
Qed.

(** C4. At the end of a diffusion sub-step every wall cell of the grid is
    [Palette::Black] in the read-side buffer, whatever the buffers held
    before the sub-step; the sub-step does not change the walls. *)
Theorem wall_cells_dark f f' rd x y :
  Field.stepLightDiffusion f = Some f' →
  DoubleBuffer.read (Field.m_brightness f) = Some rd →
  inGrid rd x y →
  Field.isWall f (Point.mk x y) = Some true →
  ∃ rd', DoubleBuffer.read (Field.m_brightness f') = Some rd'
         ∧ Grid2D.at_ rd' (Point.mk x y) = Some Black
         ∧ Field.isWall f' (Point.mk x y) = Some true.
Proof.
  intros Hs Er Hin Hw.
  destruct (stepLightDiffusion_cell _ _ _ _ _ Hs Er Hin)
    as (wr & rd' & old & new & Ew & Ep & Er' & Eold & Enew & [[_ ->] | (Hw' & _)]);
    [| congruence].
  exists rd'. split; [done |]. split; [done |].
  unfold Field.isWall. rewrite (stepLightDiffusion_isWall _ _ Hs). exact Hw.
Qed.

(** C6, as amended. Along a chain of diffusion sub-steps that starts from
    any buffer (the seeded one in particular), at every cell of the grid
    that is not a wall, no colour channel decreases from the read side
    before a sub-step to the read side after it. *)
Theorem open_cells_monotone (n : nat) f0 f f' rd x y :
  repeatM Field.stepLightDiffusion n f0 = Some f →
  Field.stepLightDiffusion f = Some f' →
  DoubleBuffer.read (Field.m_brightness f) = Some rd →
  inGrid rd x y →
  Field.isWall f0 (Point.mk x y) = Some false →
  ∃ rd' own new,
    DoubleBuffer.read (Field.m_brightness f') = Some rd'
    ∧ Grid2D.at_ rd (Point.mk x y) = Some own
    ∧ Grid2D.at_ rd' (Point.mk x y) = Some new
    ∧ chan_le (ColorF.r own) (ColorF.r new)
    ∧ chan_le (ColorF.g own) (ColorF.g new)
    ∧ chan_le (ColorF.b own) (ColorF.b new).
Proof.
  intros Hn Hs Er Hin Hw.
  unfold Field.isWall in Hw. rewrite <- (chain_isWall _ _ _ Hn) in Hw.
  destruct (stepLightDiffusion_cell _ _ _ _ _ Hs Er Hin)
    as (wr & rd' & old & new & Ew & Ep & Er' & Eold & Enew & [[Hw' _] | (_ & Hd)]);
    [unfold Field.isWall in Hw'; congruence |].
  destruct Hd as (maxB & own & Em & Eown & ->).
  exists rd', own. eexists. repeat (split; [done |]).
  simpl. repeat split; apply Max_chan_le.
Qed.
End DiffusionStep.

Lemma diffusion_rule_witness :
  Field.stepLightDiffusion Milli.seeded = Some (Milli.step Milli.seeded)
  ∧ DoubleBuffer.read (Field.m_brightness Milli.seeded) = Some (Milli.read_side Milli.seeded)
  ∧ inGrid (Milli.read_side Milli.seeded) 1 2
  ∧ Field.isWall Milli.seeded (Point.mk 1 2) = Some false
  ∧ ∃ new, Grid2D.at_ (Milli.read_side (Milli.step Milli.seeded)) (Point.mk 1 2) = Some new
           ∧ Spec.rgb new = (900, 630, 270)
           ∧ Spec.newBrightness Field.attenuationAdjacent Milli.seeded
               (Milli.read_side Milli.seeded) 1 2 Black = (900, 630, 270).
Proof.
  assert (Field.stepLightDiffusion Milli.seeded = Some (Milli.step Milli.seeded)) as Hs
    by (vm_compute; reflexivity).
  assert (DoubleBuffer.read (Field.m_brightness Milli.seeded)
          = Some (Milli.read_side Milli.seeded)) as Hr by (vm_compute; reflexivity).
  assert (inGrid (Milli.read_side Milli.seeded) 1 2) as Hin by (repeat split; by vm_compute).
  assert (Field.isWall Milli.seeded (Point.mk 1 2) = Some false) as Hw by (vm_compute; reflexivity).
  repeat (split; [assumption |]).
  destruct (diffusion_rule Milli.seeded _ _ 1 2 Hs Hr Hin Hw)
    as (wr & rd' & own & old & new & Ew & Ep & Er' & Eown & Eold & Enew & Hrgb & Ha).
  exists new.
  assert (rd' = Milli.read_side (Milli.step Milli.seeded)) as -> by (unfold Milli.read_side; by rewrite Er').
  split; [exact Enew |].
  vm_compute in Eown. injection Eown as <-.
  rewrite Hrgb. split; vm_compute; reflexivity.
Defined.

Lemma wall_cells_dark_witness :
  Field.stepLightDiffusion Milli.seeded_in_wall = Some (Milli.step Milli.seeded_in_wall)
  ∧ Grid2D.at_ (Milli.read_side Milli.seeded_in_wall) (Point.mk 2 2) = Some Milli.amber
  ∧ Field.isWall Milli.seeded_in_wall (Point.mk 2 2) = Some true
  ∧ Grid2D.at_ (Milli.read_side (Milli.step Milli.seeded_in_wall)) (Point.mk 2 2) = Some Black.
Proof.
  assert (Field.stepLightDiffusion Milli.seeded_in_wall = Some (Milli.step Milli.seeded_in_wall))
    as Hs by (vm_compute; reflexivity).
  assert (DoubleBuffer.read (Field.m_brightness Milli.seeded_in_wall)
          = Some (Milli.read_side Milli.seeded_in_wall)) as Hr by (vm_compute; reflexivity).
  assert (inGrid (Milli.read_side Milli.seeded_in_wall) 2 2) as Hin
    by (repeat split; by vm_compute).
  assert (Field.isWall Milli.seeded_in_wall (Point.mk 2 2) = Some true) as Hw
    by (vm_compute; reflexivity).
  split; [exact Hs |]. split; [vm_compute; reflexivity |]. split; [exact Hw |].
  destruct (wall_cells_dark Milli.seeded_in_wall _ _ 2 2 Hs Hr Hin Hw) as (rd' & Er' & Eat & _).
  unfold Milli.read_side at 1. rewrite Er'. exact Eat.
Defined.

Lemma open_cells_monotone_witness :
  repeatM Field.stepLightDiffusion 1 Milli.seeded = Some (Milli.step Milli.seeded)
  ∧ Field.stepLightDiffusion (Milli.step Milli.seeded) = Some (Milli.step (Milli.step Milli.seeded))
  ∧ Field.isWall Milli.seeded (Point.mk 1 1) = Some false
  ∧ ∃ own new,
      Grid2D.at_ (Milli.read_side (Milli.step Milli.seeded)) (Point.mk 1 1) = Some own
      ∧ Grid2D.at_ (Milli.read_side (Milli.step (Milli.step Milli.seeded))) (Point.mk 1 1) = Some new
      ∧ chan_le (ColorF.r own) (ColorF.r new).
Proof.
  assert (repeatM Field.stepLightDiffusion 1 Milli.seeded = Some (Milli.step Milli.seeded)) as Hn
    by (vm_compute; reflexivity).
  assert (Field.stepLightDiffusion (Milli.step Milli.seeded)
          = Some (Milli.step (Milli.step Milli.seeded))) as Hs by (vm_compute; reflexivity).
  assert (DoubleBuffer.read (Field.m_brightness (Milli.step Milli.seeded))
          = Some (Milli.read_side (Milli.step Milli.seeded))) as Hr by (vm_compute; reflexivity).
  assert (inGrid (Milli.read_side (Milli.step Milli.seeded)) 1 1) as Hin
    by (repeat split; by vm_compute).
  assert (Field.isWall Milli.seeded (Point.mk 1 1) = Some false) as Hw by (vm_compute; reflexivity).
  repeat (split; [assumption |]).
  destruct (open_cells_monotone 1 Milli.seeded _ _ _ 1 1 Hn Hs Hr Hin Hw)
    as (rd' & own & new & Er' & Eown & Enew & Hle & _).
  exists own, new. split; [exact Eown |]. split; [| exact Hle].
  unfold Milli.read_side at 1. rewrite Er'. exact Enew.
Defined.

(** Counterexample to C6 as stated, for a wall cell: in a frame that makes
    the cell of a light a wall, the seeded read side holds the colour of the
    light at that cell and the first sub-step replaces it by black. *)
Lemma wall_cell_decreases :
  ¬ (∀ (f f0 f1 : Field.t Z) (inp : Input Z) (rd0 rd1 : Grid2D.t (ColorF.t Z))
       (x y : Z) (own new : ColorF.t Z),
       Field.seedFrame Milli.siv3d f inp = Some f0 →
       Field.stepLightDiffusion f0 = Some f1 →
       DoubleBuffer.read (Field.m_brightness f0) = Some rd0 →
       DoubleBuffer.read (Field.m_brightness f1) = Some rd1 →
       Grid2D.at_ rd0 (Point.mk x y) = Some own →
       Grid2D.at_ rd1 (Point.mk x y) = Some new →
       chan_le (ColorF.r own) (ColorF.r new)).
Proof.
  intros Hclaim.
  specialize (Hclaim (Milli.with_light (Milli.built 5 5) 2 2 Milli.amber)
                Milli.seeded_in_wall (Milli.step Milli.seeded_in_wall)
                (Milli.pointer_at 2 2 true false)
                (Milli.read_side Milli.seeded_in_wall)
                (Milli.read_side (Milli.step Milli.seeded_in_wall))
                2 2 Milli.amber Black).
  destruct Hclaim as [Heq | Hlt]; try (vm_compute; reflexivity).
  - vm_compute in Heq. discriminate.
  - vm_compute in Hlt. discriminate.
Qed.

(** ** Bounds of the unchecked reads *)

Lemma forM_total {A St : Type} (body : A → St → option St) (l : list A) (s : St) :
  (∀ a s, a ∈ l → is_Some (body a s)) → is_Some (forM body l s).
Proof.
  revert s. induction l as [| a l IH]; intros s Hb; simpl; [by eauto |].
  destruct (Hb a s) as [s' ->]; [by left |]. simpl.
  apply IH. intros a' s1 Hin. apply Hb. by right.
Qed.

Section BufferPair.
Context {T : Type} (P : T → Prop).
Implicit Types (d : DoubleBuffer.t T).

Lemma both_read d x : both P d → DoubleBuffer.read d = Some x → P x.
Proof.
  intros [H1 H2]. unfold DoubleBuffer.read, array2_at.
  repeat case_decide; intros [= <-]; done.
Qed.

Lemma both_write d x : both P d → DoubleBuffer.write d = Some x → P x.
Proof.
  intros [H1 H2]. unfold DoubleBuffer.write, array2_at.
  repeat case_decide; intros [= <-]; done.
Qed.

Lemma both_write_put d x d' : both P d → P x → DoubleBuffer.write_put d x = Some d' → both P d'.
Proof.
  intros [H1 H2] Hx. unfold DoubleBuffer.write_put, array2_put.
  repeat case_decide; simpl; intros [= <-]; done.
Qed.

Lemma both_flip d : both P d → both P (DoubleBuffer.flip d).
Proof. done. Qed.
End BufferPair.

Section Bounds.
Context `{Double F}.
Implicit Types (f : Field.t F) (rd wr : list (list (ColorF.t F))).

Lemma Field_wf_buffers w h f :
  Field_wf w h f →
  ∃ rd wr, DoubleBuffer.read (Field.m_brightness f) = Some rd
           ∧ DoubleBuffer.write (Field.m_brightness f) = Some wr
           ∧ Grid2D.rect w h rd ∧ Grid2D.rect w h wr.
Proof.
  intros (_ & Hwf & H1 & H2).
  destruct (read_is_Some _ Hwf) as [rd Er].
  destruct (proj2 (write_is_Some _) Hwf) as [wr Ew].
  exists rd, wr. split; [done |]. split; [done |]. split.
  - by apply (both_read (Grid2D.rect w h) _ _ (conj H1 H2)).
  - by apply (both_write (Grid2D.rect w h) _ _ (conj H1 H2)).
Qed.

Lemma isWall_is_Some w h f p :
  Grid2D.rect w h (Field.m_isWall f) →
  is_Some (Field.isWall f p) ↔ 0 ≤ Point.x p < w ∧ 0 ≤ Point.y p < h.
Proof.
  intros Hr. rewrite <- (rect_at _ _ _ _ Hr). unfold Field.isWall.
  destruct (Grid2D.at_ (Field.m_isWall f) p); simpl; split; intros [? ?]; by eauto.
Qed.

Lemma inGrid_rect {T} w h (grid : list (list T)) x y :
  Grid2D.rect w h grid → inGrid grid x y ↔ 0 ≤ x < w ∧ 0 ≤ y < h.
Proof.
  intros Hr. unfold inGrid. rewrite (rect_height _ _ _ Hr).
  destruct (decide (0 < h)) as [Hh | Hh]; [rewrite (rect_width _ _ _ Hr Hh) |]; lia.
Qed.

(** an open cell of a field whose ring is solid is an interior cell *)
Lemma open_cell_interior w h f x y :
  ringSolid w h f → 0 ≤ x < w → 0 ≤ y < h →
  Field.isWall f (Point.mk x y) = Some false →
  1 ≤ x ≤ w - 2 ∧ 1 ≤ y ≤ h - 2.
Proof.
  intros Hring Hx Hy Hopen.
  destruct (decide (onRing w h x y)) as [Hon | Hoff].
  - rewrite (Hring x y Hx Hy Hon) in Hopen. discriminate.
  - unfold onRing in Hoff. lia.
Qed.

Lemma diffusion_neighbors_range i side :
  Field.diffusion_neighbors !! i = Some side →
  -1 ≤ Point.x side ≤ 1 ∧ -1 ≤ Point.y side ≤ 1 ∧ is_Some (Field.attenuations (F:=F) !! i).
Proof.
  destruct i as [|[|[|[|[|[|[|[|i]]]]]]]]; simpl; [.. | done];
    intros [= <-]; simpl; (split; [lia |]); (split; [lia |]); by eauto.
Qed.

Lemma cornerBlocked_reads w h f x y i side :
  Grid2D.rect w h (Field.m_isWall f) →
  ringSolid w h f → 0 ≤ x < w → 0 ≤ y < h →
  Field.isWall f (Point.mk x y) = Some false →
  Field.diffusion_neighbors !! i = Some side →
  Grid2D.isValid (Field.m_isWall f) (Point.mk (x + Point.x side) y) = true
  ∧ Grid2D.isValid (Field.m_isWall f) (Point.mk x (y + Point.y side)) = true
  ∧ is_Some (Field.cornerBlocked f x y i side).
Proof.
  intros Hr Hring Hx Hy Hopen Hi.
  destruct (open_cell_interior _ _ _ _ _ Hring Hx Hy Hopen) as [Hx' Hy'].
  destruct (diffusion_neighbors_range _ _ Hi) as (Hsx & Hsy & _).
  assert (is_Some (Field.isWall f (Point.mk (x + Point.x side) y))) as [w1 E1]
    by (apply (isWall_is_Some w h); simpl; [done | lia]).
  assert (is_Some (Field.isWall f (Point.mk x (y + Point.y side)))) as [w2 E2]
    by (apply (isWall_is_Some w h); simpl; [done | lia]).
  split; [| split].
  - apply isValid_is_Some, (rect_at w h); simpl; [done | lia].
  - apply isValid_is_Some, (rect_at w h); simpl; [done | lia].
  - unfold Field.cornerBlocked. case_bool_decide; [| by eauto].
    rewrite E1. simpl. destruct w1; by eauto.
Qed.

Lemma neighbourMax_total w h f rd x y :
  Grid2D.rect w h (Field.m_isWall f) →
  ringSolid w h f → 0 ≤ x < w → 0 ≤ y < h →
  Field.isWall f (Point.mk x y) = Some false →
  is_Some (Field.neighbourMax f rd x y).
Proof.
  intros Hr Hring Hx Hy Hopen. apply forM_total. intros i acc Hin.
  apply elem_of_seq in Hin as [_ Hin]. simpl in Hin.
  destruct (lookup_lt_is_Some_2 Field.diffusion_neighbors i Hin) as [side Ei].
  unfold Field.neighbourStep. rewrite Ei. simpl.
  destruct (cornerBlocked_reads _ _ _ _ _ _ _ Hr Hring Hx Hy Hopen Ei) as (_ & _ & [b ->]).
  simpl. destruct b; [by eauto |].
  destruct (diffusion_neighbors_range _ _ Ei) as (_ & _ & [att ->]). simpl.
  destruct (Grid2D.isValid rd _) eqn:Ev; [| by eauto].
  apply isValid_is_Some in Ev as [c ->]. simpl. by eauto.
Qed.

Lemma diffuseCell_total w h f rd wr x y :
  Grid2D.rect w h (Field.m_isWall f) → ringSolid w h f →
  Grid2D.rect w h rd → Grid2D.rect w h wr →
  0 ≤ x < w → 0 ≤ y < h →
  is_Some (Field.diffuseCell f rd x y wr).
Proof.
  intros Hr Hring Hrd Hwr Hx Hy. unfold Field.diffuseCell.
  destruct (proj2 (isWall_is_Some w h f (Point.mk x y) Hr)) as [w1 E1]; [done |].
  rewrite E1. simpl.
  assert (is_Some (Grid2D.at_ wr (Point.mk x y))) as Hold by (by apply (rect_at w h)).
  destruct w1.
  - by apply put_is_Some.
  - destruct (neighbourMax_total _ _ _ rd _ _ Hr Hring Hx Hy E1) as [maxB ->]. simpl.
    destruct (proj2 (rect_at w h rd (Point.mk x y) Hrd)) as [own ->]; [done |]. simpl.
    destruct Hold as [old Eold]. rewrite Eold. simpl.
    apply put_is_Some. by eauto.
Qed.

Lemma diffusePass_total w h f rd wr :
  Grid2D.rect w h (Field.m_isWall f) → ringSolid w h f →
  Grid2D.rect w h rd → Grid2D.rect w h wr →
  is_Some (Field.diffusePass f rd wr).
Proof.
  intros Hr Hring Hrd Hwr.
  apply (grid_loop_total (Field.diffuseCell f rd) (diffused f rd) (shape wr)
           (λ x y g g' _, diffuseCell_local f rd x y g g')
           (λ _, seqZ 0 (Grid2D.width rd)) (λ _ _ _, eq_refl) (λ _, NoDup_seqZ _ _)
           _ _ eq_refl).
  intros x y wr1 Hx%elem_of_seqZ Hy%elem_of_seqZ Hs.
  assert (inGrid rd x y) as [Hx' Hy']%(inGrid_rect w h) by (split; lia); [| done].
  apply (diffuseCell_total w h); try done.
  apply (rect_of_shape w h wr wr1); done.
Qed.

(** a sub-step is defined on a well-formed field whose ring is solid, and
    keeps it so *)
Lemma stepLightDiffusion_total w h f :
  Field_wf w h f → ringSolid w h f →
  ∃ f', Field.stepLightDiffusion f = Some f' ∧ Field_wf w h f' ∧ ringSolid w h f'.
Proof.
  intros Hwf Hring.
  destruct (Field_wf_buffers _ _ _ Hwf) as (rd & wr & Er & Ew & Hrd & Hwr).
  destruct Hwf as (Hr & Hd & H1 & H2).
  destruct (diffusePass_total w h f rd wr Hr Hring Hrd Hwr) as [wr' Ep].
  destruct (write_put_is_Some (Field.m_brightness f) wr' Hd) as [br Eb].
  exists (Field.with_brightness f (DoubleBuffer.flip br)).
  unfold Field.stepLightDiffusion. rewrite Er, Ew. simpl. rewrite Ep. simpl. rewrite Eb.
  split; [done |]. split; [| done].
  destruct (write_put_Some _ _ _ Eb) as (_ & Hd' & _).
  destruct (diffusePass_Some _ _ _ _ Ep) as (Hs & _).
  assert (both (Grid2D.rect w h) br) as [H1' H2'].
  { apply (both_write_put (Grid2D.rect w h) (Field.m_brightness f) wr' br (conj H1 H2));
      [| done].
    by apply (rect_of_shape w h wr wr'). }
  split; [done |]. split; [by apply flip_wf | done].
Qed.
End Bounds.

(** C10. In a diffusion sub-step on a field whose outer ring is solid, the
    two cells [(x + dx, y)] and [(x, y + dy)] that the corner check reads
    without a validity check are inside the wall grid, for every cell
    [(x, y)] that passes the wall test and every neighbour offset, because
    such a cell is an interior cell; so the check is defined. Nothing in the
    sub-step establishes this: on a field of one open cell the first read of
    the check is outside the grid and the sub-step is undefined. *)
Theorem corner_check_in_bounds :
  (∀ F (ops : Double F) (w h : Z) (f : Field.t F) (x y : Z) (i : nat) (side : Point.t),
      Grid2D.rect w h (Field.m_isWall f) → ringSolid w h f →
      0 ≤ x < w → 0 ≤ y < h →
      Field.isWall f (Point.mk x y) = Some false →
      Field.diffusion_neighbors !! i = Some side →
      (1 ≤ x ≤ w - 2 ∧ 1 ≤ y ≤ h - 2)
      ∧ Grid2D.isValid (Field.m_isWall f) (Point.mk (x + Point.x side) y) = true
      ∧ Grid2D.isValid (Field.m_isWall f) (Point.mk x (y + Point.y side)) = true
      ∧ is_Some (Field.cornerBlocked f x y i side))
  ∧ (Field_wf 1 1 Milli.bare
     ∧ Field.isWall Milli.bare (Point.mk 0 0) = Some false
     ∧ Grid2D.isValid (Field.m_isWall Milli.bare) (Point.mk (0 + -1) 0) = false
     ∧ Field.cornerBlocked Milli.bare 0 0 0 (Point.mk (-1) (-1)) = None
     ∧ Field.stepLightDiffusion Milli.bare = None).
Proof.
  split.
  - intros F ops w h f x y i side Hr Hring Hx Hy Hopen Hi.
    split; [by apply (open_cell_interior w h f) |].
    by apply (cornerBlocked_reads w h).
  - split; [| by vm_compute].
    split; [split; [reflexivity | repeat constructor] |]. split; [by left |].
    split; (split; [reflexivity | repeat constructor]).
Qed.

Lemma corner_check_in_bounds_witness :
  Grid2D.rect 3 3 (Field.m_isWall (Milli.built 3 3)) ∧ ringSolid 3 3 (Milli.built 3 3)
  ∧ Field.isWall (Milli.built 3 3) (Point.mk 1 1) = Some false
  ∧ is_Some (Field.cornerBlocked (Milli.built 3 3) 1 1 0 (Point.mk (-1) (-1))).
Proof.
  assert (Grid2D.rect 3 3 (Field.m_isWall (Milli.built 3 3))) as Hr
    by (split; [reflexivity | repeat constructor]).
  assert (ringSolid 3 3 (Milli.built 3 3)) as Hring.
  { intros x y Hx Hy Hon.
    assert (x = 0 ∨ x = 1 ∨ x = 2) as [-> | [-> | ->]] by lia;
      assert (y = 0 ∨ y = 1 ∨ y = 2) as [-> | [-> | ->]] by lia;
      try reflexivity.
    unfold onRing in Hon. lia. }
  split; [exact Hr |]. split; [exact Hring |]. split; [reflexivity |].
  apply (proj1 corner_check_in_bounds Z Milli.double 3 3 (Milli.built 3 3) 1 1 0%nat
           (Point.mk (-1) (-1)) Hr Hring); (lia || reflexivity).
Defined.

(** ** Construction *)

Lemma forM_invariant {A St : Type} (P : St → Prop) (body : A → St → option St)
    (l : list A) (s s' : St) :
  (∀ a s s', a ∈ l → body a s = Some s' → P s → P s') →
  forM body l s = Some s' → P s → P s'.
Proof.
  revert s. induction l as [| a l IH]; intros s Hb Hf Hs; simpl in Hf.
  - by injection Hf as <-.
  - option_inv Hf. apply (IH x); [| done |].
    + intros a' s1 s2 Hin. apply Hb. by right.
    + apply (Hb a s x); [by left | done | done].
Qed.

Lemma repeatM_invariant {St : Type} (P : St → Prop) (body : St → option St)
    (n : nat) (s s' : St) :
  (∀ s s', body s = Some s' → P s → P s') →
  repeatM body n s = Some s' → P s → P s'.
Proof.
  intros Hb. revert s. induction n as [| n IH]; intros s Hf Hs; simpl in Hf.
  - by injection Hf as <-.
  - option_inv Hf. apply (IH x); [done |]. by apply (Hb s).
Qed.

Section Construction.
Context `{Double F} (siv : Siv3D F).
Implicit Types (f : Field.t F) (walls : list (list Z)).

Lemma initCell_local walls0 x y walls walls' :
  shape walls = shape walls0 →
  Field.initCell (Grid2D.width walls) (Grid2D.height walls) x y walls = Some walls' →
  shape walls' = shape walls
  ∧ (∀ q, q ≠ Point.mk x y → Grid2D.at_ walls' q = Grid2D.at_ walls q)
  ∧ ∃ old new, Grid2D.at_ walls (Point.mk x y) = Some old
               ∧ Grid2D.at_ walls' (Point.mk x y) = Some new
               ∧ new = ringValue (Grid2D.width walls0) (Grid2D.height walls0) x y.
Proof.
  intros Hsh Hc. unfold Field.initCell in Hc. option_inv Hc. rename x0 into w1.
  destruct (put_Some _ _ _ _ E) as (Hs1 & Eat1 & Hother1).
  destruct (proj1 (put_is_Some walls (Point.mk x y) Field.FieldSpace)) as [old Eold];
    [by eauto |].
  unfold ringValue. rewrite <- (shape_width _ _ Hsh), <- (shape_height _ _ Hsh).
  case_bool_decide.
  - destruct (put_Some _ _ _ _ Hc) as (Hs2 & Eat2 & Hother2).
    split; [congruence |]. split.
    + intros q Hq. by rewrite Hother2, Hother1.
    + by exists old, Field.FieldWall.
  - injection Hc as <-. split; [done |]. split; [done |].
    by exists old, Field.FieldSpace.
Qed.

Lemma initWalls_Some walls walls' :
  Field.initWalls walls = Some walls' →
  shape walls' = shape walls
  ∧ ∀ x y, inGrid walls x y →
      Grid2D.at_ walls' (Point.mk x y)
      = Some (ringValue (Grid2D.width walls) (Grid2D.height walls) x y).
Proof.
  intros Hi.
  destruct (grid_loop
              (λ x y g, Field.initCell (Grid2D.width g) (Grid2D.height g) x y g)
              (λ x y _ new, new = ringValue (Grid2D.width walls) (Grid2D.height walls) x y)
              (shape walls) (initCell_local walls)
              (λ g, seqZ 0 (Grid2D.width g))
              (λ g1 g2 Hs, f_equal (seqZ 0) (shape_width g1 g2 Hs))
              (λ _, NoDup_seqZ _ _)
              _ _ _ (NoDup_seqZ _ _) eq_refl Hi) as (Hs & _ & Hin).
  split; [done |]. intros x y [Hx Hy].
  destruct (Hin x y) as (old & new & _ & Enew & ->); [apply elem_of_seqZ; lia .. | done].
Qed.

Lemma initWalls_total w h walls :
  Grid2D.rect w h walls → is_Some (Field.initWalls walls).
Proof.
  intros Hr.
  apply (grid_loop_total
           (λ x y g, Field.initCell (Grid2D.width g) (Grid2D.height g) x y g)
           (λ x y _ new, new = ringValue (Grid2D.width walls) (Grid2D.height walls) x y)
           (shape walls) (initCell_local walls)
           (λ g, seqZ 0 (Grid2D.width g))
           (λ g1 g2 Hs, f_equal (seqZ 0) (shape_width g1 g2 Hs))
           (λ _, NoDup_seqZ _ _) _ _ eq_refl).
  intros x y g1 Hx%elem_of_seqZ Hy%elem_of_seqZ Hs.
  assert (inGrid walls x y) as [Hx' Hy']%(inGrid_rect w h) by (split; lia); [| done].
  assert (Grid2D.rect w h g1) as Hr1 by (apply (rect_of_shape w h walls g1); done).
  unfold Field.initCell.
  destruct (proj2 (put_is_Some g1 (Point.mk x y) Field.FieldSpace)) as [g2 E2];
    [by apply (rect_at w h) |].
  rewrite E2. simpl. case_bool_decide; [| by eauto].
  apply put_is_Some, (rect_at w h); [| done].
  destruct (put_Some _ _ _ _ E2) as (Hs2 & _).
  apply (rect_of_shape w h g1 g2); done.
Qed.

Lemma init_Some f f' :
  Field.init siv f = Some f' →
  ∃ walls', Field.initWalls (Field.m_isWall f) = Some walls'
            ∧ Field.m_isWall f' = walls'
            ∧ Field.m_brightness f' = Field.m_brightness f
            ∧ Field.m_field f' = Field.m_field f.
Proof.
  unfold Field.init. intros Hi. option_inv Hi. injection Hi as <-. by exists x.
Qed.

Lemma init_total w h f :
  Grid2D.rect w h (Field.m_isWall f) → 0 < h → is_Some (Field.init siv f).
Proof.
  intros Hr Hh. unfold Field.init.
  destruct (initWalls_total w h _ Hr) as [walls' E]. rewrite E. cbn [mbind option_bind].
  destruct (initWalls_Some _ _ E) as (Hs & _).
  assert (is_Some (mapM (Field.spawnLight siv (Field.with_isWall f walls')) (seq 0 8)))
    as [lights ->]; [| cbn [mbind option_bind]; by eauto].
  apply mapM_is_Some, Forall_forall. intros i _. simpl.
  unfold Field.spawnLight, Field.gridUnitPixel. simpl.
  rewrite (shape_height _ _ Hs), (rect_height _ _ _ Hr).
  case_decide; [lia |]. simpl. by eauto.
Qed.

Lemma isWall_ringValue f w h x y :
  Grid2D.at_ (Field.m_isWall f) (Point.mk x y) = Some (ringValue w h x y) →
  Field.isWall f (Point.mk x y) = Some (bool_decide (onRing w h x y)).
Proof.
  intros E. unfold Field.isWall. rewrite E. simpl. f_equal.
  unfold ringValue, onRing.
  apply bool_decide_ext. case_bool_decide; split; try done; lia.
Qed.

(** what the constructor returns on a positive cell size *)
Lemma construct_cases (W H0 u : Z) :
  0 < u → 0 ≤ W → 0 ≤ H0 →
  let image := {| image_width := W; image_height := H0 |} in
  (¬ (W `mod` u = 0 ∧ H0 `mod` u = 0) →
     Field.construct siv image u = Field.AssertFailed Field.initFailure)
  ∧ (W `mod` u = 0 → H0 `mod` u = 0 → H0 = 0 → Field.construct siv image u = Field.Crashed)
  ∧ (W `mod` u = 0 → H0 `mod` u = 0 → 0 < H0 →
       ∃ f, Field.construct siv image u = Field.Constructed f
            ∧ Field_wf (W `div` u) (H0 `div` u) f
            ∧ Grid2D.width (Field.m_isWall f) = W `div` u
            ∧ Grid2D.height (Field.m_isWall f) = H0 `div` u
            ∧ ∀ x y, 0 ≤ x < W `div` u → 0 ≤ y < H0 `div` u →
                Field.isWall f (Point.mk x y)
                = Some (bool_decide (onRing (W `div` u) (H0 `div` u) x y))).
Proof.
  intros Hu HW HH image. unfold Field.construct.
  case_decide; [lia |]. unfold Field.checkInitialValidness. simpl.
  rewrite !Z.rem_mod_nonneg, !Z.quot_div_nonneg by lia.
  assert (0 ≤ W `div` u) as Hw by (apply Z.div_pos; lia).
  assert (0 ≤ H0 `div` u) as Hh by (apply Z.div_pos; lia).
  set (f0 := Field.mk image _ _ [] [] []).
  assert (Grid2D.rect (W `div` u) (H0 `div` u) (Field.m_isWall f0)) as Hr
    by (by apply make_rect).
  split; [| split].
  - intros Hnd. destruct (decide (W `mod` u = 0)) as [E1 | E1];
      destruct (decide (H0 `mod` u = 0)) as [E2 | E2]; try tauto.
    + rewrite (bool_decide_eq_true_2 _ E1), (bool_decide_eq_false_2 _ E2). done.
    + rewrite (bool_decide_eq_false_2 _ E1). done.
    + rewrite (bool_decide_eq_false_2 _ E1). done.
  - intros E1 E2 ->.
    rewrite (bool_decide_eq_true_2 _ E1), (bool_decide_eq_true_2 _ E2). simpl.
    destruct (Field.init siv f0) as [f |] eqn:Ei; [| done].
    unfold Field.init in Ei. option_inv Ei. simpl in E0.
    destruct (initWalls_Some _ _ E) as (Hs & _).
    unfold Field.spawnLight, Field.gridUnitPixel in E0. simpl in E0.
    rewrite (shape_height _ _ Hs) in E0. simpl in E0. discriminate.
  - intros E1 E2 Hpos.
    rewrite (bool_decide_eq_true_2 _ E1), (bool_decide_eq_true_2 _ E2). simpl.
    assert (0 < H0 `div` u) as Hh'.
    { apply Z.div_str_pos. split; [done |].
      destruct (decide (H0 < u)); [| lia]. rewrite Z.mod_small in E2; lia. }
    destruct (init_total _ _ f0 Hr Hh') as [f Ei]. rewrite Ei.
    destruct (init_Some _ _ Ei) as (walls' & Ew & Ew' & Eb & _).
    destruct (initWalls_Some _ _ Ew) as (Hs & Hcells).
    assert (Grid2D.rect (W `div` u) (H0 `div` u) (Field.m_isWall f)) as Hr'
      by (rewrite Ew'; apply (rect_of_shape _ _ (Field.m_isWall f0)); done).
    exists f. split; [done |]. split; [| split; [| split]].
    + split; [done |]. rewrite Eb. simpl.
      split; [by left |]. split; by apply make_rect.
    + by apply (rect_width _ (H0 `div` u)).
    + by apply (rect_height (W `div` u)).
    + intros x y Hx Hy. apply isWall_ringValue. rewrite Ew'.
      rewrite Hcells by (by apply (inGrid_rect _ _ _ _ _ Hr)).
      by rewrite (rect_width _ _ _ Hr Hh'), (rect_height _ _ _ Hr).
Qed.
End Construction.

(** ** The frame: what [update] changes outside the brightness *)

Section Frame.
Context `{Double F} (siv : Siv3D F).
Implicit Types (f : Field.t F) (inp : Input F).

Lemma same_ground_trans f1 f2 f3 : same_ground f1 f2 → same_ground f2 f3 → same_ground f1 f3.
Proof. intros [? ?] [? ?]. split; congruence. Qed.

Lemma resetBrightness_ground f f' : Field.resetBrightness f = Some f' → same_ground f f'.
Proof. unfold Field.resetBrightness. intros Hr. option_inv Hr. by injection Hr as <-. Qed.

Lemma lightStep_ground inp i f f' : Field.lightStep siv inp i f = Some f' → same_ground f f'.
Proof. unfold Field.lightStep. intros Hl. option_inv Hl. by injection Hl as <-. Qed.

Lemma lights_ground inp l f f' :
  forM (Field.lightStep siv inp) l f = Some f' → same_ground f f'.
Proof.
  intros Hl. apply (forM_invariant (same_ground f) _ _ _ _ (λ a s s' _ Hs Hg,
    same_ground_trans _ _ _ Hg (lightStep_ground _ _ _ _ Hs)) Hl). done.
Qed.

Lemma stepLightDiffusion_ground f f' : Field.stepLightDiffusion f = Some f' → same_ground f f'.
Proof. intros (? & ? & ? & _ & _ & _ & _ & _ & _ & ->)%stepLightDiffusion_Some. done. Qed.

Lemma chain_ground (n : nat) f f' :
  repeatM Field.stepLightDiffusion n f = Some f' → same_ground f f'.
Proof.
  intros Hn. apply (repeatM_invariant (same_ground f) _ _ _ _ (λ s s' Hs Hg,
    same_ground_trans _ _ _ Hg (stepLightDiffusion_ground _ _ Hs)) Hn). done.
Qed.

Lemma mouseGridPos_ground f f' p :
  same_ground f f' → Field.mouseGridPos f' p = Field.mouseGridPos f p.
Proof. intros [E1 E2]. unfold Field.mouseGridPos, Field.gridUnitPixel. by rewrite E1, E2. Qed.

(** the wall edit changes at most the cell under the pointer *)
Lemma editWalls_Some f inp f' :
  Field.editWalls f inp = Some f' →
  ∃ mousePos,
    Field.mouseGridPos f (Mouse_Pos inp) = Some mousePos
    ∧ Field.m_field f' = Field.m_field f
    ∧ shape (Field.m_isWall f') = shape (Field.m_isWall f)
    ∧ (∀ q, q ≠ mousePos → Field.isWall f' q = Field.isWall f q)
    ∧ (Grid2D.isValid (Field.m_isWall f) mousePos = true →
         Field.isWall f' mousePos
         = if MouseR_pressed inp then Some false
           else if MouseL_pressed inp then Some true
           else Field.isWall f mousePos)
    ∧ (Grid2D.isValid (Field.m_isWall f) mousePos = false → f' = f).
Proof.
  unfold Field.editWalls. intros He. option_inv He. rename x into mousePos.
  exists mousePos. split; [done |].
  destruct (Grid2D.isValid (Field.m_isWall f) mousePos) eqn:Ev.
  - option_inv He. injection He as <-. rename x into w1, x0 into w2. simpl.
    assert (shape w1 = shape (Field.m_isWall f)
            ∧ (∀ q, q ≠ mousePos → Grid2D.at_ w1 q = Grid2D.at_ (Field.m_isWall f) q)
            ∧ Grid2D.at_ w1 mousePos
              = if MouseL_pressed inp then Some Field.FieldWall
                else Grid2D.at_ (Field.m_isWall f) mousePos) as (Hs1 & Ho1 & Em1).
    { destruct (MouseL_pressed inp).
      - by destruct (put_Some _ _ _ _ E0) as (? & ? & ?).
      - by injection E0 as <-. }
    assert (shape w2 = shape w1
            ∧ (∀ q, q ≠ mousePos → Grid2D.at_ w2 q = Grid2D.at_ w1 q)
            ∧ Grid2D.at_ w2 mousePos
              = if MouseR_pressed inp then Some Field.FieldSpace
                else Grid2D.at_ w1 mousePos) as (Hs2 & Ho2 & Em2).
    { destruct (MouseR_pressed inp).
      - by destruct (put_Some _ _ _ _ E1) as (? & ? & ?).
      - by injection E1 as <-. }
    split; [done |]. split; [congruence |]. split; [| split; [| done]].
    + intros q Hq. unfold Field.isWall. simpl. by rewrite Ho2, Ho1.
    + intros _. unfold Field.isWall. simpl. rewrite Em2.
      destruct (MouseR_pressed inp); [done |]. rewrite Em1.
      destruct (MouseL_pressed inp); done.
  - injection He as <-. repeat (split; [done |]). done.
Qed.

(** [update] changes the walls as its wall edit does *)
Lemma update_walls f inp f' :
  Field.update siv f inp = Some f' →
  ∃ f1 f2, Field.resetBrightness f = Some f1
           ∧ Field.editWalls f1 inp = Some f2
           ∧ same_ground f f1 ∧ Field.m_isWall f' = Field.m_isWall f2.
Proof.
  unfold Field.update. intros Hu. option_inv Hu. rename x into f4, E into Hseed.
  unfold Field.seedFrame in Hseed. option_inv Hseed. injection Hseed as <-.
  rename x into f1, x0 into f2, x1 into f3.
  exists f1, f2. split; [done |]. split; [done |].
  split; [by apply resetBrightness_ground |].
  destruct (lights_ground _ _ _ _ E1) as [<- _].
  by destruct (chain_ground _ _ _ Hu) as [-> _].
Qed.
End Frame.

(** For every grid size, the wall grid the constructor leaves has its outer
    ring solid and its interior open. *)
Lemma walls_after_construction `{Double F} (siv : Siv3D F) (W H0 u : Z) (f : Field.t F)
    (x y : Z) :
  0 < u → 0 ≤ W → 0 ≤ H0 →
  Field.construct siv {| image_width := W; image_height := H0 |} u = Field.Constructed f →
  inGrid (Field.m_isWall f) x y →
  Field.isWall f (Point.mk x y)
  = Some (bool_decide (onRing (Grid2D.width (Field.m_isWall f))
                              (Grid2D.height (Field.m_isWall f)) x y)).
Proof.
  intros Hu HW HH Hc Hin.
  destruct (construct_cases siv W H0 u Hu HW HH) as (Ha & Hb & Hok).
  destruct (decide (W `mod` u = 0 ∧ H0 `mod` u = 0)) as [[E1 E2] | Hnd];
    [| rewrite (Ha Hnd) in Hc; discriminate].
  destruct (decide (H0 = 0)) as [E0 | Hne]; [rewrite (Hb E1 E2 E0) in Hc; discriminate |].
  destruct (Hok E1 E2) as (f1 & Hc1 & Hwf & Ew & Eh & Hcells); [lia |].
  assert (f1 = f) as -> by congruence.
  rewrite Ew, Eh. apply Hcells; destruct Hin; lia.
Qed.

(** C3, the code at the failing input. The constructor builds the 10 by 10
    field with its ring solid. In a frame with the pointer on the ring cell
    [(0, 0)] and the right button held, the wall edit, whose only guard is
    [isValid], opens that ring cell; the first diffusion sub-step of that
    frame then reads the wall grid outside its bounds, so that the frame is
    undefined. *)
Theorem ring_cell_opened :
  Field.construct Milli.siv3d {| image_width := 320; image_height := 320 |} 32
  = Field.Constructed (Milli.built 10 10)
  ∧ Field.isWall (Milli.built 10 10) (Point.mk 0 0) = Some true
  ∧ Field.seedFrame Milli.siv3d (Milli.built 10 10) (Milli.pointer_at 0 0 false true)
    = Some Milli.ring_edit
  ∧ Field.isWall Milli.ring_edit (Point.mk 0 0) = Some false
  ∧ Field.cornerBlocked Milli.ring_edit 0 0 0 (Point.mk (-1) (-1)) = None
  ∧ Field.stepLightDiffusion Milli.ring_edit = None
  ∧ Field.update Milli.siv3d (Milli.built 10 10) (Milli.pointer_at 0 0 false true) = None.
Proof. repeat split; vm_compute; reflexivity. Qed.

(** C8, as amended. For a positive cell size: construction from an image
    whose width or height the cell size does not divide ends in the logged
    error and the failed assertion, and no field is built; construction from
    an image of non-zero height whose width and height it divides succeeds,
    with a wall grid and two brightness grids of [width / size] columns and
    [height / size] rows. *)
Theorem construction_validity `{Double F} (siv : Siv3D F) (W H0 u : Z) :
  0 < u → 0 ≤ W → 0 ≤ H0 →
  (¬ (W `mod` u = 0 ∧ H0 `mod` u = 0) →
     Field.construct siv {| image_width := W; image_height := H0 |} u
     = Field.AssertFailed Field.initFailure)
  ∧ (W `mod` u = 0 → H0 `mod` u = 0 → 0 < H0 →
       ∃ f, Field.construct siv {| image_width := W; image_height := H0 |} u
            = Field.Constructed f
            ∧ Grid2D.width (Field.m_isWall f) = W `div` u
            ∧ Grid2D.height (Field.m_isWall f) = H0 `div` u
            ∧ Field_wf (W `div` u) (H0 `div` u) f).
Proof.
  intros Hu HW HH. destruct (construct_cases siv W H0 u Hu HW HH) as (Ha & _ & Hok).
  split; [exact Ha |]. intros E1 E2 Hpos.
  destruct (Hok E1 E2 Hpos) as (f & Hc & Hwf & Ew & Eh & _). by exists f.
Qed.

Lemma construction_validity_witness :
  Field.construct Milli.siv3d {| image_width := 330; image_height := 320 |} 32
  = Field.AssertFailed Field.initFailure
  ∧ ∃ f, Field.construct Milli.siv3d {| image_width := 320; image_height := 96 |} 32
         = Field.Constructed f
         ∧ Grid2D.width (Field.m_isWall f) = 10 ∧ Grid2D.height (Field.m_isWall f) = 3.
Proof.
  split.
  - apply (construction_validity Milli.siv3d 330 320 32); [lia .. |].
    intros [E _]. vm_compute in E. discriminate.
  - destruct (construction_validity Milli.siv3d 320 96 32) as (_ & Hok); [lia .. |].
    destruct Hok as (f & Hc & Ew & Eh & _); [reflexivity | reflexivity | lia |].
    exists f. split; [exact Hc |]. split; [exact Ew | exact Eh].
Defined.

(** Counterexample to C8 as stated: the cell size 32 divides the width and
    the height of a 64 by 0 image, and the constructor does not return: the
    [gridUnitPixel()] of [init] divides by the zero height of the grid. *)
Lemma empty_image_crashes :
  ¬ (∀ W H0 u : Z, 0 < u → 0 ≤ W → 0 ≤ H0 → W `mod` u = 0 → H0 `mod` u = 0 →
       ∃ f, Field.construct Milli.siv3d {| image_width := W; image_height := H0 |} u
            = Field.Constructed f
            ∧ Grid2D.width (Field.m_isWall f) = W `div` u
            ∧ Grid2D.height (Field.m_isWall f) = H0 `div` u).
Proof.
  intros Hclaim. destruct (Hclaim 64 0 32) as (f & Hc & _); try lia; try reflexivity.
  vm_compute in Hc. discriminate.
Qed.

(** ** The collision step *)

Section Collision.
Context `{Double F} (siv : Siv3D F).
Implicit Types (f : Field.t F) (v : Vec2.t F) (hit : nat → bool).

Lemma reflectDirection_scaleOf (j : nat) (o : Point.t) :
  Field.neighbors !! j = Some o →
  Field.reflectDirection !! j = Some (Reflection.scaleOf Field.restitution o).
Proof.
  destruct j as [|[|[|[|[|[|[|[|j]]]]]]]]; simpl; [.. | done]; by intros [= <-].
Qed.

(** the loop of the code is the loop over the table of its collision tests *)
Lemma reflectLoop_loop f moveSegment gridA hit js reflects v :
  (∀ j o, j ∈ js → Field.neighbors !! j = Some o →
          Field.collides siv f moveSegment (Point.add gridA o) = Some (hit j)) →
  (∀ j, j ∈ js → j < length Field.neighbors)%nat →
  Field.reflectLoop siv f moveSegment gridA js reflects v
  = Some (Reflection.loop hit js reflects v).
Proof.
  revert reflects v. induction js as [| j js IH]; intros reflects v Hhit Hlt;
    cbn [Field.reflectLoop Reflection.loop]; [done |].
  destruct (reflects && bool_decide (4 ≤ j)%nat); [done |].
  destruct (lookup_lt_is_Some_2 Field.neighbors j) as [o Eo]; [apply Hlt; by left |].
  rewrite Eo. cbn [mbind option_bind].
  rewrite (Hhit j o) by (done || by left). cbn [mbind option_bind].
  assert (∀ r v', Field.reflectLoop siv f moveSegment gridA js r v'
                  = Some (Reflection.loop hit js r v')) as IH'.
  { intros r v'. apply IH.
    - intros j' o' Hin. apply Hhit. by right.
    - intros j' Hin. apply Hlt. by right. }
  destruct (hit j); [| apply IH'].
  rewrite (reflectDirection_scaleOf _ _ Eo). cbn [mbind option_bind]. rewrite IH'.
  unfold Reflection.reflectAll. cbn [foldl]. by rewrite Eo.
Qed.

(** the loop over all 8 neighbours applies the reflections of [applied] *)
Lemma loop_applied hit v :
  Reflection.loop hit (seq 0 (length Field.neighbors)) false v
  = Reflection.reflectAll v (Reflection.applied hit).
Proof.
  unfold Reflection.applied, Reflection.cardinals, Reflection.diagonals. simpl.
  destruct (hit 0%nat), (hit 1%nat), (hit 2%nat), (hit 3%nat),
    (hit 4%nat), (hit 5%nat), (hit 6%nat), (hit 7%nat); reflexivity.
Qed.

Lemma collisionEvaluated_true f gridA gridB :
  Field.collisionEvaluated f gridA gridB = Some true ↔
  Grid2D.isValid (Field.m_isWall f) gridA = true
  ∧ Grid2D.isValid (Field.m_isWall f) gridB = true
  ∧ gridA ≠ gridB
  ∧ Field.isWall f gridA = Some false.
Proof.
  unfold Field.collisionEvaluated.
  destruct (Grid2D.isValid (Field.m_isWall f) gridA) eqn:EA; simpl; [| naive_solver].
  destruct (Grid2D.isValid (Field.m_isWall f) gridB) eqn:EB; simpl; [| naive_solver].
  case_bool_decide; simpl; [| naive_solver].
  destruct (Field.isWall f gridA) as [[|] |]; simpl; naive_solver.
Qed.

Lemma collisionEvaluated_is_Some f gridA gridB :
  is_Some (Field.collisionEvaluated f gridA gridB).
Proof.
  unfold Field.collisionEvaluated.
  destruct (Grid2D.isValid (Field.m_isWall f) gridA) eqn:EA; simpl; [| by eauto].
  destruct (_ && _); [| by eauto].
  apply isValid_is_Some in EA as [c Ec]. unfold Field.isWall. rewrite Ec. simpl. by eauto.
Qed.

(** C7. The collision step changes the velocity of a light only when the
    grid cells of the start and of the end of its movement are both inside
    the wall grid, differ, and the start cell is not a wall. When one of
    these fails, the step returns the velocity it was given, so that the
    velocity [lightStep] stores and moves the light by is the one the
    damping and force phase produced. *)
Theorem collision_guard f (inp : Input F) (i : nat) f' (c : Circle.t F) (v0 : Vec2.t F)
    (gridA gridB : Point.t) :
  let v := Field.applyForce inp i c v0 in
  let target := Vec2.add (Circle.center c) (Vec2.mul v Field.dt) in
  Field.m_velocity f !! i = Some v0 →
  Field.m_lightPos f !! i = Some c →
  Field.gridPos f (Vec2.asPoint (Circle.center c)) = Some gridA →
  Field.gridPos f (Vec2.asPoint target) = Some gridB →
  Field.lightStep siv inp i f = Some f' →
  ¬ (Grid2D.isValid (Field.m_isWall f) gridA = true
     ∧ Grid2D.isValid (Field.m_isWall f) gridB = true
     ∧ gridA ≠ gridB
     ∧ Field.isWall f gridA = Some false) →
  Field.resolveCollision siv f (Line.mk (Circle.center c) target) gridA gridB v = Some v
  ∧ Field.m_velocity f' !! i = Some v
  ∧ Field.m_lightPos f' !! i = Some (Circle.mk target (Circle.r c)).
Proof.
  intros v target Ev Ec EA EB Hstep Hguard.
  assert (Field.resolveCollision siv f (Line.mk (Circle.center c) target) gridA gridB v
          = Some v) as Hres.
  { unfold Field.resolveCollision.
    destruct (collisionEvaluated_is_Some f gridA gridB) as [[|] Ee]; rewrite Ee; simpl; [| done].
    by apply collisionEvaluated_true in Ee. }
  split; [exact Hres |].
  unfold Field.lightStep, Field.moveLight in Hstep. rewrite Ev, Ec in Hstep.
  cbn [mbind option_bind] in Hstep. fold v target in Hstep.
  rewrite EA, EB in Hstep. cbn [mbind option_bind] in Hstep.
  rewrite Hres in Hstep. cbn [mbind option_bind] in Hstep.
  option_inv Hstep. injection Hstep as <-. simpl.
  split; apply list_lookup_insert_eq; by eapply lookup_lt_Some.
Qed.

(** C2, as amended. When the collision of a light is evaluated, the
    velocity after it is the velocity before it scaled, axis by axis, for
    each neighbour whose reflection is applied, in the order up, left,
    right, down, then the diagonals: a cardinal neighbour multiplies the
    axis towards it by minus the restitution factor and the other axis by 1;
    a diagonal neighbour multiplies both axes by minus the restitution
    factor. The reflection of every colliding cardinal neighbour is applied;
    the reflection of a diagonal neighbour is applied only when no cardinal
    neighbour collides, and then for the first colliding diagonal neighbour
    alone. *)
Theorem reflection_rule f moveSegment gridA gridB v hit :
  Field.collisionEvaluated f gridA gridB = Some true →
  (∀ j o, Field.neighbors !! j = Some o →
          Field.collides siv f moveSegment (Point.add gridA o) = Some (hit j)) →
  Field.resolveCollision siv f moveSegment gridA gridB v
  = Some (Reflection.reflectAll v (Reflection.applied hit))
  ∧ (∀ j, j ∈ Reflection.cardinals → hit j = true → j ∈ Reflection.applied hit)
  ∧ (∀ j, j ∈ Reflection.diagonals → j ∈ Reflection.applied hit →
          hit j = true
          ∧ (∀ k, k ∈ Reflection.cardinals → hit k = false)
          ∧ (∀ k, k ∈ Reflection.diagonals → (k < j)%nat → hit k = false)
          ∧ (∀ k, k ∈ Reflection.diagonals → k ∈ Reflection.applied hit → k = j))
  ∧ (∀ j, j ∈ [0; 3]%nat →
          Reflection.reflectAll v [j]
          = Vec2.mk (Vec2.x v * of_int 1)%D (Vec2.y v * - Field.restitution)%D)
  ∧ (∀ j, j ∈ [1; 2]%nat →
          Reflection.reflectAll v [j]
          = Vec2.mk (Vec2.x v * - Field.restitution)%D (Vec2.y v * of_int 1)%D)
  ∧ (∀ j, j ∈ Reflection.diagonals →
          Reflection.reflectAll v [j]
          = Vec2.mk (Vec2.x v * - Field.restitution)%D (Vec2.y v * - Field.restitution)%D).
Proof.
  intros He Hhit.
  split; [| split; [| split; [| split; [| split]]]];
    [| | | intros j Hj; repeat (apply elem_of_cons in Hj as [-> | Hj]);
           (done || by apply elem_of_nil in Hj) ..].
  - unfold Field.resolveCollision. rewrite He. cbn [mbind option_bind].
    rewrite (reflectLoop_loop f moveSegment gridA hit).
    + by rewrite loop_applied.
    + intros j o _. apply Hhit.
    + intros j Hin%elem_of_seq. lia.
  - unfold Reflection.applied, Reflection.cardinals, Reflection.diagonals. simpl.
    intros j Hj Ej. repeat (apply elem_of_cons in Hj as [-> | Hj]); [.. | by apply elem_of_nil in Hj];
      rewrite Ej; simpl; repeat (destruct (hit _)); simpl; set_solver.
  - unfold Reflection.applied, Reflection.cardinals, Reflection.diagonals. simpl.
    intros j Hj. destruct (hit 0%nat) eqn:E0, (hit 1%nat) eqn:E1, (hit 2%nat) eqn:E2,
      (hit 3%nat) eqn:E3, (hit 4%nat) eqn:E4, (hit 5%nat) eqn:E5, (hit 6%nat) eqn:E6,
      (hit 7%nat) eqn:E7; simpl;
      repeat (apply elem_of_cons in Hj as [-> | Hj]); try (by apply elem_of_nil in Hj);
      intros Hin; try (set_solver by lia);
      (split; [done |]); (split; [set_solver |]); (split; [set_solver by lia | set_solver by lia]).
Qed.
End Collision.

Lemma collision_guard_witness :
  ∃ f', Field.lightStep Milli.siv3d (Milli.pointer_at 2 2 false false) 0
          (Milli.with_light (Milli.built 5 5) 2 2 Milli.amber) = Some f'
        ∧ Field.m_velocity f' !! 0%nat = Some (Vec2.mk 0 0).
Proof.
  destruct (Field.lightStep Milli.siv3d (Milli.pointer_at 2 2 false false) 0
              (Milli.with_light (Milli.built 5 5) 2 2 Milli.amber)) as [f' |] eqn:Hstep;
    [| by vm_compute in Hstep].
  exists f'. split; [reflexivity |].
  destruct (collision_guard Milli.siv3d
              (Milli.with_light (Milli.built 5 5) 2 2 Milli.amber)
              (Milli.pointer_at 2 2 false false) 0 f'
              (Circle.mk (Milli.cell_centre 2 2) (16 * Milli.one)) (Vec2.mk 0 0)
              (Point.mk 2 2) (Point.mk 2 2)) as (_ & Ev & _);
    try reflexivity; try exact Hstep.
  - intros (_ & _ & Hne & _). by apply Hne.
  - rewrite Ev. reflexivity.
Defined.

Lemma reflection_rule_witness :
  Field.collisionEvaluated Milli.corner_room (Point.mk 2 2) (Point.mk 2 1) = Some true
  ∧ Field.resolveCollision Milli.siv3d Milli.corner_room Milli.corner_move
      (Point.mk 2 2) (Point.mk 2 1) (Vec2.mk 1875000 (-125000))
    = Some (Vec2.mk (-937500) 62500).
Proof.
  split; [reflexivity |].
  destruct (reflection_rule Milli.siv3d Milli.corner_room Milli.corner_move
              (Point.mk 2 2) (Point.mk 2 1) (Vec2.mk 1875000 (-125000))
              (λ j, bool_decide (j = 4 ∨ j = 5)%nat)) as (-> & _).
  - reflexivity.
  - intros j o Hj.
    destruct j as [|[|[|[|[|[|[|[|j]]]]]]]]; simpl in Hj; [.. | done];
      injection Hj as <-; vm_compute; reflexivity.
  - vm_compute. reflexivity.
Defined.

(** Counterexample to C2 as stated: the cells above-left and above-right of
    the start cell both collide with the movement and no cardinal neighbour
    does; the code applies the reflection of the first of the two only,
    while applying that of every colliding neighbour would scale the
    velocity twice. *)
Lemma second_diagonal_not_applied :
  ¬ (∀ (f : Field.t Z) (moveSegment : Line.t Z) (gridA gridB : Point.t) (v : Vec2.t Z)
       (hit : nat → bool),
       Field.collisionEvaluated f gridA gridB = Some true →
       (∀ j o, Field.neighbors !! j = Some o →
               Field.collides Milli.siv3d f moveSegment (Point.add gridA o) = Some (hit j)) →
       Field.resolveCollision Milli.siv3d f moveSegment gridA gridB v
       = Some (Reflection.reflectAll v (Reflection.applied_as_stated hit))).
Proof.
  intros Hclaim.
  specialize (Hclaim Milli.corner_room Milli.corner_move (Point.mk 2 2) (Point.mk 2 1)
                (Vec2.mk 1875000 (-125000)) (λ j, bool_decide (j = 4 ∨ j = 5)%nat)).
  assert (Field.resolveCollision Milli.siv3d Milli.corner_room Milli.corner_move
            (Point.mk 2 2) (Point.mk 2 1) (Vec2.mk 1875000 (-125000))
          = Some (Vec2.mk (-937500) 62500)) as Hcode by (vm_compute; reflexivity).
  rewrite Hclaim in Hcode.
  - vm_compute in Hcode. discriminate.
  - reflexivity.
  - intros j o Hj.
    destruct j as [|[|[|[|[|[|[|[|j]]]]]]]]; simpl in Hj; [.. | done];
      injection Hj as <-; vm_compute; reflexivity.
Qed.

(** ** Brightness values under the laws of the channels *)

Section Channels.
Context `{Double F} (ok : F → Prop) `{!ChannelLaws ok}.
Implicit Types (x y z : F) (u v c : F * F * F).

Lemma fle_refl x : ok x → fle x x.
Proof. apply lt_irrefl. Qed.

Lemma lt_fle x y : ok x → ok y → (x <? y)%D = true → fle x y.
Proof.
  intros Hx Hy Hlt. unfold fle. destruct (y <? x)%D eqn:E; [| done].
  rewrite <- (lt_irrefl x Hx). symmetry. by apply (lt_trans x y x).
Qed.

Lemma fle_trans x y z : ok x → ok y → ok z → fle x y → fle y z → fle x z.
Proof.
  unfold fle. intros Hx Hy Hz Hxy Hyz.
  destruct (z <? x)%D eqn:Ezx; [| done].
  destruct (x <? y)%D eqn:Exy.
  - rewrite <- Hyz. symmetry. by apply (lt_trans z x y).
  - assert (x = y) as -> by (by apply lt_total). congruence.
Qed.

Lemma fle_antisym x y : ok x → ok y → fle x y → fle y x → x = y.
Proof. unfold fle. intros Hx Hy Hxy Hyx. by apply lt_total. Qed.

Lemma Max_ok x y : ok x → ok y → ok (Max x y).
Proof. intros Hx Hy. unfold Max. by destruct (x <? y)%D. Qed.

Lemma Max_ge_l x y : ok x → ok y → fle x (Max x y).
Proof.
  intros Hx Hy. unfold Max. destruct (x <? y)%D eqn:E; [by apply lt_fle | by apply fle_refl].
Qed.

Lemma Max_ge_r x y : ok x → ok y → fle y (Max x y).
Proof. intros Hx Hy. unfold Max. destruct (x <? y)%D eqn:E; [by apply fle_refl | done]. Qed.

Lemma Max_le x y z : fle x z → fle y z → fle (Max x y) z.
Proof. intros Hx Hy. unfold Max. by destruct (x <? y)%D. Qed.

(** the maximum is its first argument when the second is not above it *)
Lemma Max_l x y : fle y x → Max x y = x.
Proof. unfold fle, Max. by intros ->. Qed.

Lemma Max_r x y : ok x → ok y → fle x y → Max x y = y.
Proof.
  intros Hx Hy Hxy. unfold Max. destruct (x <? y)%D eqn:E; [done |].
  by apply fle_antisym.
Qed.

Lemma mul_le_adjacent x y (k : F) :
  k = Field.attenuationAdjacent ∨ k = Field.attenuationDiagonal →
  ok x → ok y → fle x y → ok (x * k)%D ∧ fle (x * k)%D (y * Field.attenuationAdjacent)%D.
Proof.
  intros [-> | ->] Hx Hy Hxy.
  - split; [by apply ok_adjacent | by apply mul_mono].
  - split; [by apply ok_diagonal |].
    apply (fle_trans _ (x * Field.attenuationAdjacent)%D).
    + by apply ok_diagonal.
    + by apply ok_adjacent.
    + by apply ok_adjacent.
    + by apply diagonal_le_adjacent.
    + by apply mul_mono.
Qed.

(** *** Triples *)

Lemma le3_refl u : ok3 ok u → le3 u u.
Proof. intros (? & ? & ?). repeat split; by apply fle_refl. Qed.

Lemma le3_trans u v c : ok3 ok u → ok3 ok v → ok3 ok c → le3 u v → le3 v c → le3 u c.
Proof.
  intros (a1 & a2 & a3) (b1 & b2 & b3) (c1 & c2 & c3) (l1 & l2 & l3) (m1 & m2 & m3).
  split; [| split].
  - exact (fle_trans _ _ _ a1 b1 c1 l1 m1).
  - exact (fle_trans _ _ _ a2 b2 c2 l2 m2).
  - exact (fle_trans _ _ _ a3 b3 c3 l3 m3).
Qed.

Lemma le3_antisym u v : ok3 ok u → ok3 ok v → le3 u v → le3 v u → u = v.
Proof.
  destruct u as [[u1 u2] u3], v as [[v1 v2] v3].
  intros (? & ? & ?) (? & ? & ?) (? & ? & ?) (? & ? & ?). simpl in *.
  f_equal; [f_equal |]; by apply fle_antisym.
Qed.

Lemma max3_ok u v : ok3 ok u → ok3 ok v → ok3 ok (Spec.max3 u v).
Proof. intros (? & ? & ?) (? & ? & ?). repeat split; by apply Max_ok. Qed.

Lemma max3_ge_l u v : ok3 ok u → ok3 ok v → le3 u (Spec.max3 u v).
Proof. intros (? & ? & ?) (? & ? & ?). repeat split; by apply Max_ge_l. Qed.

Lemma max3_ge_r u v : ok3 ok u → ok3 ok v → le3 v (Spec.max3 u v).
Proof. intros (? & ? & ?) (? & ? & ?). repeat split; by apply Max_ge_r. Qed.

Lemma max3_le u v c : le3 u c → le3 v c → le3 (Spec.max3 u v) c.
Proof. intros (? & ? & ?) (? & ? & ?). repeat split; by apply Max_le. Qed.

Lemma max3_l u v : le3 v u → Spec.max3 u v = u.
Proof.
  destruct u as [[u1 u2] u3], v as [[v1 v2] v3]. intros (? & ? & ?). simpl in *.
  unfold Spec.max3. simpl. by rewrite !Max_l.
Qed.

Lemma max3_r u v : ok3 ok u → ok3 ok v → le3 u v → Spec.max3 u v = v.
Proof.
  destruct u as [[u1 u2] u3], v as [[v1 v2] v3].
  intros (? & ? & ?) (? & ? & ?) (? & ? & ?). simpl in *.
  unfold Spec.max3. simpl. by rewrite !Max_r.
Qed.

Lemma zero3_ok : ok3 ok (Spec.rgb (Black (F:=F))).
Proof. repeat split; apply ok_zero. Qed.

Lemma zero3_least u : ok3 ok u → le3 (Spec.rgb Black) u.
Proof. intros (? & ? & ?). repeat split; by apply zero_least. Qed.

Lemma scale3_le u v (k : F) :
  k = Field.attenuationAdjacent ∨ k = Field.attenuationDiagonal →
  ok3 ok u → ok3 ok v → le3 u v →
  ok3 ok (scale3 u k) ∧ le3 (scale3 u k) (scale3 v Field.attenuationAdjacent).
Proof.
  intros Hk (? & ? & ?) (? & ? & ?) (? & ? & ?).
  destruct (mul_le_adjacent u.1.1 v.1.1 k), (mul_le_adjacent u.1.2 v.1.2 k),
    (mul_le_adjacent u.2 v.2 k); try done.
Qed.

Lemma scale3_ok u : ok3 ok u → ok3 ok (scale3 u Field.attenuationAdjacent).
Proof. intros (? & ? & ?). repeat split; by apply ok_adjacent. Qed.

Lemma scale3_le_self u : ok3 ok u → le3 (scale3 u Field.attenuationAdjacent) u.
Proof. intros (? & ? & ?). repeat split; by apply mul_le_self. Qed.

(** *** The bound by distance *)

Lemma bound_ok c n : ok3 ok c → ok3 ok (bound c n).
Proof. intros Hc. unfold bound. repeat case_decide; auto using scale3_ok. Qed.

Lemma bound_succ c n :
  ok3 ok c → le3 (scale3 (bound c (n - 1)) Field.attenuationAdjacent) (bound c n).
Proof.
  intros Hc. unfold bound. repeat case_decide; try lia;
    auto using le3_refl, scale3_ok, scale3_le_self.
  (* n <= 0: the colour attenuated once is below the colour *)
Qed.

Lemma bound_antitone c m n : ok3 ok c → m ≤ n → le3 (bound c n) (bound c m).
Proof.
  intros Hc Hmn. unfold bound. repeat case_decide; try lia;
    auto using le3_refl, scale3_ok, scale3_le_self.
  apply (le3_trans _ (scale3 c Field.attenuationAdjacent));
    auto using scale3_ok, scale3_le_self.
Qed.

(** a value within the bound of a cell, attenuated, is within the bound of
    the cells next to it *)
Lemma attenuated_within c u (k : F) m n :
  k = Field.attenuationAdjacent ∨ k = Field.attenuationDiagonal →
  ok3 ok c → ok3 ok u → le3 u (bound c m) → n ≤ m + 1 →
  ok3 ok (scale3 u k) ∧ le3 (scale3 u k) (bound c n).
Proof.
  intros Hk Hc Hu Hle Hn.
  assert (le3 u (bound c (n - 1))) as Hle'.
  { apply (le3_trans _ (bound c m)); auto using bound_ok. apply bound_antitone; [done | lia]. }
  destruct (scale3_le u (bound c (n - 1)) k) as [Hok Hs]; auto using bound_ok.
  split; [done |].
  apply (le3_trans _ (scale3 (bound c (n - 1)) Field.attenuationAdjacent));
    auto using bound_ok, scale3_ok, bound_succ.
Qed.

(** *** Maxima of lists *)

Lemma foldl_max3_ok (l : list (F * F * F)) u :
  ok3 ok u → Forall (ok3 ok) l → ok3 ok (foldl Spec.max3 u l).
Proof.
  intros Hu Hl. revert u Hu. induction Hl as [| v l Hv Hl IH]; intros u Hu; simpl; [done |].
  apply IH. by apply max3_ok.
Qed.

Lemma foldl_max3_le (l : list (F * F * F)) u c :
  le3 u c → Forall (λ v, le3 v c) l → le3 (foldl Spec.max3 u l) c.
Proof.
  intros Hu Hl. revert u Hu. induction Hl as [| v l Hv Hl IH]; intros u Hu; simpl; [done |].
  apply IH. by apply max3_le.
Qed.

Lemma foldl_max3_ge_acc (l : list (F * F * F)) u :
  ok3 ok u → Forall (ok3 ok) l → le3 u (foldl Spec.max3 u l).
Proof.
  intros Hu Hl. revert u Hu. induction Hl as [| v l Hv Hl IH]; intros u Hu; simpl.
  - by apply le3_refl.
  - apply (le3_trans _ (Spec.max3 u v)); auto using max3_ok, foldl_max3_ok, max3_ge_l.
Qed.

Lemma foldl_max3_ge (l : list (F * F * F)) u v :
  ok3 ok u → Forall (ok3 ok) l → v ∈ l → le3 v (foldl Spec.max3 u l).
Proof.
  intros Hu Hl. revert u Hu. induction Hl as [| w l Hw Hl IH]; intros u Hu Hin; simpl.
  - by apply elem_of_nil in Hin.
  - apply elem_of_cons in Hin as [-> | Hin].
    + apply (le3_trans _ (Spec.max3 u w));
        auto using max3_ok, foldl_max3_ok, max3_ge_r, foldl_max3_ge_acc.
    + apply IH; [by apply max3_ok | done].
Qed.
End Channels.

(** ** One cell of a grid that is within the bounds of a light *)

Section BoundedCell.
Context `{Double F} (ok : F → Prop) `{!ChannelLaws ok}.
Variables (light : Point.t) (c : F * F * F) (f : Field.t F) (rd : list (list (ColorF.t F))).
Hypothesis c_ok : ok3 ok c.
Hypothesis rd_within : ∀ q v, Grid2D.at_ rd q = Some v →
  ok3 ok (Spec.rgb v) ∧ le3 (Spec.rgb v) (bound c (cheb q light)).

Lemma offsets_unit o :
  o ∈ Spec.offsets → -1 ≤ Point.x o ≤ 1 ∧ -1 ≤ Point.y o ≤ 1.
Proof.
  intros Ho. vm_compute in Ho.
  repeat (apply elem_of_cons in Ho as [-> | Ho]); simpl; try lia.
  by apply elem_of_nil in Ho.
Qed.

Lemma attenuation_cases o :
  Spec.attenuation Field.attenuationAdjacent o = Field.attenuationAdjacent
  ∨ Spec.attenuation Field.attenuationAdjacent o = Field.attenuationDiagonal.
Proof. unfold Spec.attenuation. destruct (Spec.diagonal o); [by right | by left]. Qed.

Lemma contribution_within x y o u :
  o ∈ Spec.offsets →
  Spec.contribution Field.attenuationAdjacent f rd x y o = Some u →
  ok3 ok u ∧ le3 u (bound c (cheb (Point.mk x y) light)).
Proof.
  intros Ho Hu. unfold Spec.contribution in Hu.
  destruct (Spec.skipped f x y o); [done |]. option_inv Hu. injection Hu as <-.
  rename x0 into v. destruct (rd_within _ _ E) as [Hok Hle].
  apply (attenuated_within ok c (Spec.rgb v) _ (cheb (Point.add (Point.mk x y) o) light));
    try done; [apply attenuation_cases |].
  destruct (offsets_unit o Ho). unfold cheb. simpl. lia.
Qed.

Lemma neighbourMax_within x y :
  ok3 ok (Spec.neighbourMax Field.attenuationAdjacent f rd x y)
  ∧ le3 (Spec.neighbourMax Field.attenuationAdjacent f rd x y)
        (bound c (cheb (Point.mk x y) light)).
Proof.
  unfold Spec.neighbourMax. split.
  - apply (foldl_max3_ok ok); [apply (zero3_ok ok) |].
    apply Forall_forall. intros u (o & Ho & Hu)%list_elem_of_omap.
    by destruct (contribution_within x y o u).
  - apply foldl_max3_le; [apply (zero3_least ok), (bound_ok ok), c_ok |].
    apply Forall_forall. intros u (o & Ho & Hu)%list_elem_of_omap.
    by destruct (contribution_within x y o u).
Qed.

Lemma neighbourMax_ge x y o u :
  o ∈ Spec.offsets →
  Spec.contribution Field.attenuationAdjacent f rd x y o = Some u →
  le3 u (Spec.neighbourMax Field.attenuationAdjacent f rd x y).
Proof.
  intros Ho Hu. unfold Spec.neighbourMax.
  apply (foldl_max3_ge ok); [apply (zero3_ok ok) | |].
  - apply Forall_forall. intros u' (o' & Ho' & Hu')%list_elem_of_omap.
    by destruct (contribution_within x y o' u').
  - apply list_elem_of_omap. by exists o.
Qed.

(** an orthogonal neighbour inside the grid always contributes *)
Lemma orthogonal_contribution x y o v :
  Point.x o = 0 ∨ Point.y o = 0 →
  Grid2D.at_ rd (Point.add (Point.mk x y) o) = Some v →
  Spec.contribution Field.attenuationAdjacent f rd x y o
  = Some (scale3 (Spec.rgb v) Field.attenuationAdjacent).
Proof.
  intros Ho Hv. unfold Spec.contribution, Spec.skipped, Spec.attenuation.
  assert (Spec.diagonal o = false) as -> by (apply bool_decide_eq_false; lia).
  simpl. rewrite Hv. done.
Qed.

(** the new value of an open cell is within its bound *)
Lemma newBrightness_within x y own :
  ok3 ok (Spec.rgb own) →
  le3 (Spec.rgb own) (bound c (cheb (Point.mk x y) light)) →
  ok3 ok (Spec.newBrightness Field.attenuationAdjacent f rd x y own)
  ∧ le3 (Spec.newBrightness Field.attenuationAdjacent f rd x y own)
        (bound c (cheb (Point.mk x y) light)).
Proof.
  intros Hok Hle. destruct (neighbourMax_within x y) as [Hok' Hle'].
  unfold Spec.newBrightness. split; [by apply (max3_ok ok) | by apply max3_le].
Qed.

(** a cell that holds its bound keeps it *)
Lemma newBrightness_kept x y own :
  Spec.rgb own = bound c (cheb (Point.mk x y) light) →
  Spec.newBrightness Field.attenuationAdjacent f rd x y own
  = bound c (cheb (Point.mk x y) light).
Proof.
  intros Hown. destruct (neighbourMax_within x y) as [_ Hle].
  unfold Spec.newBrightness. rewrite Hown. by apply max3_l.
Qed.

(** a cell with an orthogonal neighbour whose attenuated value is the bound
    of the cell takes that bound *)
Lemma newBrightness_reached x y o v own :
  o ∈ Spec.offsets → Point.x o = 0 ∨ Point.y o = 0 →
  Grid2D.at_ rd (Point.add (Point.mk x y) o) = Some v →
  scale3 (Spec.rgb v) Field.attenuationAdjacent = bound c (cheb (Point.mk x y) light) →
  Grid2D.at_ rd (Point.mk x y) = Some own →
  Spec.newBrightness Field.attenuationAdjacent f rd x y own
  = bound c (cheb (Point.mk x y) light).
Proof.
  intros Ho Horth Hv Hscale Hown.
  destruct (rd_within _ _ Hown) as [Hok Hle].
  destruct (neighbourMax_within x y) as [Hok' Hle'].
  assert (Spec.neighbourMax Field.attenuationAdjacent f rd x y
          = bound c (cheb (Point.mk x y) light)) as EM.
  { apply (le3_antisym ok); [done | by apply (bound_ok ok) | done |].
    rewrite <- Hscale. apply (neighbourMax_ge x y o); [done |].
    by apply orthogonal_contribution. }
  unfold Spec.newBrightness. rewrite EM.
  apply (max3_r ok); [done | by apply (bound_ok ok) | done].
Qed.
End BoundedCell.

(** ** The spread of one light along the sub-steps *)

Lemma repeatM_chain {St : Type} (P : nat → St → Prop) (body : St → option St)
    (n k : nat) (s : St) :
  (∀ k s, P k s → ∃ s', body s = Some s' ∧ P (S k) s') →
  P k s → ∃ s', repeatM body n s = Some s' ∧ P (k + n)%nat s'.
Proof.
  intros Hb. revert k s. induction n as [| n IH]; intros k s Hs; simpl.
  - exists s. by rewrite Nat.add_0_r.
  - destruct (Hb k s Hs) as (s1 & -> & Hs1). simpl.
    destruct (IH (S k) s1 Hs1) as (s' & Hr & Hs').
    exists s'. split; [done |]. by rewrite Nat.add_succ_r.
Qed.

Lemma cheb_self p : cheb p p = 0.
Proof. unfold cheb. lia. Qed.

Lemma orthogonal_step_cases e :
  e ∈ orthogonal_steps →
  (Point.x e = 0 ∨ Point.y e = 0) ∧ -1 ≤ Point.x e ≤ 1 ∧ -1 ≤ Point.y e ≤ 1
  ∧ Z.abs (Point.x e) + Z.abs (Point.y e) = 1
  ∧ Point.mk (- Point.x e) (- Point.y e) ∈ Spec.offsets.
Proof.
  intros He. unfold orthogonal_steps in He.
  repeat (apply elem_of_cons in He as [-> | He]); [.. | by apply elem_of_nil in He];
    simpl; (split; [lia |]); (split; [lia |]); (split; [lia |]); (split; [lia |]);
    vm_compute; set_solver.
Qed.

Lemma cheb_step light e :
  e ∈ orthogonal_steps →
  cheb (Point.add light e) light = 1 ∧ cheb (Point.add (Point.add light e) e) light = 2.
Proof.
  intros (Ho & Hx & Hy & Hsum & _)%orthogonal_step_cases. unfold cheb. simpl. lia.
Qed.

Lemma step_back p e :
  Point.add (Point.mk (Point.x (Point.add p e)) (Point.y (Point.add p e)))
            (Point.mk (- Point.x e) (- Point.y e)) = p.
Proof. destruct p as [x y]. unfold Point.add. simpl. f_equal; lia. Qed.

Section Spread.
Context `{Double F} (ok : F → Prop) `{!ChannelLaws ok}.
Implicit Types (f : Field.t F) (rd : list (list (ColorF.t F))).

Lemma ringOnly_ringSolid w h f : ringOnly w h f → ringSolid w h f.
Proof.
  intros Hr x y Hx Hy Hon. rewrite (Hr x y Hx Hy). by rewrite bool_decide_eq_true_2.
Qed.

Lemma ringOnly_open w h f p :
  Grid2D.rect w h (Field.m_isWall f) → ringOnly w h f →
  Field.isWall f p = Some false ↔
  1 ≤ Point.x p ≤ w - 2 ∧ 1 ≤ Point.y p ≤ h - 2.
Proof.
  intros Hrect Hr. destruct p as [x y]. simpl. split.
  - intros Hopen.
    assert (0 ≤ x < w ∧ 0 ≤ y < h) as [Hx Hy]
      by (apply (isWall_is_Some w h f (Point.mk x y) Hrect); eauto).
    rewrite (Hr x y Hx Hy) in Hopen. injection Hopen as Hopen.
    apply bool_decide_eq_false in Hopen. unfold onRing in Hopen. lia.
  - intros [Hx Hy]. rewrite (Hr x y) by lia. f_equal.
    apply bool_decide_eq_false. unfold onRing. lia.
Qed.

(** the cells of the read side after a sub-step *)
Lemma stepLightDiffusion_values w h f f' rd rd' q v :
  Field_wf w h f →
  Field.stepLightDiffusion f = Some f' →
  DoubleBuffer.read (Field.m_brightness f) = Some rd →
  DoubleBuffer.read (Field.m_brightness f') = Some rd' →
  Grid2D.at_ rd' q = Some v →
  Field.isWall f q = Some true ∧ v = Black
  ∨ Field.isWall f q = Some false
    ∧ ∃ own, Grid2D.at_ rd q = Some own
             ∧ Spec.rgb v
               = Spec.newBrightness Field.attenuationAdjacent f rd (Point.x q) (Point.y q) own.
Proof.
  intros Hwf Hs Er Er' Hv.
  destruct (Field_wf_buffers _ _ _ Hwf) as (rd0 & wr & Er0 & Ew & Hrd & Hwr).
  assert (rd0 = rd) as -> by congruence.
  destruct (stepLightDiffusion_Some _ _ Hs) as (rd1 & wr1 & wr' & Er1 & Ew1 & Ep & Er2 & _).
  assert (wr' = rd') as -> by congruence.
  assert (wr1 = wr) as -> by congruence.
  destruct (diffusePass_Some _ _ _ _ Ep) as (Hshape & _).
  assert (Grid2D.rect w h rd') as Hrd' by (apply (rect_of_shape w h wr rd'); done).
  assert (0 ≤ Point.x q < w ∧ 0 ≤ Point.y q < h) as Hq by (apply (rect_at w h rd'); eauto).
  assert (inGrid rd (Point.x q) (Point.y q)) as Hin by (by apply (inGrid_rect w h)).
  destruct (stepLightDiffusion_cell _ _ _ _ _ Hs Er Hin)
    as (wr2 & rd2 & old & new & Ew2 & Ep2 & Er3 & Eold & Enew & Hd).
  assert (rd2 = rd') as -> by congruence.
  destruct q as [x y]. simpl in *. assert (new = v) as -> by congruence.
  destruct Hd as [[Hw ->] | (Hw & maxB & own & Em & Eown & ->)]; [by left | right].
  split; [done |]. exists own. split; [done |].
  unfold Spec.newBrightness. by rewrite <- (neighbourMax_spec _ _ _ _ _ Em).
Qed.

(** one sub-step takes the room from [k] to [k + 1] *)
Lemma lit_room_step w h light c k f :
  ok3 ok c →
  lit_room ok w h light c k f →
  ∃ f', Field.stepLightDiffusion f = Some f' ∧ lit_room ok w h light c (S k) f'.
Proof.
  intros Hc (Hwf & Hring & Hlight & rd & Er & Hwithin & (vL & EL & HvL) & H1 & H2 & Hwalls).
  destruct (stepLightDiffusion_total w h f Hwf (ringOnly_ringSolid _ _ _ Hring))
    as (f' & Hs & Hwf' & _).
  exists f'. split; [done |].
  assert (∀ p, Field.isWall f' p = Field.isWall f p) as Hsame
    by (intros p; unfold Field.isWall; by rewrite (stepLightDiffusion_isWall _ _ Hs)).
  destruct (Field_wf_buffers _ _ _ Hwf') as (rd' & wr' & Er' & _ & Hrd' & _).
  pose proof (proj1 Hwf) as Hrect.
  assert (∀ q v, Grid2D.at_ rd' q = Some v →
            Field.isWall f q = Some true ∧ v = Black
            ∨ Field.isWall f q = Some false
              ∧ ∃ own, Grid2D.at_ rd q = Some own
                       ∧ Spec.rgb v = Spec.newBrightness Field.attenuationAdjacent f rd
                                        (Point.x q) (Point.y q) own) as Hvalues
    by (intros q v; by apply (stepLightDiffusion_values w h f f' rd rd')).
  assert (∀ p, is_Some (Field.isWall f p) → is_Some (Grid2D.at_ rd' p)) as Hdefined.
  { intros p Hp. apply (rect_at w h rd' p Hrd'). by apply (isWall_is_Some w h f p Hrect). }
  assert (∀ p, Field.isWall f p = Some false →
            ∃ own v, Grid2D.at_ rd p = Some own ∧ Grid2D.at_ rd' p = Some v
                     ∧ Spec.rgb v = Spec.newBrightness Field.attenuationAdjacent f rd
                                      (Point.x p) (Point.y p) own) as Hopen_value.
  { intros p Hp. destruct (Hdefined p) as [v Ev]; [by eauto |].
    destruct (Hvalues p v Ev) as [[Hw _] | (_ & own & Eown & Hrgb)]; [congruence |].
    by exists own, v. }
  split; [exact Hwf' |]. split; [| split; [by rewrite Hsame |]].
  { intros x y Hx Hy. rewrite Hsame. by apply Hring. }
  exists rd'. split; [done |]. split; [| split; [| split; [| split]]].
  - intros q v Hv. destruct (Hvalues q v Hv) as [[_ ->] | (_ & own & Eown & ->)].
    + split; [apply (zero3_ok ok) | apply (zero3_least ok), (bound_ok ok), Hc].
    + destruct (Hwithin _ _ Eown) as [Hok Hle]. destruct q as [x y].
      by apply (newBrightness_within ok light c f rd Hc Hwithin).
  - destruct (Hopen_value light Hlight) as (own & v & Eown & Ev & Hrgb).
    exists v. split; [done |]. rewrite Hrgb.
    assert (own = vL) as -> by congruence.
    rewrite (newBrightness_kept ok light c f rd Hc Hwithin).
    + destruct light. by rewrite cheb_self.
    + destruct light. by rewrite cheb_self.
  - intros _ e He Hopen. rewrite Hsame in Hopen.
    destruct (Hopen_value _ Hopen) as (own & v & Eown & Ev & Hrgb).
    exists v. split; [done |]. rewrite Hrgb.
    destruct (orthogonal_step_cases e He) as (Ho & _ & _ & _ & Hoff).
    destruct (cheb_step light e He) as [Hd1 _].
    rewrite (newBrightness_reached ok light c f rd Hc Hwithin _ _
               (Point.mk (- Point.x e) (- Point.y e)) vL own).
    + destruct (Point.add light e). simpl in *. by rewrite Hd1.
    + done.
    + simpl. lia.
    + by rewrite step_back.
    + rewrite HvL. destruct (Point.add light e). simpl in *. by rewrite Hd1.
    + by destruct (Point.add light e).
  - intros Hk e He Hopen. rewrite Hsame in Hopen.
    destruct (Hopen_value _ Hopen) as (own & v & Eown & Ev & Hrgb).
    exists v. split; [done |]. rewrite Hrgb.
    destruct (orthogonal_step_cases e He) as (Ho & Hex & Hey & Hsum & Hoff).
    destruct (cheb_step light e He) as [_ Hd2].
    assert (Field.isWall f (Point.add light e) = Some false) as Hmid.
    { apply (ringOnly_open w h f _ Hrect Hring).
      apply (ringOnly_open w h f _ Hrect Hring) in Hopen, Hlight.
      destruct light as [lx ly], e as [ex ey]. simpl in *. lia. }
    destruct (H1 ltac:(lia) e He Hmid) as (vm & Evm & Hvm).
    rewrite (newBrightness_reached ok light c f rd Hc Hwithin _ _
               (Point.mk (- Point.x e) (- Point.y e)) vm own).
    + destruct (Point.add (Point.add light e) e). simpl in *. by rewrite Hd2.
    + done.
    + simpl. lia.
    + by rewrite step_back.
    + rewrite Hvm. destruct (Point.add (Point.add light e) e). simpl in *. by rewrite Hd2.
    + by destruct (Point.add (Point.add light e) e).
  - intros _ q Hw. rewrite Hsame in Hw.
    destruct (Hdefined q) as [v Ev]; [by eauto |].
    destruct (Hvalues q v Ev) as [[_ ->] | (Hopen & _)]; [done | congruence].
Qed.

(** [n] sub-steps take the room from [k] to [k + n] *)
Lemma lit_room_chain w h light c (n k : nat) f :
  ok3 ok c →
  lit_room ok w h light c k f →
  ∃ f', repeatM Field.stepLightDiffusion n f = Some f' ∧ lit_room ok w h light c (k + n) f'.
Proof.
  intros Hc. apply (repeatM_chain (lit_room ok w h light c)).
  intros k' s. by apply lit_room_step.
Qed.
End Spread.

(** ** The seed of a frame with one light *)

Section Seed.
Context `{Double F} (siv : Siv3D F).
Implicit Types (f : Field.t F) (inp : Input F).

(** [resetBrightness] leaves two black grids *)
Lemma resetBrightness_total w h f :
  Field_wf w h f →
  ∃ br g1 g2,
    Field.resetBrightness f = Some (Field.with_brightness f br)
    ∧ DoubleBuffer.wf br
    ∧ DoubleBuffer.read br = Some (Grid2D.reset g1 Black)
    ∧ DoubleBuffer.write br = Some (Grid2D.reset g2 Black)
    ∧ Grid2D.rect w h g1 ∧ Grid2D.rect w h g2
    ∧ both (Grid2D.rect w h) br.
Proof.
  intros Hwf. destruct (Field_wf_buffers _ _ _ Hwf) as (rd & wr & Er & Ew & Hrd & Hwr).
  destruct Hwf as (_ & Hd & H1 & H2).
  assert (∀ g : list (list (ColorF.t F)), Grid2D.rect w h g →
            Grid2D.rect w h (Grid2D.reset g Black)) as Hreset.
  { intros g Hg. apply (rect_of_shape w h g); [| done]. symmetry. apply reset_shape. }
  destruct (write_put_is_Some (Field.m_brightness f) (Grid2D.reset wr Black) Hd) as [b1 E1].
  destruct (write_put_Some _ _ _ E1) as (_ & Hd1 & _ & Ew1 & Er1).
  assert (both (Grid2D.rect w h) b1) as Hb1
    by (apply (both_write_put _ _ _ _ (conj H1 H2) (Hreset _ Hwr) E1)).
  destruct (write_put_is_Some (DoubleBuffer.flip b1) (Grid2D.reset rd Black)
              (flip_wf _ Hd1)) as [b3 E3].
  destruct (write_put_Some _ _ _ E3) as (_ & Hd3 & _ & Ew3 & Er3).
  exists b3, wr, rd. unfold Field.resetBrightness.
  rewrite Ew. cbn [mbind option_bind]. rewrite E1. cbn [mbind option_bind].
  rewrite (write_flip _ Hd1), Er1, Er. cbn [mbind option_bind]. rewrite E3.
  split; [done |]. split; [done |].
  split; [by rewrite Er3, (read_flip _ Hd1) |]. split; [done |].
  split; [done |]. split; [done |].
  apply (both_write_put _ _ _ _ (both_flip _ _ Hb1) (Hreset _ Hrd) E3).
Qed.

(** without a button pressed the wall edit changes nothing *)
Lemma editWalls_idle f inp u :
  MouseL_pressed inp = false → MouseR_pressed inp = false →
  Field.gridUnitPixel f = Some u → u ≠ 0 →
  Field.editWalls f inp = Some f.
Proof.
  intros EL ER Eu Hu. unfold Field.editWalls, Field.mouseGridPos.
  rewrite Eu. cbn [mbind option_bind]. case_decide; [done |]. cbn [mbind option_bind].
  rewrite EL, ER. destruct (Grid2D.isValid _ _); [| done].
  cbn [mbind option_bind]. by destruct f.
Qed.

(** the stamp of a light on a cell of two black grids *)
Lemma stamp_black w h f br g1 g2 pos (i : nat) color :
  DoubleBuffer.wf br →
  DoubleBuffer.read br = Some (Grid2D.reset g1 Black) →
  DoubleBuffer.write br = Some (Grid2D.reset g2 Black) →
  Grid2D.rect w h g1 → Grid2D.rect w h g2 → both (Grid2D.rect w h) br →
  0 ≤ Point.x pos < w → 0 ≤ Point.y pos < h →
  Field.m_lightColor f !! i = Some color →
  ∃ br' wr',
    Field.stamp (Field.with_brightness f br) pos i = Some br'
    ∧ DoubleBuffer.wf br' ∧ both (Grid2D.rect w h) br'
    ∧ DoubleBuffer.write br' = Some wr'
    ∧ Grid2D.rect w h wr'
    ∧ Grid2D.at_ wr' pos = Some color
    ∧ ∀ q, q ≠ pos → is_Some (Grid2D.at_ wr' q) → Grid2D.at_ wr' q = Some Black.
Proof.
  intros Hd Er Ew Hg1 Hg2 Hboth Hx Hy Ecolor.
  assert (Grid2D.rect w h (Grid2D.reset g1 (Black (F:=F)))) as Hr1
    by (apply (rect_of_shape w h g1); [symmetry; apply reset_shape | done]).
  assert (Grid2D.rect w h (Grid2D.reset g2 (Black (F:=F)))) as Hr2
    by (apply (rect_of_shape w h g2); [symmetry; apply reset_shape | done]).
  destruct (proj2 (put_is_Some (Grid2D.reset g2 Black) pos color)) as [wr' Eput];
    [by apply (rect_at w h) |].
  destruct (put_Some _ _ _ _ Eput) as (Hshape & Eat & Hother).
  assert (Grid2D.rect w h wr') as Hwr'
    by (apply (rect_of_shape w h (Grid2D.reset g2 Black)); done).
  destruct (write_put_is_Some br wr' Hd) as [br' Ebr'].
  destruct (write_put_Some _ _ _ Ebr') as (_ & Hd' & _ & Ew' & _).
  exists br', wr'. unfold Field.stamp. simpl. rewrite Er. cbn [mbind option_bind].
  assert (Grid2D.isValid (Grid2D.reset g1 (Black (F:=F))) pos = true) as ->
    by (by apply isValid_is_Some, (rect_at w h)).
  rewrite Ew. cbn [mbind option_bind]. rewrite Ecolor. cbn [mbind option_bind].
  rewrite Eput. cbn [mbind option_bind].
  split; [done |]. split; [done |].
  split; [by apply (both_write_put _ _ _ _ Hboth Hwr' Ebr') |].
  split; [done |]. split; [done |]. split; [done |].
  intros q Hq Hsome. rewrite (Hother q Hq). apply reset_at.
  apply (rect_at w h g2 q Hg2). apply (rect_at w h wr' q Hwr'). done.
Qed.

(** the seed of a frame without wall edit, for a field with one light that
    the motion phase leaves in the cell [light] *)
Lemma seedFrame_one_light w h f inp u c0 color v0 moved light :
  Field_wf w h f →
  Field.m_lightPos f = [c0] → Field.m_lightColor f = [color] → Field.m_velocity f = [v0] →
  MouseL_pressed inp = false → MouseR_pressed inp = false →
  Field.gridUnitPixel f = Some u → u ≠ 0 →
  Field.moveLight siv inp 0 f = Some moved →
  Field.gridPos f (Vec2.asPoint (Circle.center moved.1)) = Some light →
  0 ≤ Point.x light < w → 0 ≤ Point.y light < h →
  ∃ f0 rd,
    Field.seedFrame siv f inp = Some f0
    ∧ Field_wf w h f0
    ∧ Field.m_isWall f0 = Field.m_isWall f
    ∧ DoubleBuffer.read (Field.m_brightness f0) = Some rd
    ∧ Grid2D.at_ rd light = Some color
    ∧ ∀ q, q ≠ light → is_Some (Grid2D.at_ rd q) → Grid2D.at_ rd q = Some Black.
Proof.
  intros Hwf Epos Ecolor Evel EL ER Eu Hu Emove Ecell Hx Hy.
  destruct (resetBrightness_total w h f Hwf) as (br & g1 & g2 & Ereset & Hd & Er & Ew & Hg1 & Hg2 & Hboth).
  destruct (stamp_black w h f br g1 g2 light 0 color Hd Er Ew Hg1 Hg2 Hboth Hx Hy)
    as (br' & wr' & Estamp & Hd' & Hboth' & Ew' & Hwr' & Eat & Hother);
    [by rewrite Ecolor |].
  eexists _, wr'. unfold Field.seedFrame. rewrite Ereset. cbn [mbind option_bind].
  rewrite (editWalls_idle (Field.with_brightness f br) inp u EL ER Eu Hu).
  cbn [mbind option_bind].
  replace (length (Field.m_lightPos (Field.with_brightness f br))) with 1%nat
    by (simpl; by rewrite Epos).
  cbn [seq forM]. unfold Field.lightStep.
  change (Field.moveLight siv inp 0 (Field.with_brightness f br))
    with (Field.moveLight siv inp 0 f).
  rewrite Emove. cbn [mbind option_bind].
  change (Field.gridPos (Field.with_brightness f br) (Vec2.asPoint (Circle.center moved.1)))
    with (Field.gridPos f (Vec2.asPoint (Circle.center moved.1))).
  rewrite Ecell. cbn [mbind option_bind]. rewrite Estamp. cbn [mbind option_bind].
  split; [reflexivity |]. simpl.
  split; [| split; [done |]].
  - destruct Hwf as (Hrect & _). destruct Hboth' as [Hb1 Hb2].
    split; [done |]. split; [by apply flip_wf |]. by split.
  - rewrite (read_flip _ Hd'). by split.
Qed.
End Seed.

(** ** A frame of a room with one light *)

Section OneLight.
Context `{Double F} (siv : Siv3D F) (ok : F → Prop) `{!ChannelLaws ok}.
Implicit Types (f : Field.t F) (inp : Input F).

Lemma bound_0 (c : F * F * F) : bound c 0 = c.
Proof. reflexivity. Qed.

(** the seed of the frame starts the spread *)
Lemma seed_lit_room w h f f0 rd light color :
  Field_wf w h f0 → ringOnly w h f →
  Field.m_isWall f0 = Field.m_isWall f →
  Field.isWall f light = Some false →
  ok3 ok (Spec.rgb color) →
  DoubleBuffer.read (Field.m_brightness f0) = Some rd →
  Grid2D.at_ rd light = Some color →
  (∀ q, q ≠ light → is_Some (Grid2D.at_ rd q) → Grid2D.at_ rd q = Some Black) →
  lit_room ok w h light (Spec.rgb color) 0 f0.
Proof.
  intros Hwf Hring Ewalls Hlight Hok Er Eat Hother.
  assert (∀ p, Field.isWall f0 p = Field.isWall f p) as Hsame
    by (intros p; unfold Field.isWall; by rewrite Ewalls).
  split; [done |]. split; [| split; [by rewrite Hsame |]].
  { intros x y Hx Hy. rewrite Hsame. by apply Hring. }
  exists rd. split; [done |]. split; [| split; [| split; [| split]]]; try (intros; lia).
  - intros q v Hv. destruct (decide (q = light)) as [-> | Hne].
    + assert (v = color) as -> by congruence.
      rewrite cheb_self, bound_0. split; [done | by apply (le3_refl ok)].
    + rewrite (Hother q Hne) in Hv by eauto. injection Hv as <-.
      split; [apply (zero3_ok ok) | apply (zero3_least ok), (bound_ok ok), Hok].
  - by exists color.
Qed.

(** a frame of a [w] by [h] room with ring walls only and one light that
    the motion phase leaves in the open cell [light] *)
Lemma one_light_frame w h f inp u c0 color v0 moved light :
  Field_wf w h f → ringOnly w h f →
  Field.m_lightPos f = [c0] → Field.m_lightColor f = [color] → Field.m_velocity f = [v0] →
  MouseL_pressed inp = false → MouseR_pressed inp = false →
  Field.gridUnitPixel f = Some u → u ≠ 0 →
  Field.moveLight siv inp 0 f = Some moved →
  Field.gridPos f (Vec2.asPoint (Circle.center moved.1)) = Some light →
  Field.isWall f light = Some false →
  ok3 ok (Spec.rgb color) →
  ∃ f', Field.update siv f inp = Some f'
        ∧ lit_room ok w h light (Spec.rgb color) 30 f'
        ∧ Field.m_isWall f' = Field.m_isWall f.
Proof.
  intros Hwf Hring Epos Ecolor Evel EL ER Eu Hu Emove Ecell Hlight Hok.
  assert (0 ≤ Point.x light < w ∧ 0 ≤ Point.y light < h) as [Hx Hy]
    by (apply (isWall_is_Some w h f light (proj1 Hwf)); eauto).
  destruct (seedFrame_one_light siv w h f inp u c0 color v0 moved light)
    as (f0 & rd & Eseed & Hwf0 & Ewalls & Er & Eat & Hother); try done.
  destruct (lit_room_chain ok w h light (Spec.rgb color) 30 0 f0 Hok) as (f' & Echain & Hroom).
  { by apply (seed_lit_room w h f f0 rd). }
  exists f'. unfold Field.update. rewrite Eseed. cbn [mbind option_bind].
  split; [done |]. split; [done |].
  rewrite <- Ewalls. by apply (chain_isWall 30).
Qed.

(** C5, as amended. A frame of a 10 by 10 field whose only walls are the
    ring, with a single light, whatever its velocity, and no wall edit. Let
    the cell of the light be the cell [light] in which the motion phase of
    the frame (damping, force, collision, move) leaves it, which is the
    cell the frame stamps; it need not be the cell in which the light
    started the frame, even for a light at rest, because the frame adds a
    force before it moves the light. When that cell is at least three cells
    away from every border, as the centre cell [(5, 5)] is, and the colour
    channels obey the laws of [ChannelLaws], the frame is defined, and
    after its seed stamping and its 30 diffusion sub-steps the read side
    holds the colour channels of the light at [light], those channels times
    the orthogonal attenuation at the four cells one orthogonal step away,
    those times the orthogonal attenuation again (two multiplications, not
    one by the square of the constant) at the four cells two orthogonal
    steps away, and black at every ring cell, the only cells without an
    open path from the light. *)
Theorem centre_light_scenario f inp u c0 color v0 moved light :
  Field_wf 10 10 f → ringOnly 10 10 f →
  Field.m_lightPos f = [c0] → Field.m_lightColor f = [color] → Field.m_velocity f = [v0] →
  MouseL_pressed inp = false → MouseR_pressed inp = false →
  Field.gridUnitPixel f = Some u → u ≠ 0 →
  Field.moveLight siv inp 0 f = Some moved →
  Field.gridPos f (Vec2.asPoint (Circle.center moved.1)) = Some light →
  3 ≤ Point.x light ≤ 6 → 3 ≤ Point.y light ≤ 6 →
  ok (ColorF.r color) → ok (ColorF.g color) → ok (ColorF.b color) →
  ∃ f' rd,
    Field.update siv f inp = Some f'
    ∧ DoubleBuffer.read (Field.m_brightness f') = Some rd
    ∧ (∃ v, Grid2D.at_ rd light = Some v ∧ Spec.rgb v = Spec.rgb color)
    ∧ (∀ e, e ∈ orthogonal_steps →
         ∃ v1 v2,
           Grid2D.at_ rd (Point.add light e) = Some v1
           ∧ Spec.rgb v1 = scale3 (Spec.rgb color) Field.attenuationAdjacent
           ∧ Grid2D.at_ rd (Point.add (Point.add light e) e) = Some v2
           ∧ Spec.rgb v2 = scale3 (scale3 (Spec.rgb color) Field.attenuationAdjacent)
                                  Field.attenuationAdjacent)
    ∧ (∀ x y, 0 ≤ x < 10 → 0 ≤ y < 10 → onRing 10 10 x y →
         Grid2D.at_ rd (Point.mk x y) = Some Black).
Proof.
  intros Hwf Hring Epos Ecolor Evel EL ER Eu Hu Emove Ecell Hlx Hly Hr Hg Hb.
  pose proof (proj1 Hwf) as Hrect.
  assert (Field.isWall f light = Some false) as Hlight
    by (apply (ringOnly_open 10 10 f _ Hrect Hring); lia).
  destruct (one_light_frame 10 10 f inp u c0 color v0 moved light)
    as (f' & Eupdate & (Hwf' & Hring' & _ & rd & Er & _ & Hcentre & H1 & H2 & Hwalls) & _);
    try done.
  pose proof (proj1 Hwf') as Hrect'.
  exists f', rd. split; [done |]. split; [done |]. split; [done |]. split.
  - intros e He.
    destruct (orthogonal_step_cases e He) as (_ & Hex & Hey & _).
    destruct (H1 ltac:(lia) e He) as (v1 & E1 & Hv1).
    { apply (ringOnly_open 10 10 f' _ Hrect' Hring'). simpl. lia. }
    destruct (H2 ltac:(lia) e He) as (v2 & E2 & Hv2).
    { apply (ringOnly_open 10 10 f' _ Hrect' Hring'). simpl. lia. }
    by exists v1, v2.
  - intros x y Hx Hy Hon. apply Hwalls; [lia |].
    rewrite (Hring' x y Hx Hy). by rewrite bool_decide_eq_true_2.
Qed.
End OneLight.

(** the fixed-point instance obeys the laws of the channels *)
Lemma Milli_laws : ChannelLaws Milli.ok.
Proof.
  assert (Field.attenuationAdjacent = 900) as EA by reflexivity.
  assert (Field.attenuationDiagonal = 862) as ED by reflexivity.
  assert (∀ a b : Z, fle a b ↔ a ≤ b) as Hle by (intros a b; apply Z.ltb_ge).
  assert (∀ x k : Z, (x * k)%D = (x * k) `div` 1000) as Hmul by reflexivity.
  unfold Milli.ok. split; intros *; rewrite ?EA, ?ED, ?Hle, ?Hmul.
  - by vm_compute.
  - intros Hx. apply Z.div_pos; lia.
  - intros Hx. apply Z.div_pos; lia.
  - intros _. apply Z.ltb_irrefl.
  - intros _ _ _ H1%Z.ltb_lt H2%Z.ltb_lt. apply Z.ltb_lt. lia.
  - intros _ _ H1%Z.ltb_ge H2%Z.ltb_ge. lia.
  - intros Hx. exact Hx.
  - intros Hx Hy Hxy. apply Z.div_le_mono; lia.
  - intros Hx. apply Z.div_le_upper_bound; lia.
  - intros Hx. apply Z.div_le_mono; lia.
Qed.

Lemma centre_light_scenario_witness :
  ∃ f' rd,
    Field.update Milli.siv3d (Milli.with_light (Milli.built 10 10) 5 5 Milli.amber)
                 (Milli.pointer_at 5 5 false false) = Some f'
    ∧ DoubleBuffer.read (Field.m_brightness f') = Some rd
    ∧ (ColorF.r <$> Grid2D.at_ rd (Point.mk 5 5)) = Some 1000
    ∧ (ColorF.r <$> Grid2D.at_ rd (Point.mk 6 5)) = Some 900
    ∧ (ColorF.r <$> Grid2D.at_ rd (Point.mk 7 5)) = Some 810
    ∧ Grid2D.at_ rd (Point.mk 9 5) = Some Black.
Proof.
  pose (f := Milli.with_light (Milli.built 10 10) 5 5 Milli.amber).
  pose (c0 := Circle.mk (Milli.cell_centre 5 5) (16 * Milli.one)).
  assert (Field_wf 10 10 f) as Hwf.
  { vm_compute. split; [| split; [by left | split]]; (split; [reflexivity | repeat constructor]). }
  assert (Grid2D.width (Field.m_isWall (Milli.built 10 10)) = 10) as Ew by (vm_compute; reflexivity).
  assert (Grid2D.height (Field.m_isWall (Milli.built 10 10)) = 10) as Eh by (vm_compute; reflexivity).
  assert (Field.construct Milli.siv3d {| image_width := 320; image_height := 320 |} 32
          = Field.Constructed (Milli.built 10 10)) as Hc by (vm_compute; reflexivity).
  assert (ringOnly 10 10 f) as Hring.
  { intros x y Hx Hy.
    change (Field.isWall (Milli.built 10 10) (Point.mk x y)
            = Some (bool_decide (onRing 10 10 x y))).
    rewrite <- Ew at 1. rewrite <- Eh at 1.
    apply (walls_after_construction Milli.siv3d 320 320 32 (Milli.built 10 10) x y);
      [lia | lia | lia | exact Hc |].
    unfold inGrid. rewrite Ew, Eh. lia. }
  assert (Field.gridUnitPixel f = Some 32) as Eu by (vm_compute; reflexivity).
  assert (Field.moveLight Milli.siv3d (Milli.pointer_at 5 5 false false) 0 f
          = Some (c0, Vec2.mk 0 0)) as Emove by (vm_compute; reflexivity).
  assert (Field.gridPos f (Vec2.asPoint (Circle.center (c0, Vec2.mk 0 0).1))
          = Some (Point.mk 5 5)) as Ecell by (vm_compute; reflexivity).
  destruct (centre_light_scenario Milli.siv3d Milli.ok (ChannelLaws0 := Milli_laws)
              f (Milli.pointer_at 5 5 false false) 32 c0 Milli.amber (Vec2.mk 0 0)
              (c0, Vec2.mk 0 0) (Point.mk 5 5)
              Hwf Hring eq_refl eq_refl eq_refl eq_refl eq_refl Eu
              ltac:(lia) Emove Ecell ltac:(cbn; lia) ltac:(cbn; lia)
              ltac:(unfold Milli.ok, Milli.amber; simpl; lia)
              ltac:(unfold Milli.ok, Milli.amber; simpl; lia)
              ltac:(unfold Milli.ok, Milli.amber; simpl; lia))
    as (f' & rd & Eupd & Er & (v & Ev & Hv) & Horth & Hwalls).
  exists f', rd. split; [exact Eupd |]. split; [exact Er |].
  destruct (Horth (Point.mk 1 0)) as (v1 & v2 & E1 & Hv1 & E2 & Hv2);
    [unfold orthogonal_steps; rewrite !elem_of_cons; auto |].
  change (Point.add (Point.mk 5 5) (Point.mk 1 0)) with (Point.mk 6 5) in E1.
  change (Point.add (Point.add (Point.mk 5 5) (Point.mk 1 0)) (Point.mk 1 0))
    with (Point.mk 7 5) in E2.
  rewrite Ev, E1, E2. cbn [fmap option_fmap option_map].
  injection Hv as -> _ _. injection Hv1 as -> _ _. injection Hv2 as -> _ _.
  repeat (split; [vm_compute; reflexivity |]).
  apply Hwalls; [lia | lia |]. unfold onRing. lia.
Defined.

(** the walls of the 10 by 10 field of the constructor *)
Lemma Milli_built_ring x y :
  0 ≤ x < 10 → 0 ≤ y < 10 →
  Field.isWall (Milli.built 10 10) (Point.mk x y) = Some (bool_decide (onRing 10 10 x y)).
Proof.
  intros Hx Hy.
  assert (Grid2D.width (Field.m_isWall (Milli.built 10 10)) = 10) as Ew by (vm_compute; reflexivity).
  assert (Grid2D.height (Field.m_isWall (Milli.built 10 10)) = 10) as Eh by (vm_compute; reflexivity).
  assert (Field.construct Milli.siv3d {| image_width := 320; image_height := 320 |} 32
          = Field.Constructed (Milli.built 10 10)) as Hc by (vm_compute; reflexivity).
  rewrite <- Ew at 1. rewrite <- Eh at 1.
  apply (walls_after_construction Milli.siv3d 320 320 32 (Milli.built 10 10) x y);
    [lia | lia | lia | exact Hc |].
  unfold inGrid. rewrite Ew, Eh. lia.
Qed.

(** Counterexample to C5 as stated: a single light at rest, with zero
    velocity, in the centre cell [(5, 5)] of the 10 by 10 field whose only
    walls are the ring, at the pixel [(160, 176)]. In a frame without a
    button or key held in which the random force is [(-1000, 0)], the
    frame accelerates the light and moves it to the pixel column 159
    before it stamps it, that is, into the cell [(4, 5)]: after the 30
    sub-steps that cell holds the full colour and the centre cell holds the
    colour attenuated once, not the full colour. *)
Lemma resting_light_leaves_centre :
  (Spec.rgb <$> Grid2D.at_ (Milli.read_side (Milli.frame Milli.edge_light Milli.push_left))
                           (Point.mk 4 5) = Some (1000, 700, 300)
   ∧ Spec.rgb <$> Grid2D.at_ (Milli.read_side (Milli.frame Milli.edge_light Milli.push_left))
                             (Point.mk 5 5) = Some (900, 630, 270))
  ∧ ¬ (∀ (f f' : Field.t Z) (inp : Input Z) (c0 : Circle.t Z) (color : ColorF.t Z)
         (rd : Grid2D.t (ColorF.t Z)),
         Field_wf 10 10 f → ringOnly 10 10 f →
         Field.m_lightPos f = [c0] → Field.m_lightColor f = [color] →
         Field.m_velocity f = [Vec2.mk 0 0] →
         Field.gridPos f (Vec2.asPoint (Circle.center c0)) = Some (Point.mk 5 5) →
         MouseL_pressed inp = false → MouseR_pressed inp = false →
         Field.update Milli.siv3d f inp = Some f' →
         DoubleBuffer.read (Field.m_brightness f') = Some rd →
         Spec.rgb <$> Grid2D.at_ rd (Point.mk 5 5) = Some (Spec.rgb color)).
Proof.
  assert (Spec.rgb <$> Grid2D.at_
            (Milli.read_side (Milli.frame Milli.edge_light Milli.push_left)) (Point.mk 5 5)
          = Some (900, 630, 270)) as Hcode by (vm_compute; reflexivity).
  split; [split; [vm_compute; reflexivity | exact Hcode] |].
  intros Hclaim.
  specialize (Hclaim Milli.edge_light (Milli.frame Milli.edge_light Milli.push_left)
                Milli.push_left
                (Circle.mk (Vec2.mk (Milli.one * 160) (Milli.one * 176)) (16 * Milli.one))
                Milli.amber
                (Milli.read_side (Milli.frame Milli.edge_light Milli.push_left))).
  rewrite Hclaim in Hcode.
  - vm_compute in Hcode. discriminate Hcode.
  - vm_compute. split; [| split; [first [by left | by right] | split]];
      (split; [reflexivity | repeat constructor]).
  - intros x y Hx Hy. exact (Milli_built_ring x y Hx Hy).
  - reflexivity.
  - reflexivity.
  - reflexivity.
  - vm_compute. reflexivity.
  - reflexivity.
  - reflexivity.
  - vm_compute. reflexivity.
  - vm_compute. reflexivity.
Qed.

(** * Further properties of the code *)

(** ** [Grid2D] *)

Section GridFacts.
Context {T : Type}.
Implicit Types (grid : list (list T)) (p q : Point.t).

Lemma isValid_false_at grid p : Grid2D.isValid grid p = false → Grid2D.at_ grid p = None.
Proof.
  intros Hv. destruct (Grid2D.at_ grid p) as [v |] eqn:E; [| done].
  assert (Grid2D.isValid grid p = true) by (apply isValid_is_Some; eauto). congruence.
Qed.

(** X1. The grid [Grid2D(x, y, value)] has height [y]; its width is [x],
    except that [width()] of a grid without rows is [0]; [isValid] accepts
    exactly the points of the rectangle [0 <= p.x < x], [0 <= p.y < y], and
    [operator[]] reads [value] there and is out of bounds elsewhere. *)
Theorem Grid2D_constructed (x y : Z) (value : T) p :
  0 ≤ x → 0 ≤ y →
  Grid2D.height (Grid2D.make x y value) = y
  ∧ Grid2D.width (Grid2D.make x y value) = (if decide (y = 0) then 0 else x)
  ∧ (Grid2D.isValid (Grid2D.make x y value) p = true
     ↔ 0 ≤ Point.x p < x ∧ 0 ≤ Point.y p < y)
  ∧ Grid2D.at_ (Grid2D.make x y value) p
    = if Grid2D.isValid (Grid2D.make x y value) p then Some value else None.
Proof.
  intros Hx Hy. pose proof (make_rect x y value Hx Hy) as Hr.
  split; [by apply (rect_height x) |]. split; [| split].
  - case_decide as E.
    + subst y. reflexivity.
    + apply (rect_width x y); [done | lia].
  - rewrite isValid_is_Some. by apply rect_at.
  - destruct (Grid2D.isValid _ p) eqn:Ev.
    + apply isValid_is_Some, (rect_at x y) in Ev as [? ?]; [| done]. by apply make_at.
    + by apply isValid_false_at.
Qed.

(** X2. [isValid] is the exact guard of [operator[]]: where it holds, an
    assignment [grid[p] = value] is in bounds, [grid[p]] then reads [value],
    every other cell reads as before, and [isValid], [width()] and
    [height()] are unchanged; where it fails, the read and the assignment
    are out of bounds. *)
Theorem Grid2D_assignment grid p (value : T) :
  if Grid2D.isValid grid p then
    ∃ grid', Grid2D.put grid p value = Some grid'
      ∧ Grid2D.at_ grid' p = Some value
      ∧ (∀ q, q ≠ p → Grid2D.at_ grid' q = Grid2D.at_ grid q)
      ∧ (∀ q, Grid2D.isValid grid' q = Grid2D.isValid grid q)
      ∧ Grid2D.width grid' = Grid2D.width grid
      ∧ Grid2D.height grid' = Grid2D.height grid
  else Grid2D.at_ grid p = None ∧ Grid2D.put grid p value = None.
Proof.
  destruct (Grid2D.isValid grid p) eqn:Ev.
  - destruct (proj2 (put_is_Some grid p value)) as [grid' E]; [by apply isValid_is_Some |].
    destruct (put_Some _ _ _ _ E) as (Hs & Hp & Hq).
    exists grid'. repeat split; try done.
    + intros q. by apply isValid_shape.
    + by apply shape_width.
    + by apply shape_height.
  - split; [by apply isValid_false_at |].
    destruct (Grid2D.put grid p value) as [g |] eqn:E; [| done].
    assert (is_Some (Grid2D.at_ grid p)) as Hs by (apply (put_is_Some grid p value); eauto).
    apply isValid_is_Some in Hs. congruence.
Qed.

(** X3. [reset(value)] keeps the rows and their lengths, ragged or not:
    [height()], [width()] and [isValid] are unchanged, and every cell
    [isValid] accepts reads [value] afterwards. *)
Theorem Grid2D_reset grid (value : T) p :
  Grid2D.height (Grid2D.reset grid value) = Grid2D.height grid
  ∧ Grid2D.width (Grid2D.reset grid value) = Grid2D.width grid
  ∧ Grid2D.isValid (Grid2D.reset grid value) p = Grid2D.isValid grid p
  ∧ Grid2D.at_ (Grid2D.reset grid value) p
    = if Grid2D.isValid grid p then Some value else None.
Proof.
  pose proof (reset_shape grid value) as Hs.
  split; [by apply shape_height |]. split; [by apply shape_width |].
  split; [by apply isValid_shape |].
  destruct (Grid2D.isValid grid p) eqn:Ev.
  - by apply reset_at, isValid_is_Some.
  - apply isValid_false_at. by rewrite (isValid_shape _ grid).
Qed.

Lemma resize_rect grid (x y : Z) (value : T) :
  0 ≤ x → 0 ≤ y → Grid2D.rect x y (Grid2D.resize grid x y value).
Proof.
  intros Hx Hy. unfold Grid2D.resize. split.
  - rewrite length_fmap, length_resize. lia.
  - apply Forall_fmap, Forall_forall. intros line _. simpl. rewrite length_resize. lia.
Qed.

(** X4. [resize(x, y, value)] makes any grid, ragged or empty, an [x] by
    [y] rectangle: a cell that [isValid] accepted before and that lies in
    the new rectangle keeps its content, and every other cell of the new
    rectangle holds [value]. *)
Theorem Grid2D_resize grid (x y : Z) (value : T) p :
  0 ≤ x → 0 ≤ y →
  Grid2D.rect x y (Grid2D.resize grid x y value)
  ∧ Grid2D.height (Grid2D.resize grid x y value) = y
  ∧ (Grid2D.isValid (Grid2D.resize grid x y value) p = true
     ↔ 0 ≤ Point.x p < x ∧ 0 ≤ Point.y p < y)
  ∧ (0 ≤ Point.x p < x → 0 ≤ Point.y p < y →
     Grid2D.at_ (Grid2D.resize grid x y value) p
     = if Grid2D.isValid grid p then Grid2D.at_ grid p else Some value).
Proof.
  intros Hx Hy. pose proof (resize_rect grid x y value Hx Hy) as Hr.
  split; [done |]. split; [by apply (rect_height x) |].
  split; [rewrite isValid_is_Some; by apply rect_at |].
  intros Hpx Hpy. unfold Grid2D.resize.
  set (old := default [] (grid !! Z.to_nat (Point.y p))).
  assert (list.resize (Z.to_nat y) [] grid !! Z.to_nat (Point.y p) = Some old) as Erow.
  { unfold old. destruct (decide (Z.to_nat (Point.y p) < length grid)%nat) as [Hlt | Hge].
    - rewrite lookup_resize by lia.
      destruct (lookup_lt_is_Some_2 grid _ Hlt) as [line ->]. done.
    - rewrite lookup_resize_new by lia.
      rewrite lookup_ge_None_2 by lia. done. }
  assert (Grid2D.at_ ((λ line : list T, list.resize (Z.to_nat x) value line)
                        <$> list.resize (Z.to_nat y) [] grid) p
          = Some (default value (old !! Z.to_nat (Point.x p)))) as ->.
  { apply at_Some. exists (list.resize (Z.to_nat x) value old).
    split; [lia |]. split; [by rewrite list_lookup_fmap, Erow |]. split; [lia |].
    destruct (decide (Z.to_nat (Point.x p) < length old)%nat) as [Hlt | Hge].
    - rewrite lookup_resize by lia.
      destruct (lookup_lt_is_Some_2 old _ Hlt) as [v ->]. done.
    - rewrite lookup_resize_new by lia.
      rewrite lookup_ge_None_2 by lia. done. }
  destruct (Grid2D.isValid grid p) eqn:Ev.
  - apply isValid_is_Some in Ev as [v Ev]. rewrite Ev.
    apply at_Some in Ev as (line & _ & E1 & _ & E2).
    unfold old. rewrite E1. simpl. by rewrite E2.
  - apply isValid_false_at in Ev.
    clear Erow. subst old.
    destruct (grid !! Z.to_nat (Point.y p)) as [line |] eqn:E1; simpl; [| done].
    destruct (line !! Z.to_nat (Point.x p)) as [v |] eqn:E2; [| done].
    assert (Grid2D.at_ grid p = Some v) by (apply at_Some; exists line; repeat split; (lia || done)).
    congruence.
Qed.
End GridFacts.


(** ** Loops that keep an invariant and are defined under it *)

Lemma forM_total_inv {A St : Type} (P : St → Prop) (body : A → St → option St)
    (l : list A) (s : St) :
  (∀ a s, a ∈ l → P s → ∃ s', body a s = Some s' ∧ P s') →
  P s → ∃ s', forM body l s = Some s' ∧ P s'.
Proof.
  revert s. induction l as [| a l IH]; intros s Hb Hs; simpl; [by eauto |].
  destruct (Hb a s) as (s1 & -> & Hs1); [by left | done |]. simpl.
  apply IH; [| done]. intros a' s2 Hin. apply Hb. by right.
Qed.

Lemma both_sides {T : Type} (P : T → Prop) (d : DoubleBuffer.t T) (a b : T) :
  DoubleBuffer.wf d → DoubleBuffer.read d = Some a → DoubleBuffer.write d = Some b →
  P a → P b → both P d.
Proof.
  intros [E | E] Er Ew Ha Hb; destruct d as [[b1 b2] idx]; simpl in E; subst idx;
    vm_compute in Er, Ew; injection Er as <-; injection Ew as <-; by split.
Qed.

(** ** The phases of a frame on a running field *)

Section Phases.
Context `{Double F} (siv : Siv3D F).
Implicit Types (f : Field.t F) (inp : Input F).

Lemma Field_inv_keep w h u f f' :
  Field_inv w h u f →
  Field.m_field f' = Field.m_field f → Field.m_isWall f' = Field.m_isWall f →
  DoubleBuffer.wf (Field.m_brightness f') → both (Grid2D.rect w h) (Field.m_brightness f') →
  length (Field.m_lightPos f') = length (Field.m_lightPos f) →
  length (Field.m_lightColor f') = length (Field.m_lightColor f) →
  length (Field.m_velocity f') = length (Field.m_velocity f) →
  Field_inv w h u f'.
Proof.
  intros ((Hr & _) & Hring & Eu & Hu & Hc & Hv) Ef Ew Hd [H1 H2] Ep Ec Ev.
  split; [| split; [| split; [| split; [done | split]]]].
  - split; [by rewrite Ew |]. by split.
  - intros x y Hx Hy Hon. unfold Field.isWall. rewrite Ew. by apply Hring.
  - unfold Field.gridUnitPixel. rewrite Ew, Ef. exact Eu.
  - congruence.
  - congruence.
Qed.

Lemma Field_inv_with_brightness w h u f br :
  Field_inv w h u f → DoubleBuffer.wf br → both (Grid2D.rect w h) br →
  Field_inv w h u (Field.with_brightness f br).
Proof. intros Hinv Hd Hb. by apply (Field_inv_keep w h u f). Qed.

(** *** The wall edit *)

Lemma editWalls_rest f inp f' :
  Field.editWalls f inp = Some f' → f' = Field.with_isWall f (Field.m_isWall f').
Proof.
  unfold Field.editWalls. intros He. option_inv He.
  destruct (Grid2D.isValid _ _).
  - option_inv He. by injection He as <-.
  - injection He as <-. by destruct f.
Qed.

Lemma editWalls_is_Some f inp u :
  Field.gridUnitPixel f = Some u → u ≠ 0 → is_Some (Field.editWalls f inp).
Proof.
  intros Eu Hu. unfold Field.editWalls, Field.mouseGridPos. rewrite Eu.
  cbn [mbind option_bind]. case_decide; [done |]. cbn [mbind option_bind].
  set (mousePos := Point.mk _ _).
  destruct (Grid2D.isValid (Field.m_isWall f) mousePos) eqn:Ev; [| by eauto].
  assert (∃ w1, (if MouseL_pressed inp
                 then Grid2D.put (Field.m_isWall f) mousePos Field.FieldWall
                 else Some (Field.m_isWall f)) = Some w1
                ∧ shape w1 = shape (Field.m_isWall f)) as (w1 & -> & Hs1).
  { destruct (MouseL_pressed inp); [| by eauto].
    destruct (proj2 (put_is_Some (Field.m_isWall f) mousePos Field.FieldWall)) as [w1 E];
      [by apply isValid_is_Some |].
    exists w1. split; [done |]. by destruct (put_Some _ _ _ _ E). }
  cbn [mbind option_bind].
  assert (is_Some (if MouseR_pressed inp then Grid2D.put w1 mousePos Field.FieldSpace
                   else Some w1)) as [w2 ->]; [| cbn [mbind option_bind]; by eauto].
  destruct (MouseR_pressed inp); [| by eauto].
  apply put_is_Some, isValid_is_Some. by rewrite (isValid_shape w1 (Field.m_isWall f)).
Qed.

(** the wall edit of a frame that does not erase a ring cell *)
Lemma editWalls_total w h u f inp :
  Field_inv w h u f → ¬ erasesRing w h u inp →
  ∃ f', Field.editWalls f inp = Some f' ∧ Field_inv w h u f'
        ∧ f' = Field.with_isWall f (Field.m_isWall f').
Proof.
  intros Hinv Hkeep. pose proof Hinv as ((Hr & Hd & H1 & H2) & Hring & Eu & Hu & Hc & Hv).
  destruct (editWalls_is_Some f inp u Eu Hu) as [f' He].
  pose proof (editWalls_rest _ _ _ He) as Hrest.
  destruct (editWalls_Some _ _ _ He) as (mousePos & Em & Ef & Hs & Hother & Hat & _).
  exists f'. split; [done |]. split; [| done].
  assert (Grid2D.rect w h (Field.m_isWall f')) as Hr'
    by (apply (rect_of_shape w h (Field.m_isWall f)); done).
  rewrite Hrest. rewrite Hrest in Hr'. simpl in Hr'.
  split; [| split; [| split; [| done]]].
  - split; [done |]. by split.
  - intros x y Hx Hy Hon.
    change (Field.isWall (Field.with_isWall f (Field.m_isWall f')) (Point.mk x y))
      with (Field.isWall f' (Point.mk x y)).
    destruct (decide (Point.mk x y = mousePos)) as [<- | Hne]; [| rewrite Hother by done; by apply Hring].
    rewrite Hat by (apply isValid_is_Some, (rect_at w h); [done | simpl; lia]).
    unfold Field.mouseGridPos in Em. rewrite Eu in Em. cbn [mbind option_bind] in Em.
    case_decide; [done |]. injection Em as Ex Ey.
    destruct (MouseR_pressed inp) eqn:ER.
    + exfalso. apply Hkeep. unfold erasesRing. rewrite ER, Ex, Ey. done.
    + destruct (MouseL_pressed inp); [done | by apply Hring].
  - unfold Field.gridUnitPixel. simpl.
    rewrite <- (shape_height (Field.m_isWall f) (Field.m_isWall f')) by done. exact Eu.
Qed.

(** *** The motion, collision and stamp of one light *)

Lemma gridPos_is_Some f u p : Field.gridUnitPixel f = Some u → is_Some (Field.gridPos f p).
Proof. intros Eu. unfold Field.gridPos. rewrite Eu. simpl. by eauto. Qed.

Lemma collides_is_Some f u moveSegment q :
  Field.gridUnitPixel f = Some u → is_Some (Field.collides siv f moveSegment q).
Proof.
  intros Eu. unfold Field.collides.
  destruct (Grid2D.isValid (Field.m_isWall f) q) eqn:Ev; [| by eauto].
  apply isValid_is_Some in Ev as [c Ec]. unfold Field.isWall. rewrite Ec.
  cbn [mbind option_bind]. destruct (bool_decide _); [| by eauto].
  unfold Field.gridRect. rewrite Eu. simpl. by eauto.
Qed.

Lemma collides_hits f u moveSegment gridA j o :
  Field.gridUnitPixel f = Some u → Field.neighbors !! j = Some o →
  Field.collides siv f moveSegment (Point.add gridA o) = Some (hits siv f moveSegment gridA j).
Proof.
  intros Eu Eo. unfold hits. rewrite Eo.
  by destruct (collides_is_Some f u moveSegment (Point.add gridA o) Eu) as [b ->].
Qed.

Lemma resolveCollision_total f u moveSegment gridA gridB v :
  Field.gridUnitPixel f = Some u →
  Field.resolveCollision siv f moveSegment gridA gridB v
  = Some (if bool_decide (Field.collisionEvaluated f gridA gridB = Some true)
          then Reflection.reflectAll v (Reflection.applied (hits siv f moveSegment gridA))
          else v).
Proof.
  intros Eu. unfold Field.resolveCollision.
  destruct (collisionEvaluated_is_Some f gridA gridB) as [[|] Ee]; rewrite Ee;
    cbn [mbind option_bind]; [| done].
  rewrite bool_decide_eq_true_2 by done.
  rewrite (reflectLoop_loop siv f moveSegment gridA (hits siv f moveSegment gridA)).
  - by rewrite loop_applied.
  - intros j o _. by apply (collides_hits f u).
  - intros j Hin%elem_of_seq. lia.
Qed.

Lemma stamp_total w h f pos (i : nat) :
  Field_wf w h f → (i < length (Field.m_lightColor f))%nat →
  ∃ br, Field.stamp f pos i = Some br
        ∧ DoubleBuffer.wf br ∧ both (Grid2D.rect w h) br
        ∧ ∀ (P : ColorF.t F → Prop) color,
            Field.m_lightColor f !! i = Some color → P color →
            both (λ g, ∀ q v, Grid2D.at_ g q = Some v → P v) (Field.m_brightness f) →
            both (λ g, ∀ q v, Grid2D.at_ g q = Some v → P v) br.
Proof.
  intros Hwf Hi. destruct (Field_wf_buffers _ _ _ Hwf) as (rd & wr & Er & Ew & Hrd & Hwr).
  destruct Hwf as (Hr & Hd & H1 & H2).
  unfold Field.stamp. rewrite Er. cbn [mbind option_bind].
  destruct (Grid2D.isValid rd pos) eqn:Ev; [| exists (Field.m_brightness f); by eauto 10].
  rewrite Ew. cbn [mbind option_bind].
  destruct (lookup_lt_is_Some_2 _ _ Hi) as [color Ecolor]. rewrite Ecolor.
  cbn [mbind option_bind].
  destruct (proj2 (put_is_Some wr pos color)) as [wr' Eput].
  { apply (rect_at w h wr pos Hwr), (rect_at w h rd pos Hrd). by apply isValid_is_Some. }
  rewrite Eput. cbn [mbind option_bind].
  destruct (put_Some _ _ _ _ Eput) as (Hs & Eat & Hother).
  destruct (write_put_is_Some (Field.m_brightness f) wr' Hd) as [br Ebr].
  destruct (write_put_Some _ _ _ Ebr) as (_ & Hd' & _).
  exists br. split; [done |]. split; [done |]. split.
  - apply (both_write_put (Grid2D.rect w h) (Field.m_brightness f) wr' br (conj H1 H2));
      [| done].
    by apply (rect_of_shape w h wr).
  - intros P color' Ec HP Hboth. assert (color' = color) as -> by congruence.
    apply (both_write_put _ (Field.m_brightness f) wr' br Hboth); [| done].
    intros q v Hv. destruct (decide (q = pos)) as [-> | Hne]; [congruence |].
    rewrite (Hother q Hne) in Hv. by apply (both_write _ _ _ Hboth Ew q v).
Qed.

(** one light of a running field: its step is defined, keeps the invariant,
    the colours and the radii, and changes position and velocity of that
    light only *)
Lemma lightStep_total w h u f inp (i : nat) :
  Field_inv w h u f → (i < length (Field.m_lightPos f))%nat →
  ∃ f' pos br,
    Field.lightStep siv inp i f = Some f'
    ∧ Field.stamp f pos i = Some br ∧ Field.m_brightness f' = br
    ∧ Field_inv w h u f'
    ∧ Field.m_lightColor f' = Field.m_lightColor f
    ∧ length (Field.m_lightPos f') = length (Field.m_lightPos f)
    ∧ Circle.r <$> Field.m_lightPos f' = Circle.r <$> Field.m_lightPos f
    ∧ (∀ j, j ≠ i → Field.m_lightPos f' !! j = Field.m_lightPos f !! j
                     ∧ Field.m_velocity f' !! j = Field.m_velocity f !! j).
Proof.
  intros Hinv Hi. pose proof Hinv as (Hwf & Hring & Eu & Hu & Hc & Hv).
  destruct (lookup_lt_is_Some_2 (Field.m_lightPos f) i Hi) as [c Ec].
  destruct (lookup_lt_is_Some_2 (Field.m_velocity f) i) as [v0 Ev]; [lia |].
  unfold Field.lightStep, Field.moveLight. rewrite Ev, Ec. cbn [mbind option_bind].
  set (v1 := Field.applyForce inp i c v0).
  destruct (gridPos_is_Some f u (Vec2.asPoint (Circle.center c)) Eu) as [gridA ->].
  cbn [mbind option_bind].
  destruct (gridPos_is_Some f u
              (Vec2.asPoint (Vec2.add (Circle.center c) (Vec2.mul v1 Field.dt))) Eu)
    as [gridB ->].
  cbn [mbind option_bind]. rewrite (resolveCollision_total f u _ gridA gridB v1 Eu).
  cbn [mbind option_bind]. set (v2 := if bool_decide _ then _ else _).
  cbn [fst snd].
  destruct (gridPos_is_Some f u (Vec2.asPoint (Circle.center
              (Circle.mk (Vec2.add (Circle.center c) (Vec2.mul v2 Field.dt)) (Circle.r c)))) Eu)
    as [pos Epos].
  rewrite Epos. cbn [mbind option_bind].
  destruct (stamp_total w h f pos i Hwf) as (br & Es & Hd & Hb & _); [lia |].
  rewrite Es. cbn [mbind option_bind].
  eexists _, pos, br. split; [reflexivity |]. split; [done |]. split; [done |].
  split; [| split; [done | split; [| split]]].
  - apply (Field_inv_keep w h u f); simpl; try done; by rewrite length_insert.
  - simpl. by rewrite length_insert.
  - simpl. rewrite list_fmap_insert. simpl. apply list_insert_id.
    by rewrite list_lookup_fmap, Ec.
  - intros j Hj. simpl. by rewrite !list_lookup_insert_ne.
Qed.
End Phases.

Section Frames.
Context `{Double F} (siv : Siv3D F).
Implicit Types (f : Field.t F) (inp : Input F).

Lemma reset_cells {T : Type} (grid : list (list T)) (value : T) q v :
  Grid2D.at_ (Grid2D.reset grid value) q = Some v → v = value.
Proof.
  intros Hv.
  assert (is_Some (Grid2D.at_ grid q)) as Hq
    by (apply (at_is_Some_shape (Grid2D.reset grid value) grid); [apply reset_shape | eauto]).
  rewrite (reset_at grid value q Hq) in Hv. congruence.
Qed.

(** the field after [resetBrightness]: only black cells in its two grids *)
Lemma resetBrightness_inv w h f :
  Field_wf w h f →
  ∃ f', Field.resetBrightness f = Some f'
    ∧ Field_wf w h f'
    ∧ f' = Field.with_brightness f (Field.m_brightness f')
    ∧ both (λ g, ∀ q v, Grid2D.at_ g q = Some v → v = Black) (Field.m_brightness f').
Proof.
  intros Hwf.
  destruct (resetBrightness_total w h f Hwf)
    as (br & g1 & g2 & Ereset & Hd & Er & Ew & Hg1 & Hg2 & Hboth).
  exists (Field.with_brightness f br). split; [done |]. split; [| split; [done |]].
  - destruct Hwf as (Hr & _). destruct Hboth as [B1 B2].
    split; [done |]. split; [done |]. by split.
  - apply (both_sides _ br _ _ Hd Er Ew); intros q v; apply reset_cells.
Qed.

(** X5. [resetBrightness] is defined on a well-formed field and leaves both
    grids of the brightness buffer black at every cell, with their
    dimensions kept; it flips the buffer once, so the write side after it is
    the read side before it; nothing but the brightness changes. *)
Theorem resetBrightness_black w h f :
  Field_wf w h f →
  ∃ f', Field.resetBrightness f = Some f'
    ∧ Field_wf w h f'
    ∧ f' = Field.with_brightness f (Field.m_brightness f')
    ∧ DoubleBuffer.writeIndex (Field.m_brightness f')
      = DoubleBuffer.readIndex (Field.m_brightness f)
    ∧ both (λ g, ∀ p, 0 ≤ Point.x p < w → 0 ≤ Point.y p < h →
                      Grid2D.at_ g p = Some Black) (Field.m_brightness f').
Proof.
  intros (Hr & Hd & H1 & H2).
  assert (∀ g : list (list (ColorF.t F)), Grid2D.rect w h g →
            Grid2D.rect w h (Grid2D.reset g Black)
            ∧ ∀ p, 0 ≤ Point.x p < w → 0 ≤ Point.y p < h →
                   Grid2D.at_ (Grid2D.reset g Black) p = Some Black) as Hreset.
  { intros g Hg. split.
    - apply (rect_of_shape w h g); [| done]. symmetry. apply reset_shape.
    - intros p Hx Hy. by apply reset_at, (rect_at w h). }
  destruct f as [fld walls [[b1 b2] idx] ps cs vs]. simpl in *.
  destruct (Hreset b1 H1) as [R1 B1]. destruct (Hreset b2 H2) as [R2 B2].
  destruct Hd as [E | E]; simpl in E; subst idx.
  - exists (Field.mk fld walls (DoubleBuffer.mk (Grid2D.reset b1 Black, Grid2D.reset b2 Black) 1)
              ps cs vs).
    split; [reflexivity |]. split; [| by repeat split].
    split; [done |]. split; [by right |]. by split.
  - exists (Field.mk fld walls (DoubleBuffer.mk (Grid2D.reset b1 Black, Grid2D.reset b2 Black) 0)
              ps cs vs).
    split; [reflexivity |]. split; [| by repeat split].
    split; [done |]. split; [by left |]. by split.
Qed.

(** X6. A diffusion sub-step on a well-formed field whose ring is solid is
    defined: none of its unchecked reads and writes leaves a grid. It keeps
    the field well-formed and the ring solid, changes nothing but the
    brightness buffer, and leaves the grid it read untouched: that grid is
    the write side afterwards, and the grid it wrote is the read side. *)
Theorem stepLightDiffusion_safe w h f :
  Field_wf w h f → ringSolid w h f →
  ∃ f' rd rd',
    Field.stepLightDiffusion f = Some f'
    ∧ Field_wf w h f' ∧ ringSolid w h f'
    ∧ f' = Field.with_brightness f (Field.m_brightness f')
    ∧ DoubleBuffer.read (Field.m_brightness f) = Some rd
    ∧ DoubleBuffer.write (Field.m_brightness f') = Some rd
    ∧ DoubleBuffer.read (Field.m_brightness f') = Some rd'
    ∧ Grid2D.rect w h rd'.
Proof.
  intros Hwf Hring.
  destruct (stepLightDiffusion_total w h f Hwf Hring) as (f' & Es & Hwf' & Hring').
  destruct (stepLightDiffusion_Some _ _ Es) as (rd & wr & wr' & Er & Ew & Ep & Er' & Ew' & Hd' & Ef).
  exists f', rd, wr'. repeat (split; [done |]).
  destruct Hwf' as (_ & _ & Hb). by apply (both_read (Grid2D.rect w h) _ _ Hb Er').
Qed.

Lemma stepLightDiffusion_inv w h u f :
  Field_inv w h u f →
  ∃ f', Field.stepLightDiffusion f = Some f' ∧ Field_inv w h u f'.
Proof.
  intros Hinv. pose proof Hinv as (Hwf & Hring & _).
  destruct (stepLightDiffusion_total w h f Hwf Hring) as (f' & Es & (_ & Hd & Hb) & _).
  destruct (stepLightDiffusion_Some _ _ Es) as (_ & _ & _ & _ & _ & _ & _ & _ & _ & Ef).
  exists f'. split; [done |]. rewrite Ef. by apply Field_inv_with_brightness.
Qed.

(** the seeding phase of a frame on a running field, with a property [Q]
    of the brightness buffer that the phases establish and keep *)
Lemma seedFrame_total (Q : DoubleBuffer.t (Grid2D.t (ColorF.t F)) → Prop) w h u f inp :
  Field_inv w h u f → ¬ erasesRing w h u inp →
  (∀ f1, Field.resetBrightness f = Some f1 → Q (Field.m_brightness f1)) →
  (∀ s pos (i : nat) br, Field_wf w h s → Field.m_lightColor s = Field.m_lightColor f →
      Q (Field.m_brightness s) → Field.stamp s pos i = Some br → Q br) →
  (∀ s, Field_wf w h s → Q (Field.m_brightness s) →
      Q (DoubleBuffer.flip (Field.m_brightness s))) →
  ∃ f', Field.seedFrame siv f inp = Some f' ∧ Field_inv w h u f' ∧ Q (Field.m_brightness f')
        ∧ Field.m_field f' = Field.m_field f
        ∧ Field.m_lightColor f' = Field.m_lightColor f
        ∧ length (Field.m_lightPos f') = length (Field.m_lightPos f)
        ∧ Circle.r <$> Field.m_lightPos f' = Circle.r <$> Field.m_lightPos f.
Proof.
  intros Hinv Hkeep Qreset Qstamp Qflip.
  pose proof Hinv as (Hwf & _).
  destruct (resetBrightness_inv w h f Hwf) as (f1 & E1 & Hwf1 & Ef1 & _).
  assert (Field_inv w h u f1) as Hinv1.
  { rewrite Ef1. destruct Hwf1 as (_ & Hd1 & Hb1). by apply Field_inv_with_brightness. }
  destruct (editWalls_total w h u f1 inp Hinv1 Hkeep) as (f2 & E2 & Hinv2 & Ef2).
  set (n := length (Field.m_lightPos f2)).
  set (P := λ s : Field.t F,
         Field_inv w h u s ∧ Q (Field.m_brightness s)
         ∧ Field.m_field s = Field.m_field f
         ∧ Field.m_lightColor s = Field.m_lightColor f
         ∧ length (Field.m_lightPos s) = length (Field.m_lightPos f)
         ∧ Circle.r <$> Field.m_lightPos s = Circle.r <$> Field.m_lightPos f).
  assert (P f2) as HP2.
  { split; [done |]. rewrite Ef2, Ef1. simpl. split; [| done].
    change (Q (Field.m_brightness f1)). by apply Qreset. }
  assert (n = length (Field.m_lightPos f)) as En by (unfold n; by rewrite Ef2, Ef1).
  destruct (forM_total_inv P (Field.lightStep siv inp) (seq 0 n) f2) as (f3 & E3 & HP3);
    [| done |].
  { intros i s Hi%elem_of_seq (Hs & HQ & Efs & Ecs & Els & Ers).
    destruct (lightStep_total siv w h u s inp i Hs) as
      (s' & pos & br & Es & Est & Ebr & Hs' & Ec' & El' & Er' & _); [lia |].
    exists s'. split; [done |]. split; [done |].
    split; [rewrite Ebr; apply (Qstamp s pos i br); (done || apply Hs) |].
    destruct (lightStep_ground siv _ _ _ _ Es) as [_ Efs'].
    repeat split; congruence. }
  destruct HP3 as (Hinv3 & HQ3 & Ef3 & Ec3 & El3 & Er3).
  pose proof Hinv3 as ((_ & Hd3 & Hb3) & _).
  exists (Field.with_brightness f3 (DoubleBuffer.flip (Field.m_brightness f3))).
  unfold Field.seedFrame. rewrite E1. cbn [mbind option_bind].
  rewrite E2. cbn [mbind option_bind]. fold n. rewrite E3. cbn [mbind option_bind].
  split; [done |].
  split; [apply Field_inv_with_brightness;
          [done | by apply flip_wf | by apply (both_flip (Grid2D.rect w h))] |].
  split; [apply Qflip; (done || apply Hinv3) | done].
Qed.

(** a frame on a running field, likewise *)
Lemma update_total (Q : DoubleBuffer.t (Grid2D.t (ColorF.t F)) → Prop) w h u f inp :
  Field_inv w h u f → ¬ erasesRing w h u inp →
  (∀ f1, Field.resetBrightness f = Some f1 → Q (Field.m_brightness f1)) →
  (∀ s pos (i : nat) br, Field_wf w h s → Field.m_lightColor s = Field.m_lightColor f →
      Q (Field.m_brightness s) → Field.stamp s pos i = Some br → Q br) →
  (∀ s, Field_wf w h s → Q (Field.m_brightness s) →
      Q (DoubleBuffer.flip (Field.m_brightness s))) →
  (∀ s s', Field_wf w h s → Q (Field.m_brightness s) →
      Field.stepLightDiffusion s = Some s' → Q (Field.m_brightness s')) →
  ∃ f', Field.update siv f inp = Some f' ∧ Field_inv w h u f' ∧ Q (Field.m_brightness f')
        ∧ Field.m_field f' = Field.m_field f
        ∧ Field.m_lightColor f' = Field.m_lightColor f
        ∧ length (Field.m_lightPos f') = length (Field.m_lightPos f)
        ∧ Circle.r <$> Field.m_lightPos f' = Circle.r <$> Field.m_lightPos f.
Proof.
  intros Hinv Hkeep Qreset Qstamp Qflip Qstep.
  destruct (seedFrame_total Q w h u f inp Hinv Hkeep Qreset Qstamp Qflip)
    as (f4 & E4 & HP4).
  set (P := λ s : Field.t F,
         Field_inv w h u s ∧ Q (Field.m_brightness s)
         ∧ Field.m_field s = Field.m_field f
         ∧ Field.m_lightColor s = Field.m_lightColor f
         ∧ length (Field.m_lightPos s) = length (Field.m_lightPos f)
         ∧ Circle.r <$> Field.m_lightPos s = Circle.r <$> Field.m_lightPos f).
  destruct (repeatM_chain (λ _, P) Field.stepLightDiffusion 30 0 f4) as (f' & E' & HP');
    [| exact HP4 |].
  { intros _ s (Hs & HQ & Efs & Ecs & Els & Ers).
    destruct (stepLightDiffusion_inv w h u s Hs) as (s' & Es & Hs').
    exists s'. split; [done |]. split; [done |].
    split; [apply (Qstep s s'); (done || apply Hs) |].
    destruct (stepLightDiffusion_Some _ _ Es) as (_ & _ & _ & _ & _ & _ & _ & _ & _ & ->).
    done. }
  exists f'. unfold Field.update. rewrite E4. cbn [mbind option_bind].
  split; [exact E' |]. exact HP'.
Qed.

(** X11. A frame on a running field (well-formed [w] by [h] grids, solid
    ring, cell size [u], one colour and one velocity per light) in which the
    right button is not held on a ring cell is defined: every unchecked
    vector access of [update] and of the functions it calls is in bounds and
    no division is by zero. The field after it is again a running field, so
    the frames can go on. *)
Theorem update_safe w h u f inp :
  Field_inv w h u f → ¬ erasesRing w h u inp →
  ∃ f', Field.update siv f inp = Some f' ∧ Field_inv w h u f'.
Proof.
  intros Hinv Hkeep.
  destruct (update_total (λ _, True) w h u f inp Hinv Hkeep) as (f' & E & Hinv' & _); try done.
  by exists f'.
Qed.

(** X10. A frame never changes the image, the colours of the lights, the
    number of lights or the radius of a light; and it changes the wall grid
    at most at the cell under the pointer, which, when it is in the grid,
    becomes open with the right button held, solid with the left button
    alone held, and is unchanged otherwise. *)
Theorem update_frame f inp f' :
  Field.update siv f inp = Some f' →
  Field.m_field f' = Field.m_field f
  ∧ Field.m_lightColor f' = Field.m_lightColor f
  ∧ length (Field.m_lightPos f') = length (Field.m_lightPos f)
  ∧ length (Field.m_velocity f') = length (Field.m_velocity f)
  ∧ Circle.r <$> Field.m_lightPos f' = Circle.r <$> Field.m_lightPos f
  ∧ ∃ mousePos,
      Field.mouseGridPos f (Mouse_Pos inp) = Some mousePos
      ∧ (∀ q, q ≠ mousePos → Field.isWall f' q = Field.isWall f q)
      ∧ Field.isWall f' mousePos
        = if Grid2D.isValid (Field.m_isWall f) mousePos
          then if MouseR_pressed inp then Some false
               else if MouseL_pressed inp then Some true
               else Field.isWall f mousePos
          else None.
Proof.
  unfold Field.update. intros Hu. option_inv Hu. rename x into f4, E into Hseed.
  unfold Field.seedFrame in Hseed. option_inv Hseed. injection Hseed as <-.
  rename x into f1, x0 into f2, x1 into f3, E into E1, E0 into E2, E1 into E3.
  assert (f1 = Field.with_brightness f (Field.m_brightness f1)) as Ef1.
  { unfold Field.resetBrightness in E1. option_inv E1. by injection E1 as <-. }
  pose proof (editWalls_rest _ _ _ E2) as Ef2.
  set (P := λ s : Field.t F,
         Field.m_field s = Field.m_field f ∧ Field.m_isWall s = Field.m_isWall f2
         ∧ Field.m_lightColor s = Field.m_lightColor f
         ∧ length (Field.m_lightPos s) = length (Field.m_lightPos f)
         ∧ length (Field.m_velocity s) = length (Field.m_velocity f)
         ∧ Circle.r <$> Field.m_lightPos s = Circle.r <$> Field.m_lightPos f).
  assert (P f2) as HP2 by (unfold P; rewrite Ef2, Ef1; done).
  assert (P f3) as HP3.
  { refine (forM_invariant P _ _ _ _ _ E3 HP2). intros i s s' _ Hs HP.
    destruct HP as (Ef & Ew & Ec & El & Ev & Er).
    unfold Field.lightStep in Hs. option_inv Hs. injection Hs as <-. simpl.
    unfold Field.moveLight in E. option_inv E. injection E as <-. simpl.
    repeat split; simpl; try done.
    - by rewrite length_insert.
    - by rewrite length_insert.
    - rewrite list_fmap_insert. simpl. rewrite list_insert_id; [done |].
      match goal with E : Field.m_lightPos s !! i = Some _ |- _ =>
        by rewrite list_lookup_fmap, E end. }
  assert (P f') as (Ef & Ew & Ec & El & Ev & Er).
  { refine (repeatM_invariant P _ _ _ _ _ Hu HP3). intros s s' Hs HP.
    destruct (stepLightDiffusion_Some _ _ Hs) as (_ & _ & _ & _ & _ & _ & _ & _ & _ & ->).
    done. }
  repeat (split; [done |]).
  destruct (editWalls_Some _ _ _ E2) as (mousePos & Em & _ & _ & Hother & Hat & Hout).
  assert (∀ q, Field.isWall f1 q = Field.isWall f q) as Hw1
    by (intros q; rewrite Ef1; done).
  assert (∀ q, Field.isWall f' q = Field.isWall f2 q) as Hw'
    by (intros q; unfold Field.isWall; by rewrite Ew).
  exists mousePos. split; [| split].
  - rewrite <- Em. symmetry. apply mouseGridPos_ground. rewrite Ef1. done.
  - intros q Hq. by rewrite Hw', Hother, Hw1.
  - rewrite Hw'. replace (Field.m_isWall f) with (Field.m_isWall f1) by (rewrite Ef1; done).
    destruct (Grid2D.isValid (Field.m_isWall f1) mousePos) eqn:Ev1.
    + rewrite Hat by done. by rewrite Hw1.
    + rewrite (Hout eq_refl). unfold Field.isWall.
      by rewrite (isValid_false_at _ _ Ev1).
Qed.
(** X20. The lights do not interact, and a light moves by the velocity that
    is stored for it: one iteration of the loop over the lights replaces the
    centre of light [i] by its old centre plus [dt] times the velocity it
    stores for [i] (the one after damping, force and collision), keeps its
    radius, and leaves every other light, all colours and the walls as they
    were. *)
Theorem light_moves_alone inp (i : nat) f f' (c : Circle.t F) :
  Field.lightStep siv inp i f = Some f' →
  Field.m_lightPos f !! i = Some c →
  (∃ v', Field.m_velocity f' !! i = Some v'
         ∧ Field.m_lightPos f' !! i
           = Some (Circle.mk (Vec2.add (Circle.center c) (Vec2.mul v' Field.dt)) (Circle.r c)))
  ∧ (∀ j, j ≠ i → Field.m_lightPos f' !! j = Field.m_lightPos f !! j
                   ∧ Field.m_velocity f' !! j = Field.m_velocity f !! j)
  ∧ Field.m_lightColor f' = Field.m_lightColor f
  ∧ Field.m_isWall f' = Field.m_isWall f.
Proof.
  unfold Field.lightStep, Field.moveLight. intros Hs Ec. option_inv Hs. injection Hs as <-.
  option_inv E. injection E as <-. rename x2 into v0, x3 into c0, x6 into v'.
  assert (c0 = c) as -> by congruence.
  cbn [Field.m_velocity Field.m_lightPos Field.m_lightColor Field.m_isWall fst snd].
  split; [| split; [| done]].
  - exists v'. split; apply list_lookup_insert_eq; by eapply lookup_lt_Some.
  - intros j Hj. by rewrite !list_lookup_insert_ne.
Qed.
End Frames.

Lemma forM_ext {A St : Type} (body1 body2 : A → St → option St) (l : list A) (s : St) :
  (∀ a s, a ∈ l → body1 a s = body2 a s) → forM body1 l s = forM body2 l s.
Proof.
  revert s. induction l as [| a l IH]; intros s Hb; simpl; [done |].
  rewrite (Hb a s) by (by left). destruct (body2 a s) as [s1 |]; simpl; [| done].
  apply IH. intros a' s2 Hin. apply Hb. by right.
Qed.

Lemma stamp_keeps `{Double F} (P : ColorF.t F → Prop) (s : Field.t F) pos (i : nat) br :
  Field.stamp s pos i = Some br →
  (∀ color, Field.m_lightColor s !! i = Some color → P color) →
  both (λ g, ∀ q v, Grid2D.at_ g q = Some v → P v) (Field.m_brightness s) →
  both (λ g, ∀ q v, Grid2D.at_ g q = Some v → P v) br.
Proof.
  unfold Field.stamp. intros Hs Hc Hb. option_inv Hs. rename x into rd.
  destruct (Grid2D.isValid rd pos); [| by injection Hs as <-].
  option_inv Hs. rename x into wr, x0 into color, x1 into wr'.
  destruct (put_Some _ _ _ _ E2) as (_ & Eat & Hother).
  apply (both_write_put _ (Field.m_brightness s) wr' br Hb); [| done].
  intros q v Hv. destruct (decide (q = pos)) as [-> | Hne].
  - assert (v = color) as -> by congruence. by apply Hc.
  - rewrite (Hother q Hne) in Hv. by apply (both_write _ _ _ Hb E0 q v).
Qed.

(** ** The corner rule of the diffusion *)

Section Corner.
Context `{Double F}.
Implicit Types (f : Field.t F) (rd : list (list (ColorF.t F))).

(** X7. Light does not pass a solid corner. When the two cells
    [(x + dx, y)] and [(x, y + dy)] between the cell [(x, y)] and its
    diagonal neighbour [(x + dx, y + dy)] are both walls, the maximum that
    the neighbour loop of [stepLightDiffusion] computes for [(x, y)] does
    not depend on the brightness of that diagonal neighbour: it is the same
    on any two read grids that agree on every other cell. *)
Theorem diagonal_blocked f rd1 rd2 (x y dx dy : Z) :
  dx = -1 ∨ dx = 1 → dy = -1 ∨ dy = 1 →
  Field.isWall f (Point.mk (x + dx) y) = Some true →
  Field.isWall f (Point.mk x (y + dy)) = Some true →
  (∀ q, q ≠ Point.mk (x + dx) (y + dy) → Grid2D.at_ rd1 q = Grid2D.at_ rd2 q) →
  Field.neighbourMax f rd1 x y = Field.neighbourMax f rd2 x y.
Proof.
  intros Hdx Hdy Hw1 Hw2 Hsame. unfold Field.neighbourMax.
  apply forM_ext. intros i acc _. unfold Field.neighbourStep.
  destruct (Field.diffusion_neighbors !! i) as [side |] eqn:Ei; [| done].
  cbn [mbind option_bind].
  assert (Point.add (Point.mk x y) side ≠ Point.mk (x + dx) (y + dy)
          ∨ Field.cornerBlocked f x y i side = Some true) as [Hne | ->]; [| | done].
  { destruct i as [|[|[|[|[|[|[|[|i]]]]]]]]; simpl in Ei; [.. | done];
      injection Ei as <-; unfold Point.add; simpl;
      destruct Hdx as [-> | ->], Hdy as [-> | ->];
      first [ left; intros [=]; lia
            | right; unfold Field.cornerBlocked; simpl; rewrite Hw1; simpl; exact Hw2 ]. }
  destruct (Field.cornerBlocked f x y i side) as [[|] |]; [done | | done].
  cbn [mbind option_bind]. destruct (Field.attenuations !! i) as [att |]; [| done].
  cbn [mbind option_bind].
  assert (Grid2D.isValid rd1 (Point.add (Point.mk x y) side)
          = Grid2D.isValid rd2 (Point.add (Point.mk x y) side)) as ->.
  { apply eq_true_iff_eq. by rewrite !isValid_is_Some, (Hsame _ Hne). }
  by rewrite (Hsame _ Hne).
Qed.
End Corner.

(** ** The brightest value *)

Section Ceiling.
Context `{Double F} (siv : Siv3D F) (ok : F → Prop) `{!ChannelLaws ok}.
Implicit Types (f : Field.t F) (inp : Input F) (top : F * F * F).

Lemma contribution_below top f rd x y o u :
  ok3 ok top → below ok top rd →
  Spec.contribution Field.attenuationAdjacent f rd x y o = Some u →
  ok3 ok u ∧ le3 u top.
Proof.
  intros Htop Hrd Hu. unfold Spec.contribution in Hu.
  destruct (Spec.skipped f x y o); [done |]. option_inv Hu. injection Hu as <-.
  rename x0 into c. destruct (Hrd _ _ E) as [Hok Hle].
  destruct (scale3_le ok (Spec.rgb c) (Spec.rgb c)
              (Spec.attenuation Field.attenuationAdjacent o)) as [Hok' Hle'];
    [apply attenuation_cases | done | done | by apply (le3_refl ok) |].
  split; [exact Hok' |].
  apply (le3_trans ok _ (scale3 (Spec.rgb c) Field.attenuationAdjacent)); try done.
  - by apply (scale3_ok ok).
  - apply (le3_trans ok _ (Spec.rgb c)); try done; [by apply (scale3_ok ok) |].
    by apply (scale3_le_self ok).
Qed.

Lemma stepLightDiffusion_below top w h f f' :
  ok3 ok top → Field_wf w h f → Field.stepLightDiffusion f = Some f' →
  both (below ok top) (Field.m_brightness f) → both (below ok top) (Field.m_brightness f').
Proof.
  intros Htop Hwf Es Hb.
  destruct (stepLightDiffusion_Some _ _ Es) as (rd & wr & wr' & Er & Ew & Ep & Er' & Ew' & Hd' & _).
  pose proof (both_read _ _ _ Hb Er) as Hrd.
  apply (both_sides _ _ wr' rd Hd' Er' Ew'); [| done].
  intros q v Hv.
  destruct (stepLightDiffusion_values w h f f' rd wr' q v Hwf Es Er Er' Hv)
    as [[_ ->] | (_ & own & Eown & ->)].
  - split; [apply (zero3_ok ok) | by apply (zero3_least ok)].
  - destruct (Hrd _ _ Eown) as [Hok Hle]. unfold Spec.newBrightness, Spec.neighbourMax.
    split.
    + apply (max3_ok ok); [done |]. apply (foldl_max3_ok ok); [apply (zero3_ok ok) |].
      apply Forall_forall. intros u (o & Ho & Hu)%list_elem_of_omap.
      by destruct (contribution_below top f rd (Point.x q) (Point.y q) o u).
    + apply max3_le; [done |]. apply foldl_max3_le; [by apply (zero3_least ok) |].
      apply Forall_forall. intros u (o & Ho & Hu)%list_elem_of_omap.
      by destruct (contribution_below top f rd (Point.x q) (Point.y q) o u).
Qed.

(** X8. The diffusion has a ceiling. Under the laws of the channels, when
    no cell of the two brightness grids exceeds [top] in any colour channel,
    no cell does after any number of sub-steps: attenuation and maximum
    never create a value above the brightest one present. *)
Theorem diffusion_ceiling top w h (n : nat) f f' :
  ok3 ok top → Field_wf w h f → ringSolid w h f →
  both (below ok top) (Field.m_brightness f) →
  repeatM Field.stepLightDiffusion n f = Some f' →
  both (below ok top) (Field.m_brightness f').
Proof.
  intros Htop Hwf Hring Hb Hn.
  refine (proj2 (repeatM_invariant
            (λ s, (Field_wf w h s ∧ ringSolid w h s) ∧ both (below ok top) (Field.m_brightness s))
            _ _ _ _ _ Hn (conj (conj Hwf Hring) Hb))).
  intros s s' Es [[Hs Hr] Hbs].
  destruct (stepLightDiffusion_total w h s Hs Hr) as (s1 & Es1 & Hs1 & Hr1).
  assert (s1 = s') as -> by congruence.
  split; [done |]. by apply (stepLightDiffusion_below top w h s).
Qed.

(** X9. No cell is ever brighter than the brightest light. Under the laws
    of the channels, on a running field whose light colours do not exceed
    [top] in any channel, a frame that does not erase a ring cell is defined
    and leaves no cell of the displayed (read-side) grid above [top]. *)
Theorem update_ceiling top w h u f inp :
  Field_inv w h u f → ¬ erasesRing w h u inp → ok3 ok top →
  (∀ (i : nat) color, Field.m_lightColor f !! i = Some color →
     ok3 ok (Spec.rgb color) ∧ le3 (Spec.rgb color) top) →
  ∃ f' rd, Field.update siv f inp = Some f'
           ∧ DoubleBuffer.read (Field.m_brightness f') = Some rd
           ∧ below ok top rd.
Proof.
  intros Hinv Hkeep Htop Hcolors.
  destruct (update_total siv (both (below ok top)) w h u f inp Hinv Hkeep)
    as (f' & Eu & Hinv' & Hb' & _).
  - intros f1 E1. destruct (resetBrightness_inv w h f (proj1 Hinv))
      as (f1' & E1' & _ & _ & [B1 B2]).
    assert (f1' = f1) as -> by congruence.
    split; intros q v Hv.
    + rewrite (B1 q v Hv). split; [apply (zero3_ok ok) | by apply (zero3_least ok)].
    + rewrite (B2 q v Hv). split; [apply (zero3_ok ok) | by apply (zero3_least ok)].
  - intros s pos i br _ Ec Hb Es.
    apply (stamp_keeps (λ v, ok3 ok (Spec.rgb v) ∧ le3 (Spec.rgb v) top) s pos i br Es);
      [| exact Hb].
    intros color Hc. apply (Hcolors i). by rewrite <- Ec.
  - intros s _ Hb. by apply both_flip.
  - intros s s' Hs Hb Es. by apply (stepLightDiffusion_below top w h s).
  - destruct Hinv' as ((_ & Hd' & _) & _).
    destruct (read_is_Some _ Hd') as [rd Er].
    exists f', rd. split; [done |]. split; [done |]. by apply (both_read _ _ _ Hb' Er).
Qed.
End Ceiling.

(** ** The seed of a frame *)

Section SeedColours.
Context `{Double F} (siv : Siv3D F).
Implicit Types (f : Field.t F) (inp : Input F).

(** X17. The seeding phase of a frame writes light colours only: on a
    running field, in a frame that does not erase a ring cell, the phase is
    defined and every cell of the grid it hands to the diffusion is black
    or holds, alpha included, the colour of one of the lights. *)
Theorem seed_colours w h u f inp :
  Field_inv w h u f → ¬ erasesRing w h u inp →
  ∃ f0 rd, Field.seedFrame siv f inp = Some f0
           ∧ DoubleBuffer.read (Field.m_brightness f0) = Some rd
           ∧ Grid2D.rect w h rd
           ∧ ∀ q v, Grid2D.at_ rd q = Some v → v = Black ∨ v ∈ Field.m_lightColor f.
Proof.
  intros Hinv Hkeep.
  set (P := λ v : ColorF.t F, v = Black ∨ v ∈ Field.m_lightColor f).
  destruct (seedFrame_total siv (both (λ g, ∀ q v, Grid2D.at_ g q = Some v → P v))
              w h u f inp Hinv Hkeep) as (f0 & E0 & Hinv0 & Hb0 & _).
  - intros f1 E1. destruct (resetBrightness_inv w h f (proj1 Hinv))
      as (f1' & E1' & _ & _ & [B1 B2]).
    assert (f1' = f1) as -> by congruence.
    split; intros q v Hv; left; [by apply (B1 q v) | by apply (B2 q v)].
  - intros s pos i br _ Ec Hb Es. apply (stamp_keeps P s pos i br Es); [| exact Hb].
    intros color Hc. right. rewrite <- Ec. by apply list_elem_of_lookup_2 in Hc.
  - intros s _ Hb. by apply both_flip.
  - destruct Hinv0 as ((_ & Hd0 & Hr0) & _).
    destruct (read_is_Some _ Hd0) as [rd Er].
    exists f0, rd. split; [done |]. split; [done |].
    split; [by apply (both_read _ _ _ Hr0 Er) | by apply (both_read _ _ _ Hb0 Er)].
Qed.
(** X21. What moves the lights. With the space key held the random source
    is not consulted, and with the space key up the pointer position
    [Mouse::PosF()] is not: two frames whose inputs agree on the buttons, on
    the key and on [Mouse::Pos()], and on [Mouse::PosF()] when the key is held
    or on the random vectors when it is up, give the same field. *)
Theorem force_sources f inp inp' :
  Mouse_Pos inp' = Mouse_Pos inp →
  MouseL_pressed inp' = MouseL_pressed inp → MouseR_pressed inp' = MouseR_pressed inp →
  MouseM_pressed inp' = MouseM_pressed inp → KeySpace_pressed inp' = KeySpace_pressed inp →
  (if KeySpace_pressed inp then Mouse_PosF inp' = Mouse_PosF inp
   else ∀ i, RandomVec2_len inp' i = RandomVec2_len inp i) →
  Field.update siv f inp' = Field.update siv f inp.
Proof.
  intros Ep EL ER EM ES Hsrc.
  assert (∀ i c v, Field.applyForce inp' i c v = Field.applyForce inp i c v) as Hforce.
  { intros i c v. unfold Field.applyForce. rewrite ES, EM.
    destruct (KeySpace_pressed inp); [by rewrite Hsrc | by rewrite Hsrc]. }
  assert (∀ i s, Field.lightStep siv inp' i s = Field.lightStep siv inp i s) as Hstep.
  { intros i s. unfold Field.lightStep, Field.moveLight.
    destruct (Field.m_velocity s !! i) as [v |]; [| done].
    destruct (Field.m_lightPos s !! i) as [c |]; [| done].
    cbn [mbind option_bind]. by rewrite Hforce. }
  assert (∀ s, Field.editWalls s inp' = Field.editWalls s inp) as Hedit.
  { intros s. unfold Field.editWalls. by rewrite Ep, EL, ER. }
  unfold Field.update, Field.seedFrame.
  destruct (Field.resetBrightness f) as [f1 |]; [| done]. cbn [mbind option_bind].
  rewrite Hedit. destruct (Field.editWalls f1 inp) as [f2 |]; [| done].
  cbn [mbind option_bind].
  by rewrite (forM_ext (Field.lightStep siv inp') (Field.lightStep siv inp) _ f2
                (λ i s _, Hstep i s)).
Qed.
End SeedColours.

Lemma mapM_fmap_total {A B : Type} (g : A → option B) (k : A → B) (l : list A) :
  (∀ a, a ∈ l → g a = Some (k a)) → mapM g l = Some (k <$> l).
Proof.
  intros Hg. apply mapM_Some. apply Forall2_fmap_r, Forall_Forall2_diag, Forall_forall.
  done.
Qed.

Lemma length_concat_rows {A : Type} (rows : list (list A)) (w : nat) :
  Forall (λ r, length r = w) rows → length (concat rows) = (length rows * w)%nat.
Proof.
  induction 1 as [| r rows Hr _ IH]; simpl; [done |]. rewrite length_app. lia.
Qed.

Lemma lookup_concat_rows {A : Type} (rows : list (list A)) (w y x : nat) :
  Forall (λ r, length r = w) rows → (x < w)%nat →
  concat rows !! (y * w + x)%nat = rows !! y ≫= (.!! x).
Proof.
  intros Hrows Hx. revert y. induction Hrows as [| r rows Hr _ IH]; intros y; simpl.
  - by rewrite !lookup_nil.
  - destruct y as [| y]; simpl.
    + apply lookup_app_l. lia.
    + rewrite lookup_app_r by lia. rewrite <- IH. f_equal. lia.
Qed.

(** ** Construction, the pointer and the collision in open space *)

Section RunningField.
Context `{Double F} (siv : Siv3D F).
Implicit Types (f : Field.t F) (inp : Input F).

(** the cell size and the lights of the field the constructor returns *)
Lemma construct_lights (W H0 u : Z) f :
  0 < u → 0 ≤ W → 0 ≤ H0 →
  Field.construct siv {| image_width := W; image_height := H0 |} u = Field.Constructed f →
  Field.gridUnitPixel f = Some u
  ∧ Circle.r <$> Field.m_lightPos f = replicate 8 (of_int u * lit 1 2)%D
  ∧ Field.m_lightColor f
    = (λ i : nat, HSV siv (lit 120 1 + lit 30 1 * of_int (Z.of_nat i))%D (lit 7 10) (lit 1 1))
        <$> seq 0 8
  ∧ Field.m_velocity f = replicate 8 (Vec2.mk (of_int 0) (of_int 0)).
Proof.
  intros Hu HW HH Hc.
  destruct (construct_cases siv W H0 u Hu HW HH) as (Ha & Hb & _).
  destruct (decide (W `mod` u = 0 ∧ H0 `mod` u = 0)) as [[E1 E2] | Hnd];
    [| rewrite (Ha Hnd) in Hc; discriminate].
  destruct (decide (H0 = 0)) as [E0 | Hne]; [rewrite (Hb E1 E2 E0) in Hc; discriminate |].
  clear Ha Hb.
  assert (0 < H0 `div` u) as Hh.
  { apply Z.div_str_pos. split; [done |].
    destruct (decide (H0 < u)); [| lia]. rewrite Z.mod_small in E2; lia. }
  assert (H0 = u * (H0 `div` u)) as EH by (apply Z.div_exact; lia).
  unfold Field.construct in Hc. case_decide; [lia |].
  destruct (Field.checkInitialValidness _ _); [| done].
  destruct (Field.init siv _) as [f2 |] eqn:Ei; [| done]. injection Hc as ->.
  unfold Field.init in Ei. option_inv Ei. rename x into walls, x0 into lights.
  destruct (initWalls_Some _ _ E) as (Hs & _).
  match type of E0 with mapM (Field.spawnLight siv ?g) _ = _ => set (f0 := g) in * end.
  assert (Grid2D.height walls = H0 `div` u) as Ehw.
  { rewrite (shape_height _ _ Hs). unfold Grid2D.height, Grid2D.make.
    cbn [Field.m_isWall Field.m_field image_height image_width].
    rewrite length_replicate, Z.quot_div_nonneg by lia. lia. }
  assert (Field.gridUnitPixel f0 = Some u) as Eu0.
  { unfold Field.gridUnitPixel, f0.
    cbn [Field.m_field Field.m_isWall Field.with_isWall image_height].
    rewrite Ehw. case_decide; [lia |]. f_equal.
    rewrite Z.quot_div_nonneg by lia.
    set (k := H0 `div` u) in *. rewrite EH. apply Z.div_mul. lia. }
  set (spawned := λ i : nat,
         (Circle.mk (RandomVec2_in siv
                       (stretched siv (RectF.mk (of_int 0) (of_int 0)
                                         (of_int (Point.x (Window_Size siv)))
                                         (of_int (Point.y (Window_Size siv))))
                                  (of_int (- u))) i)
                    (of_int u * lit 1 2)%D,
          HSV siv (lit 120 1 + lit 30 1 * of_int (Z.of_nat i))%D (lit 7 10) (lit 1 1),
          Vec2.mk (of_int 0) (of_int 0))).
  assert (lights = spawned <$> seq 0 8) as ->.
  { rewrite (mapM_fmap_total (Field.spawnLight siv f0) spawned) in E0; [by injection E0 |].
    intros i _. unfold Field.spawnLight. rewrite Eu0. done. }
  injection Ei as <-. split; [exact Eu0 |]. by repeat split.
Qed.

(** the field the constructor returns is a running field *)
Lemma construct_inv (W H0 u : Z) f :
  0 < u → 0 ≤ W → 0 ≤ H0 →
  Field.construct siv {| image_width := W; image_height := H0 |} u = Field.Constructed f →
  Field_inv (W `div` u) (H0 `div` u) u f ∧ length (Field.m_lightPos f) = 8%nat.
Proof.
  intros Hu HW HH Hc.
  destruct (construct_lights W H0 u f Hu HW HH Hc) as (Eu & Er & Ecol & Ev).
  destruct (construct_cases siv W H0 u Hu HW HH) as (Ha & Hb & Hok).
  destruct (decide (W `mod` u = 0 ∧ H0 `mod` u = 0)) as [[E1 E2] | Hnd];
    [| rewrite (Ha Hnd) in Hc; discriminate].
  destruct (decide (H0 = 0)) as [E0 | Hne]; [rewrite (Hb E1 E2 E0) in Hc; discriminate |].
  destruct (Hok E1 E2) as (f1 & Hc1 & Hwf & _ & _ & Hcells); [lia |].
  assert (f1 = f) as -> by congruence.
  assert (length (Field.m_lightPos f) = 8%nat) as El
    by (rewrite <- (length_fmap Circle.r), Er; by rewrite length_replicate).
  split; [| exact El].
  split; [done |]. split; [| split; [done | split; [lia | split]]].
  - intros x y Hx Hy Hon. rewrite Hcells by done. by rewrite bool_decide_eq_true_2.
  - rewrite El, Ecol. by rewrite length_fmap, length_seq.
  - rewrite El, Ev. by rewrite length_replicate.
Qed.

(** X12. Whenever the constructor returns a field, for an image of [W] by
    [H0] pixels and a positive cell size [u], that field is a running
    field of [W / u] by [H0 / u] cells: the grids are well-formed, the ring
    is solid and the interior open, [gridUnitPixel()] gives back [u], and
    there are 8 lights, each at rest, with radius [u * 0.5] and the hue
    [120 + 30 i]. *)
Theorem construct_running (W H0 u : Z) f :
  0 < u → 0 ≤ W → 0 ≤ H0 →
  Field.construct siv {| image_width := W; image_height := H0 |} u = Field.Constructed f →
  Field_inv (W `div` u) (H0 `div` u) u f
  ∧ ringOnly (W `div` u) (H0 `div` u) f
  ∧ Circle.r <$> Field.m_lightPos f = replicate 8 (of_int u * lit 1 2)%D
  ∧ Field.m_lightColor f
    = (λ i : nat, HSV siv (lit 120 1 + lit 30 1 * of_int (Z.of_nat i))%D (lit 7 10) (lit 1 1))
        <$> seq 0 8
  ∧ Field.m_velocity f = replicate 8 (Vec2.mk (of_int 0) (of_int 0)).
Proof.
  intros Hu HW HH Hc.
  destruct (construct_inv W H0 u f Hu HW HH Hc) as [Hinv _].
  destruct (construct_lights W H0 u f Hu HW HH Hc) as (_ & Hlights).
  split; [exact Hinv |]. split; [| exact Hlights].
  destruct (construct_cases siv W H0 u Hu HW HH) as (Ha & Hb & Hok).
  destruct (decide (W `mod` u = 0 ∧ H0 `mod` u = 0)) as [[E1 E2] | Hnd];
    [| rewrite (Ha Hnd) in Hc; discriminate].
  destruct (decide (H0 = 0)) as [E0 | Hne]; [rewrite (Hb E1 E2 E0) in Hc; discriminate |].
  destruct (Hok E1 E2) as (f1 & Hc1 & _ & _ & _ & Hcells); [lia |].
  assert (f1 = f) as -> by congruence.
  intros x y Hx Hy. by apply Hcells.
Qed.

(** X13. The cell under the pointer. On a field of [w] by [h] cells of
    [u] pixels, [mouseGridPos] and [gridRect] are defined; a pointer inside
    [fieldRect()] addresses a cell of the grid whose [gridRect] contains
    it. The division truncates towards zero, so the addressed cell is in
    the grid exactly for the pointers from [-u + 1] to [u * w - 1] and
    from [-u + 1] to [u * h - 1]: up to [u - 1] pixels left of or above the
    field, the pointer still addresses column or row 0. *)
Theorem pointer_cell (w h u : Z) f (p : Point.t) :
  Grid2D.rect w h (Field.m_isWall f) → 0 < u → 0 < w → 0 < h →
  Field.m_field f = {| image_width := u * w; image_height := u * h |} →
  ∃ q rect,
    Field.mouseGridPos f p = Some q ∧ Field.gridRect f q = Some rect
    ∧ (inRect (Field.fieldRect f) p →
       Grid2D.isValid (Field.m_isWall f) q = true ∧ inRect rect p)
    ∧ (Grid2D.isValid (Field.m_isWall f) q = true
       ↔ - u < Point.x p < u * w ∧ - u < Point.y p < u * h).
Proof.
  intros Hr Hu Hw Hh Ef.
  assert (Field.gridUnitPixel f = Some u) as Eu.
  { unfold Field.gridUnitPixel. rewrite (rect_height _ _ _ Hr), Ef. simpl.
    case_decide; [lia |]. f_equal. apply Z.quot_mul. lia. }
  unfold Field.mouseGridPos, Field.gridRect. rewrite Eu. cbn [mbind option_bind].
  case_decide; [lia |]. eexists _, _. split; [reflexivity |]. split; [reflexivity |].
  destruct p as [px py]. cbn [Point.x Point.y].
  assert (∀ a, 0 ≤ a → u * (a `quot` u) ≤ a < u * (a `quot` u) + u) as Hquot.
  { intros a Ha. rewrite Z.quot_div_nonneg by lia.
    pose proof (Z.mul_div_le a u Hu). pose proof (Z.mul_succ_div_gt a u Hu). lia. }
  assert (∀ a n, 0 < n → 0 ≤ a `quot` u < n ↔ - u < a < u * n) as Hrange.
  { intros a n Hn. destruct (decide (0 ≤ a)) as [Ha | Ha].
    - pose proof (Hquot a Ha). split; intros ?; nia.
    - assert (a `quot` u = - ((- a) `quot` u)) as -> by (rewrite Z.quot_opp_l; lia).
      pose proof (Hquot (- a) ltac:(lia)).
      assert (0 ≤ (- a) `quot` u) by nia. split; intros ?; nia. }
  split.
  - unfold inRect, Field.fieldRect. rewrite Ef. cbn. intros [Hx Hy].
    split; [| split; apply Hquot; lia].
    apply isValid_is_Some, (rect_at w h); [done |]. cbn.
    split; apply Hrange; lia.
  - rewrite isValid_is_Some, (rect_at w h) by done. cbn.
    rewrite (Hrange px w), (Hrange py h) by done. done.
Qed.

(** X14. In open space the collision step leaves the velocity alone:
    when none of the 8 neighbours of the start cell is a wall cell of the
    grid, [intersects] is not consulted and the velocity is returned as it
    was given. *)
Theorem open_space_keeps_velocity f moveSegment gridA gridB (v : Vec2.t F) :
  (∀ o, o ∈ Field.neighbors →
        Grid2D.isValid (Field.m_isWall f) (Point.add gridA o) = true →
        Field.isWall f (Point.add gridA o) = Some false) →
  Field.resolveCollision siv f moveSegment gridA gridB v = Some v.
Proof.
  intros Hopen. unfold Field.resolveCollision.
  destruct (collisionEvaluated_is_Some f gridA gridB) as [[|] ->]; cbn [mbind option_bind];
    [| done].
  rewrite (reflectLoop_loop siv f moveSegment gridA (λ _, false)).
  - by rewrite loop_applied.
  - intros j o _ Ho. unfold Field.collides.
    destruct (Grid2D.isValid _ _) eqn:Ev; [| done].
    rewrite (Hopen o) by (done || by eapply list_elem_of_lookup_2). done.
  - intros j Hin%elem_of_seq. lia.
Qed.

(** ** [draw] and the loop of [Main] *)

(** the commands of [draw]: the rows of cell commands, then those of the
    lights *)
Lemma draw_rows (w h u : Z) f :
  Field_wf w h f → Field.gridUnitPixel f = Some u →
  length (Field.m_lightColor f) = length (Field.m_lightPos f) →
  ∃ rd lights,
    DoubleBuffer.read (Field.m_brightness f) = Some rd
    ∧ Field.draw f
      = Some (concat ((λ y, (λ x, cellDrawing f u x y
                                    (default Black (Grid2D.at_ rd (Point.mk x y))))
                              <$> seqZ 0 w) <$> seqZ 0 h) ++ lights)
    ∧ Forall2 (λ i d, Field.drawLight f i = Some d)
              (seq 0 (length (Field.m_lightPos f))) lights
    ∧ 0 ≤ w ∧ 0 < h.
Proof.
  intros Hwf Eu Hlen.
  destruct (Field_wf_buffers _ _ _ Hwf) as (rd & wr & Er & _ & Hrd & _).
  destruct Hwf as (Hr & _).
  assert (0 < h) as Hh.
  { unfold Field.gridUnitPixel in Eu. case_decide; [done |].
    rewrite (rect_height _ _ _ Hr) in *. unfold Grid2D.rect in Hr. lia. }
  assert (0 ≤ w) as Hw.
  { rewrite <- (rect_width w h _ Hr Hh). unfold Grid2D.width. destruct (Field.m_isWall f); lia. }
  set (cell := λ x y : Z, cellDrawing f u x y (default Black (Grid2D.at_ rd (Point.mk x y)))).
  assert (∀ x y, 0 ≤ x < w → 0 ≤ y < h → Field.drawCell f x y = Some (cell x y)) as Hcell.
  { intros x y Hx Hy. unfold Field.drawCell, cell, cellDrawing. rewrite Er.
    cbn [mbind option_bind].
    destruct (proj2 (rect_at w h rd (Point.mk x y) Hrd)) as [color ->]; [done |].
    cbn [mbind option_bind]. unfold Field.gridRect. rewrite Eu. cbn [mbind option_bind].
    destruct (proj2 (isWall_is_Some w h f (Point.mk x y) Hr)) as [b ->]; [done |].
    cbn [mbind option_bind default Point.x Point.y Rect.x Rect.y]. by destruct b. }
  assert (mapM (λ y, mapM (λ x, Field.drawCell f x y)
                            (seqZ 0 (Grid2D.width (Field.m_isWall f))))
               (seqZ 0 (Grid2D.height (Field.m_isWall f)))
          = Some ((λ y, (λ x, cell x y) <$> seqZ 0 w) <$> seqZ 0 h)) as Erows.
  { rewrite (rect_width w h _ Hr Hh), (rect_height w h _ Hr).
    apply mapM_fmap_total. intros y Hy%elem_of_seqZ.
    apply mapM_fmap_total. intros x Hx%elem_of_seqZ. apply Hcell; lia. }
  destruct (mapM_is_Some_2 (Field.drawLight f) (seq 0 (length (Field.m_lightPos f))))
    as [lights El].
  { apply Forall_forall. intros i Hi%elem_of_seq. unfold compose, Field.drawLight.
    destruct (lookup_lt_is_Some_2 (Field.m_lightPos f) i) as [c ->]; [lia |].
    destruct (lookup_lt_is_Some_2 (Field.m_lightColor f) i) as [color ->]; [lia |].
    simpl. by eauto. }
  exists rd, lights. split; [done |].
  unfold Field.draw. rewrite Erows. cbn [mbind option_bind]. rewrite El.
  split; [done |]. split; [by apply mapM_Some | done].
Qed.

(** the number of cell commands *)
Lemma length_cell_rows {A : Type} (cell : Z → Z → A) (w h : Z) :
  0 ≤ w → 0 ≤ h →
  Forall (λ r, length r = Z.to_nat w) ((λ y, (λ x, cell x y) <$> seqZ 0 w) <$> seqZ 0 h)
  ∧ length (concat ((λ y, (λ x, cell x y) <$> seqZ 0 w) <$> seqZ 0 h)) = Z.to_nat (w * h).
Proof.
  intros Hw Hh.
  assert (Forall (λ r, length r = Z.to_nat w)
            ((λ y, (λ x, cell x y) <$> seqZ 0 w) <$> seqZ 0 h)) as Hrows.
  { apply Forall_fmap, Forall_forall. intros y _. simpl.
    by rewrite length_fmap, length_seqZ. }
  split; [done |]. rewrite (length_concat_rows _ (Z.to_nat w) Hrows).
  rewrite length_fmap, length_seqZ. rewrite Z2Nat.inj_mul by lia. lia.
Qed.

(** X15. [draw] is defined on a well-formed field with a positive cell
    count in height and one colour per light. It issues one command per
    cell, row by row, and then one circle per light: a black rectangle on
    the pixels of a wall cell, whatever its brightness, and for an open
    cell the texture of those pixels tinted with the read-side brightness
    of the cell. *)
Theorem draw_total (w h u : Z) f :
  Field_wf w h f → Field.gridUnitPixel f = Some u →
  length (Field.m_lightColor f) = length (Field.m_lightPos f) →
  ∃ out rd,
    Field.draw f = Some out
    ∧ DoubleBuffer.read (Field.m_brightness f) = Some rd
    ∧ length out = (Z.to_nat (w * h) + length (Field.m_lightPos f))%nat
    ∧ (∀ x y color, 0 ≤ x < w → 0 ≤ y < h →
         Grid2D.at_ rd (Point.mk x y) = Some color →
         out !! Z.to_nat (y * w + x) = Some (cellDrawing f u x y color))
    ∧ (∀ (i : nat) circle color,
         Field.m_lightPos f !! i = Some circle → Field.m_lightColor f !! i = Some color →
         out !! (Z.to_nat (w * h) + i)%nat = Some (Field.CircleDraw circle color)).
Proof.
  intros Hwf Eu Hlen.
  destruct (draw_rows w h u f Hwf Eu Hlen) as (rd & lights & Er & Ed & Hl & Hw & Hh).
  set (cell := λ x y : Z, cellDrawing f u x y (default Black (Grid2D.at_ rd (Point.mk x y))))
    in Ed.
  destruct (length_cell_rows cell w h Hw ltac:(lia)) as [Hrows Ecells].
  set (rows := (λ y, (λ x, cell x y) <$> seqZ 0 w) <$> seqZ 0 h) in *.
  pose proof (Forall2_length _ _ _ Hl) as Elen. rewrite length_seq in Elen.
  exists (concat rows ++ lights), rd.
  split; [done |]. split; [done |]. split; [| split].
  - rewrite length_app. lia.
  - intros x y color Hx Hy Ecolor.
    rewrite lookup_app_l by (rewrite Ecells; nia).
    replace (Z.to_nat (y * w + x)) with (Z.to_nat y * Z.to_nat w + Z.to_nat x)%nat
      by (rewrite Z2Nat.inj_add, Z2Nat.inj_mul by nia; done).
    rewrite (lookup_concat_rows rows (Z.to_nat w)) by (done || lia).
    unfold rows. rewrite list_lookup_fmap, lookup_seqZ_lt by lia.
    cbn [fmap option_fmap option_map mbind option_bind].
    rewrite list_lookup_fmap, lookup_seqZ_lt by lia. cbn.
    unfold cell. rewrite !Z.add_0_l, !Z2Nat.id by lia. by rewrite Ecolor.
  - intros i circle color Ec Ecol.
    rewrite lookup_app_r by lia. rewrite Ecells.
    replace (Z.to_nat (w * h) + i - Z.to_nat (w * h))%nat with i by lia.
    assert (seq 0 (length (Field.m_lightPos f)) !! i = Some i) as Hi
      by (apply lookup_seq; split; [done | by eapply lookup_lt_Some]).
    destruct (Forall2_lookup_l _ _ _ _ _ Hl Hi) as (d & -> & Hd).
    unfold Field.drawLight in Hd. rewrite Ec, Ecol in Hd. simpl in Hd. done.
Qed.

(** the loop of frames on a running field *)
Lemma mainLoop_total (w h u : Z) f (inps : list (Input F)) :
  Field_inv w h u f → Forall (λ inp, ¬ erasesRing w h u inp) inps →
  ∃ outs, Field.mainLoop siv f inps = Some outs
          ∧ length outs = length inps
          ∧ Forall (λ out, length out = (Z.to_nat (w * h) + length (Field.m_lightPos f))%nat)
                   outs.
Proof.
  intros Hinv Hinps. revert f Hinv.
  induction Hinps as [| inp inps Hinp _ IH]; intros f Hinv; simpl; [by eauto |].
  destruct (update_total siv (λ _, True) w h u f inp Hinv Hinp)
    as (f' & -> & Hinv' & _ & _ & _ & El & _); try done.
  cbn [mbind option_bind].
  destruct (draw_rows w h u f') as (rd & lights & _ & -> & Hl & Hw & Hh);
    [apply Hinv' .. |].
  cbn [mbind option_bind].
  destruct (IH f' Hinv') as (outs & -> & Hlen & Houts). cbn [mbind option_bind].
  eexists. split; [reflexivity |]. split; [simpl; by rewrite Hlen |].
  rewrite <- El. constructor; [| done].
  rewrite length_app, (proj2 (length_cell_rows _ w h Hw ltac:(lia))).
  apply Forall2_length in Hl. rewrite length_seq in Hl. lia.
Qed.

End RunningField.

(** X16. [Main] runs. The field of the 1280 by 736 window with 32-pixel
    cells is constructed without a failed assertion, as a grid of 40 by 23
    cells; then every frame in which the right button is not held on a ring
    cell is defined, and its [draw] issues the 920 cell commands and the 8
    circles. *)
Theorem Main_runs `{Double F} (siv : Siv3D F) (inps : list (Input F)) :
  Forall (λ inp, ¬ erasesRing 40 23 32 inp) inps →
  ∃ outs, Field.Main siv inps = Some outs
          ∧ length outs = length inps
          ∧ Forall (λ out, length out = 928%nat) outs.
Proof.
  intros Hinps. unfold Field.Main.
  set (siv' := Field.Window_Resize siv 1280 736).
  cbn [Window_Size siv' Field.Window_Resize Point.x Point.y].
  destruct (construct_cases siv' 1280 736 32) as (_ & _ & Hok); [lia .. |].
  destruct Hok as (f & Ec & _); [done | done | lia |].
  rewrite Ec.
  destruct (construct_inv siv' 1280 736 32 f) as (Hinv & El); [lia .. | done |].
  change (1280 `div` 32) with 40 in Hinv. change (736 `div` 32) with 23 in Hinv.
  destruct (mainLoop_total siv' 40 23 32 f inps Hinv Hinps) as (outs & Em & Hlen & Houts).
  exists outs. split; [done |]. split; [done |].
  rewrite El in Houts. exact Houts.
Qed.

Lemma reset_of_shape {T : Type} (g1 g2 : list (list T)) (value : T) :
  shape g1 = shape g2 → Grid2D.reset g1 value = Grid2D.reset g2 value.
Proof.
  unfold shape, Grid2D.reset. revert g2.
  induction g1 as [| l1 g1 IH]; intros [| l2 g2]; simpl; try done.
  intros [= El Eg]. f_equal; [| by apply IH].
  clear -El. revert l2 El. induction l1 as [| a l1 IH]; intros [| b l2]; simpl; try done.
  intros [= El]. f_equal. by apply IH.
Qed.

Section Forget.
Context `{Double F} (siv : Siv3D F).
Implicit Types (f g : Field.t F) (inp : Input F).

(** X18. A frame carries no brightness over from the frame before: two
    fields that differ only in the contents of their brightness grids, of
    the same dimensions, get the same result from [update], brightness
    buffer included, because [resetBrightness] overwrites every cell of
    both grids first. *)
Theorem frame_forgets_brightness f g inp :
  Field.m_field g = Field.m_field f → Field.m_isWall g = Field.m_isWall f →
  Field.m_lightPos g = Field.m_lightPos f → Field.m_lightColor g = Field.m_lightColor f →
  Field.m_velocity g = Field.m_velocity f →
  DoubleBuffer.m_currentWriteBuffer (Field.m_brightness g)
  = DoubleBuffer.m_currentWriteBuffer (Field.m_brightness f) →
  shape (DoubleBuffer.m_buffer (Field.m_brightness g)).1
  = shape (DoubleBuffer.m_buffer (Field.m_brightness f)).1 →
  shape (DoubleBuffer.m_buffer (Field.m_brightness g)).2
  = shape (DoubleBuffer.m_buffer (Field.m_brightness f)).2 →
  Field.update siv g inp = Field.update siv f inp.
Proof.
  destruct f as [fld walls [[b1 b2] idx] ps cs vs], g as [fld' walls' [[c1 c2] idx'] ps' cs' vs'].
  simpl. intros -> -> -> -> -> -> E1 E2.
  assert (Field.resetBrightness
            (Field.mk fld walls (DoubleBuffer.mk (c1, c2) idx) ps cs vs)
          = Field.resetBrightness
              (Field.mk fld walls (DoubleBuffer.mk (b1, b2) idx) ps cs vs)) as Er.
  { unfold Field.resetBrightness, DoubleBuffer.write, DoubleBuffer.write_put,
      DoubleBuffer.flip, DoubleBuffer.writeIndex, array2_at, array2_put. simpl.
    destruct (decide (idx = 0)) as [-> | H0].
    - simpl. by rewrite (reset_of_shape c1 b1), (reset_of_shape c2 b2).
    - destruct (decide (idx = 1)) as [-> | H1]; [| done].
      simpl. by rewrite (reset_of_shape c1 b1), (reset_of_shape c2 b2). }
  unfold Field.update, Field.seedFrame. by rewrite Er.
Qed.
End Forget.

Section Shadow.
Context `{Double F} (ok : F → Prop) `{!ChannelLaws ok}.
Implicit Types (f : Field.t F) (rd : list (list (ColorF.t F))) (S : Point.t → Prop).

Lemma zero_attenuated (k : F) :
  k = Field.attenuationAdjacent ∨ k = Field.attenuationDiagonal →
  (lit 0 1 * k)%D = lit 0 1.
Proof.
  intros Hk. pose proof (ok_zero (ok:=ok)) as H0.
  destruct (mul_le_adjacent ok (lit 0 1) (lit 0 1) k Hk H0 H0 (fle_refl ok _ H0)) as [Hok Hle].
  apply (fle_antisym ok); [done | done | | by apply zero_least].
  apply (fle_trans ok _ (lit 0 1 * Field.attenuationAdjacent)%D); try done.
  - by apply ok_adjacent.
  - by apply mul_le_self.
Qed.

Lemma foldl_max3_black (l : list (F * F * F)) :
  Forall (λ u, u = Spec.rgb Black) l → foldl Spec.max3 (Spec.rgb Black) l = Spec.rgb Black.
Proof.
  induction 1 as [| u l -> _ IH]; simpl; [done |].
  rewrite (max3_l (Spec.rgb Black) (Spec.rgb Black)); [done |].
  apply (le3_refl ok), (zero3_ok ok).
Qed.

Lemma stepLightDiffusion_dark w h f f' rd rd' S :
  Field_wf w h f → Field.stepLightDiffusion f = Some f' →
  DoubleBuffer.read (Field.m_brightness f) = Some rd →
  DoubleBuffer.read (Field.m_brightness f') = Some rd' →
  enclosed w h f S → dark S rd → dark S rd'.
Proof.
  intros Hwf Es Er Er' Hclosed Hdark p v Hp Hv.
  destruct (Field_wf_buffers _ _ _ Hwf) as (rd0 & wr & Er0 & _ & Hrd & _).
  assert (rd0 = rd) as -> by congruence.
  destruct (stepLightDiffusion_values w h f f' rd rd' p v Hwf Es Er Er' Hv)
    as [[_ ->] | (Hopen & own & Eown & ->)]; [done |].
  unfold Spec.newBrightness, Spec.neighbourMax.
  rewrite (Hdark p own Hp Eown). rewrite foldl_max3_black.
  - apply (max3_l (Spec.rgb Black) (Spec.rgb Black)), (le3_refl ok), (zero3_ok ok).
  - apply Forall_forall. intros u (o & Ho & Hu)%list_elem_of_omap.
    unfold Spec.contribution in Hu.
    destruct (Spec.skipped f (Point.x p) (Point.y p) o) eqn:Esk; [done |].
    option_inv Hu. injection Hu as <-. rename x into c.
    assert (Point.mk (Point.x p) (Point.y p) = p) as Ep by (by destruct p).
    rewrite Ep in E.
    assert (S (Point.add p o)) as Hpo.
    { apply Hclosed; try done;
        apply (proj1 (rect_at w h rd (Point.add p o) Hrd)); eauto. }
    pose proof (Hdark _ _ Hpo E) as Hc. injection Hc as -> -> ->.
    unfold Spec.rgb, Black. simpl.
    by rewrite !zero_attenuated by apply attenuation_cases.
Qed.

(** X19. Shadows. Under the laws of the channels, let [S] be a set of
    cells that light cannot enter: from an open cell of [S], every
    neighbour that the diffusion does not skip and that is in the grid is
    again in [S] (as when [S] is bounded by walls, corner rule included).
    If every cell of [S] is dark on the read side, then every cell of [S]
    is dark on the read side after any number of diffusion sub-steps. *)
Theorem shadow_stays_dark w h (n : nat) f f' rd rd' S :
  Field_wf w h f → ringSolid w h f →
  repeatM Field.stepLightDiffusion n f = Some f' →
  DoubleBuffer.read (Field.m_brightness f) = Some rd →
  DoubleBuffer.read (Field.m_brightness f') = Some rd' →
  enclosed w h f S → dark S rd → dark S rd'.
Proof.
  intros Hwf Hring Hn Er Er' Hclosed Hdark.
  set (P := λ s : Field.t F,
         Field_wf w h s ∧ ringSolid w h s ∧ Field.m_isWall s = Field.m_isWall f
         ∧ ∀ g, DoubleBuffer.read (Field.m_brightness s) = Some g → dark S g).
  assert (P f') as (_ & _ & _ & Hd'); [| by apply Hd'].
  refine (repeatM_invariant P _ _ _ _ _ Hn _).
  - intros s s' Es (Hs & Hr & Ew & Hd).
    destruct (stepLightDiffusion_total w h s Hs Hr) as (s1 & Es1 & Hs1 & Hr1).
    assert (s1 = s') as -> by congruence.
    split; [done |]. split; [done |].
    split; [by rewrite (stepLightDiffusion_isWall _ _ Es) |].
    intros g' Eg'. destruct (read_is_Some _ (proj1 (proj2 Hs))) as [g Eg].
    apply (stepLightDiffusion_dark w h s s' g g' S Hs Es Eg Eg'); [| by apply Hd].
    intros p o Hp Hopen Ho Hsk Hx Hy. apply Hclosed; try done.
    + unfold Field.isWall in *. by rewrite <- Ew.
    + unfold Spec.skipped, Spec.wall, Field.isWall in *. by rewrite <- Ew.
  - split; [done |]. split; [done |]. split; [done |].
    intros g Eg. assert (g = rd) as -> by congruence. done.
Qed.
End Shadow.

(** ** The properties at work on the fixed-point instance *)

Lemma below_Forall `{Double F} (ok : F → Prop) (top : F * F * F)
    (grid : list (list (ColorF.t F))) :
  Forall (Forall (λ v, ok3 ok (Spec.rgb v) ∧ le3 (Spec.rgb v) top)) grid → below ok top grid.
Proof.
  intros Hg q v (line & _ & E1 & _ & E2)%at_Some.
  rewrite Forall_forall in Hg. specialize (Hg line (list_elem_of_lookup_2 _ _ _ E1)).
  rewrite Forall_forall in Hg. exact (Hg v (list_elem_of_lookup_2 _ _ _ E2)).
Qed.

(** the 5 by 5 field of the constructor with one light at rest on its
    centre cell is a running field *)
Lemma Milli_room_running :
  Field_inv 5 5 32 (Milli.with_light (Milli.built 5 5) 2 2 Milli.amber).
Proof.
  assert (Field.construct Milli.siv3d {| image_width := 160; image_height := 160 |} 32
          = Field.Constructed (Milli.built 5 5)) as Hc by (vm_compute; reflexivity).
  assert (Grid2D.width (Field.m_isWall (Milli.built 5 5)) = 5) as Ew by (vm_compute; reflexivity).
  assert (Grid2D.height (Field.m_isWall (Milli.built 5 5)) = 5) as Eh by (vm_compute; reflexivity).
  split; [| split; [| split; [| split; [lia | split; reflexivity]]]].
  - vm_compute. split; [| split; [first [by left | by right] | split]]; (split; [reflexivity | repeat constructor]).
  - intros x y Hx Hy Hon.
    change (Field.isWall (Milli.built 5 5) (Point.mk x y) = Some true).
    rewrite (walls_after_construction Milli.siv3d 160 160 32 (Milli.built 5 5) x y);
      [| lia | lia | lia | exact Hc | unfold inGrid; rewrite Ew, Eh; lia].
    rewrite Ew, Eh. by rewrite bool_decide_eq_true_2.
  - vm_compute. reflexivity.
Qed.

Lemma resetBrightness_black_witness :
  ∃ f', Field.resetBrightness Milli.seeded = Some f'
    ∧ Field_wf 5 5 f'
    ∧ f' = Field.with_brightness Milli.seeded (Field.m_brightness f')
    ∧ DoubleBuffer.writeIndex (Field.m_brightness f')
      = DoubleBuffer.readIndex (Field.m_brightness Milli.seeded)
    ∧ both (λ g, ∀ p, 0 ≤ Point.x p < 5 → 0 ≤ Point.y p < 5 →
                      Grid2D.at_ g p = Some Black) (Field.m_brightness f').
Proof.
  apply (resetBrightness_black 5 5 Milli.seeded).
  vm_compute. split; [| split; [first [by left | by right] | split]]; (split; [reflexivity | repeat constructor]).
Defined.

Lemma stepLightDiffusion_safe_witness :
  ∃ f' rd rd',
    Field.stepLightDiffusion (Milli.with_light (Milli.built 5 5) 2 2 Milli.amber) = Some f'
    ∧ Field_wf 5 5 f' ∧ ringSolid 5 5 f'
    ∧ f' = Field.with_brightness (Milli.with_light (Milli.built 5 5) 2 2 Milli.amber)
             (Field.m_brightness f')
    ∧ DoubleBuffer.read (Field.m_brightness (Milli.with_light (Milli.built 5 5) 2 2 Milli.amber))
      = Some rd
    ∧ DoubleBuffer.write (Field.m_brightness f') = Some rd
    ∧ DoubleBuffer.read (Field.m_brightness f') = Some rd'
    ∧ Grid2D.rect 5 5 rd'.
Proof.
  apply (stepLightDiffusion_safe 5 5); apply Milli_room_running.
Defined.

Lemma diagonal_blocked_witness :
  Field.isWall Milli.corner_room (Point.mk 0 2) = Some true
  ∧ Field.isWall Milli.corner_room (Point.mk 1 1) = Some true
  ∧ Field.neighbourMax Milli.corner_room (Grid2D.make 5 5 Black) 1 2
    = Field.neighbourMax Milli.corner_room
        (default [] (Grid2D.put (Grid2D.make 5 5 Black) (Point.mk 0 1) Milli.amber)) 1 2.
Proof.
  split; [vm_compute; reflexivity |]. split; [vm_compute; reflexivity |].
  destruct (Grid2D.put (Grid2D.make 5 5 (Black (F:=Z))) (Point.mk 0 1) Milli.amber)
    as [rd2 |] eqn:E; [| vm_compute in E; discriminate].
  destruct (put_Some _ _ _ _ E) as (_ & _ & Hother).
  apply (diagonal_blocked Milli.corner_room _ rd2 1 2 (-1) (-1));
    [by left | by left | vm_compute; reflexivity | vm_compute; reflexivity |].
  intros q Hq. symmetry. apply Hother. exact Hq.
Defined.

Lemma diffusion_ceiling_witness :
  repeatM Field.stepLightDiffusion 2 Milli.seeded = Some (Milli.step (Milli.step Milli.seeded))
  ∧ both (below Milli.ok (1000, 700, 300))
         (Field.m_brightness (Milli.step (Milli.step Milli.seeded))).
Proof.
  assert (repeatM Field.stepLightDiffusion 2 Milli.seeded
          = Some (Milli.step (Milli.step Milli.seeded))) as Hn by (vm_compute; reflexivity).
  split; [exact Hn |].
  apply (diffusion_ceiling Milli.ok (ChannelLaws0 := Milli_laws) (1000, 700, 300) 5 5 2
           Milli.seeded _); [| | | | exact Hn].
  - vm_compute. repeat split; discriminate.
  - vm_compute. split; [| split; [first [by left | by right] | split]]; (split; [reflexivity | repeat constructor]).
  - intros x y Hx Hy Hon.
    assert (Field.m_isWall Milli.seeded
            = Field.m_isWall (Milli.with_light (Milli.built 5 5) 2 2 Milli.amber)) as Ew
      by (vm_compute; reflexivity).
    unfold Field.isWall. rewrite Ew.
    by apply (proj1 (proj2 Milli_room_running)).
  - split; apply below_Forall; vm_compute; repeat constructor; discriminate.
Defined.

Lemma update_ceiling_witness :
  ∃ f' rd,
    Field.update Milli.siv3d (Milli.with_light (Milli.built 5 5) 2 2 Milli.amber)
                 (Milli.pointer_at 1 1 true false) = Some f'
    ∧ DoubleBuffer.read (Field.m_brightness f') = Some rd
    ∧ below Milli.ok (1000, 700, 300) rd.
Proof.
  apply (update_ceiling Milli.siv3d Milli.ok (ChannelLaws0 := Milli_laws) (1000, 700, 300)
           5 5 32).
  - apply Milli_room_running.
  - intros (E & _). discriminate E.
  - vm_compute. repeat split; discriminate.
  - intros [| i] color; simpl; [| done]. intros [= <-].
    vm_compute. repeat split; discriminate.
Defined.

Lemma update_frame_witness :
  Field.update Milli.siv3d (Milli.with_light (Milli.built 5 5) 2 2 Milli.amber)
               (Milli.pointer_at 1 1 true true)
  = Some (Milli.frame (Milli.with_light (Milli.built 5 5) 2 2 Milli.amber)
                      (Milli.pointer_at 1 1 true true))
  ∧ Field.isWall (Milli.with_light (Milli.built 5 5) 2 2 Milli.amber) (Point.mk 1 1)
    = Some false
  ∧ Field.isWall (Milli.frame (Milli.with_light (Milli.built 5 5) 2 2 Milli.amber)
                              (Milli.pointer_at 1 1 true true)) (Point.mk 1 1) = Some false
  ∧ Field.m_lightColor (Milli.frame (Milli.with_light (Milli.built 5 5) 2 2 Milli.amber)
                                    (Milli.pointer_at 1 1 true true)) = [Milli.amber].
Proof.
  assert (Field.update Milli.siv3d (Milli.with_light (Milli.built 5 5) 2 2 Milli.amber)
                       (Milli.pointer_at 1 1 true true)
          = Some (Milli.frame (Milli.with_light (Milli.built 5 5) 2 2 Milli.amber)
                              (Milli.pointer_at 1 1 true true))) as Hu
    by (vm_compute; reflexivity).
  split; [exact Hu |]. split; [vm_compute; reflexivity |].
  destruct (update_frame Milli.siv3d _ _ _ Hu)
    as (_ & Ec & _ & _ & _ & mousePos & Em & _ & Hat).
  assert (mousePos = Point.mk 1 1) as -> by (vm_compute in Em; congruence).
  split; [| exact Ec].
  rewrite Hat. vm_compute. reflexivity.
Defined.

Lemma update_safe_witness :
  ∃ f', Field.update Milli.siv3d (Milli.with_light (Milli.built 5 5) 2 2 Milli.amber)
                     (Milli.pointer_at 2 2 false true) = Some f'
        ∧ Field_inv 5 5 32 f'.
Proof.
  apply (update_safe Milli.siv3d 5 5 32).
  - apply Milli_room_running.
  - intros (_ & _ & _ & Hon). vm_compute in Hon.
    destruct Hon as [Hon | [Hon | [Hon | Hon]]]; discriminate Hon.
Defined.

Lemma construct_running_witness :
  Field_inv (160 `div` 32) (160 `div` 32) 32 (Milli.built 5 5)
  ∧ ringOnly (160 `div` 32) (160 `div` 32) (Milli.built 5 5)
  ∧ Circle.r <$> Field.m_lightPos (Milli.built 5 5) = replicate 8 (of_int 32 * lit 1 2)%D
  ∧ Field.m_lightColor (Milli.built 5 5)
    = (λ i : nat, HSV Milli.siv3d (lit 120 1 + lit 30 1 * of_int (Z.of_nat i))%D
                      (lit 7 10) (lit 1 1)) <$> seq 0 8
  ∧ Field.m_velocity (Milli.built 5 5) = replicate 8 (Vec2.mk (of_int 0) (of_int 0)).
Proof.
  apply (construct_running Milli.siv3d 160 160 32 (Milli.built 5 5)); [lia | lia | lia |].
  vm_compute. reflexivity.
Defined.

Lemma pointer_cell_witness :
  ∃ q rect,
    Field.mouseGridPos (Milli.built 5 5) (Point.mk (-5) 40) = Some q
    ∧ Field.gridRect (Milli.built 5 5) q = Some rect
    ∧ (inRect (Field.fieldRect (Milli.built 5 5)) (Point.mk (-5) 40) →
       Grid2D.isValid (Field.m_isWall (Milli.built 5 5)) q = true
       ∧ inRect rect (Point.mk (-5) 40))
    ∧ (Grid2D.isValid (Field.m_isWall (Milli.built 5 5)) q = true
       ↔ - 32 < Point.x (Point.mk (-5) 40) < 32 * 5
         ∧ - 32 < Point.y (Point.mk (-5) 40) < 32 * 5).
Proof.
  apply (pointer_cell 5 5 32 (Milli.built 5 5) (Point.mk (-5) 40)); [| lia | lia | lia |].
  - vm_compute. split; [reflexivity | repeat constructor].
  - vm_compute. reflexivity.
Defined.

Lemma open_space_keeps_velocity_witness :
  Field.resolveCollision Milli.siv3d (Milli.built 5 5) Milli.corner_move
    (Point.mk 2 2) (Point.mk 3 2) (Vec2.mk 1876877 (-125125))
  = Some (Vec2.mk 1876877 (-125125)).
Proof.
  apply (open_space_keeps_velocity Milli.siv3d (Milli.built 5 5)).
  intros o Ho _. unfold Field.neighbors in Ho.
  repeat (apply elem_of_cons in Ho as [-> | Ho]); try (vm_compute; reflexivity).
  by apply elem_of_nil in Ho.
Defined.

Lemma draw_total_witness :
  ∃ out rd,
    Field.draw Milli.seeded = Some out
    ∧ DoubleBuffer.read (Field.m_brightness Milli.seeded) = Some rd
    ∧ length out = 26%nat
    ∧ out !! 0%nat = Some (Field.RectDraw (Rect.mk 0 0 32 32) Black)
    ∧ out !! 12%nat = Some (Field.TextureDraw (Rect.mk 64 64 32 32) (Point.mk 64 64) Milli.amber)
    ∧ out !! 25%nat
      = Some (Field.CircleDraw (Circle.mk (Milli.cell_centre 2 2) (16 * Milli.one)) Milli.amber).
Proof.
  destruct (draw_total 5 5 32 Milli.seeded) as (out & rd & Ed & Er & Hlen & Hcells & Hlights).
  - vm_compute. split; [| split; [first [by left | by right] | split]]; (split; [reflexivity | repeat constructor]).
  - vm_compute. reflexivity.
  - vm_compute. reflexivity.
  - exists out, rd. split; [exact Ed |]. split; [exact Er |].
    assert (rd = Milli.read_side Milli.seeded) as -> by (unfold Milli.read_side; by rewrite Er).
    split; [exact Hlen |]. split; [| split].
    + apply (Hcells 0 0 Black); [lia | lia | vm_compute; reflexivity].
    + apply (Hcells 2 2 Milli.amber); [lia | lia | vm_compute; reflexivity].
    + apply (Hlights 0%nat); vm_compute; reflexivity.
Defined.

Lemma Main_runs_witness :
  ∃ outs, Field.Main Milli.siv3d [Milli.pointer_at 5 5 true false;
                                  Milli.pointer_at 0 0 true false;
                                  Milli.pointer_at 5 5 false true] = Some outs
          ∧ length outs = 3%nat
          ∧ Forall (λ out, length out = 928%nat) outs.
Proof.
  apply (Main_runs Milli.siv3d).
  repeat constructor.
  - intros (E & _). discriminate E.
  - intros (E & _). discriminate E.
  - intros (_ & _ & _ & Hon). vm_compute in Hon.
    destruct Hon as [Hon | [Hon | [Hon | Hon]]]; discriminate Hon.
Defined.

Lemma seed_colours_witness :
  ∃ f0 rd, Field.seedFrame Milli.siv3d (Milli.with_light (Milli.built 5 5) 2 2 Milli.amber)
                           (Milli.pointer_at 2 2 true false) = Some f0
           ∧ DoubleBuffer.read (Field.m_brightness f0) = Some rd
           ∧ Grid2D.rect 5 5 rd
           ∧ ∀ q v, Grid2D.at_ rd q = Some v → v = Black ∨ v ∈ [Milli.amber].
Proof.
  apply (seed_colours Milli.siv3d 5 5 32).
  - apply Milli_room_running.
  - intros (E & _). discriminate E.
Defined.

Lemma Grid2D_constructed_witness :
  Grid2D.height (Grid2D.make 3 0 7) = 0
  ∧ Grid2D.width (Grid2D.make 3 0 7) = (if decide (0 = 0) then 0 else 3)
  ∧ (Grid2D.isValid (Grid2D.make 3 0 7) (Point.mk 1 0) = true
     ↔ 0 ≤ Point.x (Point.mk 1 0) < 3 ∧ 0 ≤ Point.y (Point.mk 1 0) < 0)
  ∧ Grid2D.at_ (Grid2D.make 3 0 7) (Point.mk 1 0)
    = if Grid2D.isValid (Grid2D.make 3 0 7) (Point.mk 1 0) then Some 7 else None.
Proof. apply (Grid2D_constructed 3 0 7 (Point.mk 1 0)); lia. Defined.

Lemma Grid2D_resize_witness :
  Grid2D.resize [[1; 2; 3]; [4]] 2 3 0 = [[1; 2]; [4; 0]; [0; 0]]
  ∧ Grid2D.rect 2 3 (Grid2D.resize [[1; 2; 3]; [4]] 2 3 0)
  ∧ Grid2D.at_ (Grid2D.resize [[1; 2; 3]; [4]] 2 3 0) (Point.mk 1 1) = Some 0.
Proof.
  split; [reflexivity |].
  destruct (Grid2D_resize [[1; 2; 3]; [4]] 2 3 0 (Point.mk 1 1)) as (Hr & _ & _ & Hat); [lia | lia |].
  split; [exact Hr |]. apply Hat; simpl; lia.
Defined.

Lemma frame_forgets_brightness_witness :
  Field.update Milli.siv3d
    (Milli.frame (Milli.with_light (Milli.built 5 5) 2 2 Milli.amber)
                 (Milli.pointer_at 2 2 false false))
    (Milli.pointer_at 2 2 false false)
  = Field.update Milli.siv3d (Milli.with_light (Milli.built 5 5) 2 2 Milli.amber)
                 (Milli.pointer_at 2 2 false false).
Proof.
  apply (frame_forgets_brightness Milli.siv3d); vm_compute; reflexivity.
Defined.

Ltac cell_cases x y Hx Hy :=
  assert (x = 0 ∨ x = 1 ∨ x = 2 ∨ x = 3 ∨ x = 4) as Hxc by lia;
  assert (y = 0 ∨ y = 1 ∨ y = 2 ∨ y = 3 ∨ y = 4) as Hyc by lia;
  clear Hx Hy;
  destruct Hxc as [-> | [-> | [-> | [-> | ->]]]];
  destruct Hyc as [-> | [-> | [-> | [-> | ->]]]].

Lemma vault_wf : Field_wf 5 5 Milli.vault_seeded.
Proof.
  vm_compute. split; [| split; [first [by left | by right] | split]];
    (split; [reflexivity | repeat constructor]).
Qed.

Lemma vault_ring : ringSolid 5 5 Milli.vault_seeded.
Proof.
  intros x y Hx Hy Hon. unfold onRing in Hon.
  cell_cases x y Hx Hy; first [vm_compute; reflexivity | exfalso; lia].
Qed.

Lemma vault_enclosed : enclosed 5 5 Milli.vault_seeded Milli.vault_region.
Proof.
  intros [x y] o [Hx Hy] Hopen Ho _ _ _. cbn [Point.x Point.y] in Hx, Hy.
  destruct (proj1 (isWall_is_Some 5 5 Milli.vault_seeded (Point.mk x y) (proj1 vault_wf)))
    as [Hx' Hy']; [by eauto |].
  cbn [Point.x Point.y] in Hx', Hy'.
  destruct (offsets_unit o Ho) as [Hox Hoy].
  cell_cases x y Hx' Hy'; try (exfalso; lia);
    try (vm_compute in Hopen; discriminate Hopen).
  split; cbn [Point.add Point.x Point.y]; lia.
Qed.

Lemma vault_dark : dark Milli.vault_region (Milli.read_side Milli.vault_seeded).
Proof.
  intros [x y] v [Hx Hy] Hv. cbn [Point.x Point.y] in Hx, Hy.
  assert (0 ≤ x < 5 ∧ 0 ≤ y < 5) as [Hx' Hy'].
  { apply (rect_at 5 5 (Milli.read_side Milli.vault_seeded) (Point.mk x y)); [| by eauto].
    vm_compute. split; [reflexivity | repeat constructor]. }
  cell_cases x y Hx' Hy'; try (exfalso; lia);
    vm_compute in Hv; injection Hv as <-; reflexivity.
Qed.

Lemma shadow_stays_dark_witness :
  repeatM Field.stepLightDiffusion 30 Milli.vault_seeded
  = Some (Milli.frame Milli.vault (Milli.pointer_at 3 3 false false))
  ∧ Spec.rgb <$> Grid2D.at_ (Milli.read_side (Milli.frame Milli.vault
                                (Milli.pointer_at 3 3 false false))) (Point.mk 1 1)
    = Some (Spec.rgb Black)
  ∧ Spec.rgb <$> Grid2D.at_ (Milli.read_side (Milli.frame Milli.vault
                                (Milli.pointer_at 3 3 false false))) (Point.mk 3 2)
    = Some (900, 630, 270).
Proof.
  assert (repeatM Field.stepLightDiffusion 30 Milli.vault_seeded
          = Some (Milli.frame Milli.vault (Milli.pointer_at 3 3 false false))) as Hn
    by (vm_compute; reflexivity).
  split; [exact Hn |]. split; [| vm_compute; reflexivity].
  assert (DoubleBuffer.read (Field.m_brightness
            (Milli.frame Milli.vault (Milli.pointer_at 3 3 false false)))
          = Some (Milli.read_side (Milli.frame Milli.vault (Milli.pointer_at 3 3 false false))))
    as Er' by (vm_compute; reflexivity).
  assert (DoubleBuffer.read (Field.m_brightness Milli.vault_seeded)
          = Some (Milli.read_side Milli.vault_seeded)) as Er by (vm_compute; reflexivity).
  pose proof (shadow_stays_dark Milli.ok (ChannelLaws0 := Milli_laws) 5 5 30
                Milli.vault_seeded _ _ _ Milli.vault_region
                vault_wf vault_ring Hn Er Er' vault_enclosed vault_dark) as Hdark.
  destruct (Grid2D.at_ (Milli.read_side (Milli.frame Milli.vault
              (Milli.pointer_at 3 3 false false))) (Point.mk 1 1)) as [v |] eqn:Ev;
    [| vm_compute in Ev; discriminate Ev].
  cbn [fmap option_fmap option_map]. f_equal.
  apply (Hdark (Point.mk 1 1) v); [split; cbn; lia | exact Ev].
Defined.

Lemma light_moves_alone_witness :
  ∃ f' v',
    Field.lightStep Milli.siv3d Milli.corner_input 0 Milli.corner_room = Some f'
    ∧ Field.m_velocity f' !! 0%nat = Some v'
    ∧ Field.m_lightPos f' !! 0%nat
      = Some (Circle.mk (Vec2.add (Vec2.mk 65000 65000) (Vec2.mul v' Field.dt)) (16 * Milli.one))
    ∧ v' ≠ Vec2.mk 1876877 (-125125).
Proof.
  destruct (Field.lightStep Milli.siv3d Milli.corner_input 0 Milli.corner_room)
    as [f' |] eqn:Es; [| vm_compute in Es; discriminate Es].
  destruct (light_moves_alone Milli.siv3d Milli.corner_input 0 Milli.corner_room f'
              (Circle.mk (Vec2.mk 65000 65000) (16 * Milli.one)) Es eq_refl)
    as ((v' & Ev & Ec) & _).
  exists f', v'. split; [reflexivity |]. split; [exact Ev |]. split; [exact Ec |].
  vm_compute in Es. injection Es as <-. vm_compute in Ev. injection Ev as <-. discriminate.
Defined.

Lemma force_sources_witness :
  Field.update Milli.siv3d (Milli.built 5 5)
    {| Mouse_Pos := Point.mk 80 80; Mouse_PosF := Vec2.mk 80000 80000;
       MouseL_pressed := false; MouseR_pressed := false; MouseM_pressed := false;
       KeySpace_pressed := true; RandomVec2_len := λ i, Vec2.mk (Z.of_nat i) 7 |}
  = Field.update Milli.siv3d (Milli.built 5 5) (Milli.pointer_at 2 2 false false).
Proof.
  apply (force_sources Milli.siv3d); reflexivity.
Defined.
